(** * picasso/imageprocess: redundant cross-correlation drift estimation

    A shallow embedding of [src/picasso/imageprocess.py] ([xcorr],
    [get_image_shift], [rcc]) and the properties of it that the
    specification states.

    Python integers are [Z]; NumPy arrays are lists (a 2-D array is the list
    of its rows).  The IEEE doubles and the numerical routines of NumPy
    (FFT, pseudo-inverse) and lmfit (the least-squares Gaussian fit) are not
    part of the repository: they enter as the interfaces [Float64], [NumPy]
    and [LmFit] below, and every operation of the repository's own code
    (index arithmetic, slicing, argmax, the pair loop, the matrix layout,
    the cumulative sums) is written out. *)

From stdpp Require Import base list.
From Stdlib Require Import ZArith Lia QArith.

Open Scope Z_scope.

(** ** Exceptions and the error monad *)

Inductive exn : Type :=
  | BroadcastError          (* ValueError: operands could not be broadcast together *)
  | EmptyArgmax             (* ValueError: attempt to get an argmax of an empty sequence *)
  | ZeroSizeReduction       (* ValueError: zero-size array to reduction operation *)
  | NegativeDimensions      (* ValueError: negative dimensions are not allowed *)
  | UnravelError            (* ValueError: index out of bounds for the shape *)
  | DotShapeError           (* ValueError: shapes not aligned *)
  | IndexError              (* IndexError: index out of bounds *)
  | LibraryError (code : Z) (* anything raised inside FFT, lmfit or LAPACK *).

Inductive result (T : Type) : Type :=
  | Ok (v : T)
  | Raise (e : exn).
Arguments Ok {T} v.
Arguments Raise {T} e.

#[global] Instance result_bind : MBind result := λ T U k m,
  match m with
  | Ok v => k v
  | Raise e => Raise e
  end.

(** Monadic left fold: the body of a [for] loop that may raise. *)
Fixpoint foldM {S X : Type} (body : S → X → result S) (xs : list X) (s : S)
  : result S :=
  match xs with
  | [] => Ok s
  | x :: xs' => s' ← body s x ; foldM body xs' s'
  end.

Fixpoint mapM_res {X Y : Type} (f : X → result Y) (xs : list X) : result (list Y) :=
  match xs with
  | [] => Ok []
  | x :: xs' => y ← f x ; ys ← mapM_res f xs' ; Ok (y :: ys)
  end.

(** ** Python sequences *)

Abbreviation matrix T := (list (list T)) (only parsing).

Definition len {T : Type} (l : list T) : Z := Z.of_nat (length l).

(** [a.shape] of a 2-D array. *)
Definition shape {T : Type} (m : matrix T) : Z * Z :=
  (len m, match m with [] => 0 | r :: _ => len r end).

Definition size {T : Type} (m : matrix T) : Z := len (concat m).

(** [H]x[W] rectangular arrays. *)
Definition rect {T : Type} (H W : Z) (m : matrix T) : Prop :=
  len m = H ∧ Forall (λ r, len r = W) m.

(** Normalisation of one bound of a slice [a[lo:hi]] on a sequence of length
    [n]: a negative bound counts from the end, and the result is clipped to
    [0..n]. *)
Definition slice_bound (k n : Z) : Z :=
  if k <? 0 then Z.max (k + n) 0 else Z.min k n.

(** [l[lo:hi]] *)
Definition slice {T : Type} (lo hi : Z) (l : list T) : list T :=
  let s := slice_bound lo (len l) in
  let e := slice_bound hi (len l) in
  take (Z.to_nat (e - s)) (drop (Z.to_nat s) l).

(** An element-wise operation on a 2-D array. *)
Definition mmap {T U : Type} (f : T → U) (m : matrix T) : matrix U :=
  fmap (M := list) (fmap (M := list) f) m.

(** [m[r, c]] for indices [0 <= r], [0 <= c] inside the array. *)
Definition pixel {T : Type} (m : matrix T) (r c : Z) : option T :=
  if (0 <=? r) && (0 <=? c) then
    row ← m !! Z.to_nat r; row !! Z.to_nat c
  else None.

(** [m[ylo:yhi, xlo:xhi]] *)
Definition slice2 {T : Type} (ylo yhi xlo xhi : Z) (m : matrix T) : matrix T :=
  fmap (M := list) (slice xlo xhi) (slice ylo yhi m).

(** [range(a, b)] *)
Definition range (a b : Z) : list Z := seqZ a (b - a).

(** [l[i]] for an integer index: negative indices count from the end, and an
    index out of range raises. *)
Definition index {T : Type} (l : list T) (i : Z) : result T :=
  let k := if i <? 0 then i + len l else i in
  if (0 <=? k) && (k <? len l) then
    match l !! Z.to_nat k with
    | Some v => Ok v
    | None => Raise IndexError
    end
  else Raise IndexError.

(** [l[i] = v] *)
Definition set_index {T : Type} (l : list T) (i : Z) (v : T) : result (list T) :=
  let k := if i <? 0 then i + len l else i in
  if (0 <=? k) && (k <? len l) then Ok (<[Z.to_nat k := v]> l)
  else Raise IndexError.

(** [l[lo:hi] = v] with a scalar [v]: every position of the slice is set. *)
Definition slice_fill {T : Type} (lo hi : Z) (v : T) (l : list T) : list T :=
  let s := slice_bound lo (len l) in
  let e := slice_bound hi (len l) in
  take (Z.to_nat s) l ++ replicate (Z.to_nat (e - s)) v
    ++ drop (Z.to_nat s + Z.to_nat (e - s)) l.

(** [int(x / 2)] for a Python integer [x]: true division, then truncation
    towards zero. *)
Definition int_half (x : Z) : Z := Z.quot x 2.

(** ** The floating-point interface *)

Class Float64 : Type := {
  F : Type;
  f0 : F;                       (* 0.0 *)
  f1 : F;                       (* 1.0 *)
  fadd : F → F → F;
  fsub : F → F → F;
  fmul : F → F → F;
  fdiv : F → F → F;
  fopp : F → F;
  fsqrt : F → F;
  fle : F → F → bool;           (* x <= y *)
  of_int : Z → F                (* float(n) *)
}.

(** The ordering facts used about surfaces without NaN. *)
Class FloatOrder (FL : Float64) : Prop := {
  fle_refl : ∀ x : F, fle x x = true;
  fle_trans : ∀ x y z : F, fle x y = true → fle y z = true → fle x z = true;
  fle_total : ∀ x y : F, fle x y = true ∨ fle y x = true
}.

(** ** NumPy reductions written out *)

Section Reductions.
Context {FL : Float64}.

(** One step of NumPy's argmax loop: the running maximum [mp] at index
    [mi] is replaced by the value [v] at index [i] when [not (v <= mp)]. *)
Definition argmax_step (acc : Z * F * Z) (v : F) : Z * F * Z :=
  let '(mi, mp, i) := acc in
  if fle v mp then (mi, mp, i + 1) else (i, v, i + 1).

(** [a.argmax()] of a flattened array: the index of the first maximum. *)
Definition argmax (l : list F) : result Z :=
  match l with
  | [] => Raise EmptyArgmax
  | v :: l' => Ok (fold_left argmax_step l' (0, v, 1)).1.1
  end.

(** [a.max()] and [a.min()]. *)
Definition amax (l : list F) : result F :=
  match l with
  | [] => Raise ZeroSizeReduction
  | v :: l' => Ok (fold_left (λ m x, if fle x m then m else x) l' v)
  end.

Definition amin (l : list F) : result F :=
  match l with
  | [] => Raise ZeroSizeReduction
  | v :: l' => Ok (fold_left (λ m x, if fle m x then m else x) l' v)
  end.

(** [np.unravel_index(idx, shape)] for a 2-D shape in C order. *)
Definition unravel_index (idx : Z) (shp : Z * Z) : result (Z * Z) :=
  let '(h, w) := shp in
  if (0 <=? idx) && (idx <? h * w) then Ok (idx / w, idx mod w)
  else Raise UnravelError.

(** [np.cumsum]: sequential accumulation. *)
Fixpoint cumsum_from (acc : F) (l : list F) : list F :=
  match l with
  | [] => []
  | x :: l' => let acc' := fadd acc x in acc' :: cumsum_from acc' l'
  end.

Definition cumsum (l : list F) : list F :=
  match l with
  | [] => []
  | x :: l' => x :: cumsum_from x l'
  end.

(** [np.zeros((r, c))] *)
Definition zeros (r c : Z) : result (matrix F) :=
  if (r <? 0) || (c <? 0) then Raise NegativeDimensions
  else Ok (replicate (Z.to_nat r) (replicate (Z.to_nat c) f0)).
End Reductions.

(** [np.fft.fftshift] along one axis of length [n]: the entries from
    [p2 = (n+1)//2] on come first, then the first [p2]. *)
Definition fftshift1 {T : Type} (l : list T) : list T :=
  let p2 := Z.to_nat ((len l + 1) / 2) in
  drop p2 l ++ take p2 l.

Definition fftshift {T : Type} (m : matrix T) : matrix T :=
  fmap (M := list) fftshift1 (fftshift1 m).

(** Broadcasting of a 2-D array to the shape [(h, w)]: an axis of extent 1
    is repeated. *)
Definition broadcast_axis {T : Type} (n : Z) (l : list T) : list T :=
  match l with
  | [x] => replicate (Z.to_nat n) x
  | _ => l
  end.

Definition compatible (a b : Z) : bool := (a =? b) || (a =? 1) || (b =? 1).

Definition bdim (a b : Z) : Z := if a =? 1 then b else a.

Definition broadcast_to {T : Type} (h w : Z) (m : matrix T) : matrix T :=
  fmap (M := list) (broadcast_axis w) (broadcast_axis h m).

(** Element-wise binary operation with NumPy broadcasting. *)
Definition broadcast2 {T U V : Type} (op : T → U → V) (a : matrix T) (b : matrix U)
  : result (matrix V) :=
  let '(ha, wa) := shape a in
  let '(hb, wb) := shape b in
  if compatible ha hb && compatible wa wb then
    let h := bdim ha hb in
    let w := bdim wa wb in
    Ok (zip_with (zip_with op) (broadcast_to h w a) (broadcast_to h w b))
  else Raise BroadcastError.

(** [m[r, c] = v] and [m[r, lo:hi] = v] on a 2-D array. *)
Definition set_item2 {T : Type} (m : matrix T) (r c : Z) (v : T) : result (matrix T) :=
  row ← index m r;
  row' ← set_index row c v;
  set_index m r row'.

Definition fill_item2 {T : Type} (m : matrix T) (r lo hi : Z) (v : T)
  : result (matrix T) :=
  row ← index m r;
  set_index m r (slice_fill lo hi v row).

(** ** The external numerical libraries *)

(** What [lmfit]'s [Model.fit] hands back: the best values of the two centre
    parameters (the only ones the caller reads) and the convergence flag. *)
Record ModelResult {FL : Float64} : Type := {
  best_xc : F;
  best_yc : F;
  success : bool
}.

Class NumPy (FL : Float64) : Type := {
  C : Type;                               (* complex128 *)
  cconj : C → C;
  cmul : C → C → C;
  creal : C → F;
  fft2 : matrix F → result (matrix C);    (* np.fft.fft2 *)
  ifft2 : matrix C → result (matrix C);   (* np.fft.ifft2 *)
  pinv : matrix F → result (matrix F)     (* np.linalg.pinv *)
}.

(** [gaussian2d.fit(data, params)]: the model is the flat 2-D Gaussian on the
    grid [-fit_X..fit_X]², the initial values are [a], [xc = 0], [yc = 0],
    [s = 1], [b]. *)
Class LmFit (FL : Float64) : Type := {
  gaussian2d_fit : ∀ (fit_X : Z) (data : list F) (a b : F), result ModelResult
}.

(** The FFT routines keep the shape of what they are given. *)
Class FFTShape (FL : Float64) (NP : NumPy FL) : Prop := {
  fft2_shape : ∀ H W m s, rect H W m → fft2 m = Ok s → rect H W s;
  ifft2_shape : ∀ H W m s, rect H W m → ifft2 m = Ok s → rect H W s
}.

Section ImageProcess.
Context {FL : Float64} {NP : NumPy FL} {LM : LmFit FL}.

(** *** [xcorr] *)

Definition xcorr (imageA imageB : matrix F) : result (matrix F) :=
  FimageA ← fft2 imageA;
  FimageB ← fft2 imageB;
  let CFimageB := mmap cconj FimageB in
  cross ← broadcast2 cmul FimageA CFimageB;
  lag ← ifft2 cross;
  let norm := fsqrt (of_int (size imageA)) in
  Ok (mmap (λ v, fdiv v norm) (fftshift (mmap creal lag))).

(** *** [get_image_shift] *)

(** "Cut out center roi": the offsets [(Y_, X_)] and the search window
    [XCorr_]. *)
Definition roi_crop (XCorr : matrix F) (Y X : Z) (roi : option Z)
  : Z * Z * matrix F :=
  match roi with
  | Some roi =>
      let Y_ := int_half (Y - roi) in
      let X_ := int_half (X - roi) in
      (Y_, X_, slice2 Y_ (- Y_) X_ (- X_) XCorr)
  | None => (0, 0, XCorr)
  end.

(** "Find the brightest pixel": [(y_max_, x_max_)] in the search window. *)
Definition brightest (XCorr_ : matrix F) : result (Z * Z) :=
  i ← argmax (concat XCorr_);
  unravel_index i (shape XCorr_).

(** "cut out the fit ROI", from the full surface. *)
Definition fit_roi (XCorr : matrix F) (fit_X Y_ X_ y_max_ x_max_ : Z) : matrix F :=
  slice2 (y_max_ - fit_X + Y_) (y_max_ + fit_X + Y_ + 1)
         (x_max_ - fit_X + X_) (x_max_ + fit_X + X_ + 1) XCorr.

(** "Get maximum coordinates and add offsets", then the shift relative to
    the centre of the image. *)
Definition shift_of (c : F) (off max_ n : Z) : F :=
  let c := fadd c (of_int (off + max_)) in
  let c := fsub c (fdiv (of_int n) (of_int 2)) in
  fopp c.

(** The fit of the 2-D Gaussian on the fit ROI around the pixel
    [(y_max_, x_max_)] of the search window, and the shift it gives. *)
Definition subpixel_shift (XCorr : matrix F) (fit_X Y_ X_ y_max_ x_max_ Y X : Z)
  : result (F * F) :=
  let FitROI := fit_roi XCorr fit_X Y_ X_ y_max_ x_max_ in
  a ← amax (concat FitROI);
  b ← amin (concat FitROI);
  results ← gaussian2d_fit fit_X (concat FitROI) a b;
  let xc := best_xc results in
  let yc := best_yc results in
  Ok (shift_of yc Y_ y_max_ Y, shift_of xc X_ x_max_ X).

(** [display] defaults to [False] and [rcc] never passes it; the branch only
    draws the images and the surface and changes no value, so it is left
    out.  [box] and [roi] are integers: [rcc] passes [5] and [max_shift]. *)
Definition get_image_shift (imageA imageB : matrix F) (box : Z) (roi : option Z)
  : result (F * F) :=
  XCorr ← xcorr imageA imageB;
  let '(Y, X) := shape imageA in
  let '(Y_, X_, XCorr_) := roi_crop XCorr Y X roi in
  let fit_X := int_half box in
  '(y_max_, x_max_) ← brightest XCorr_;
  subpixel_shift XCorr fit_X Y_ X_ y_max_ x_max_ Y X.

(** *** [rcc] *)

(** [np.dot] of two 2-D arrays. *)
Definition dot1 (row col : list F) : F :=
  fold_left fadd (zip_with fmul row col) f0.

Definition column (c : nat) (m : matrix F) : result (list F) :=
  mapM_res (λ row, index row (Z.of_nat c)) m.

Definition dot (a b : matrix F) : result (matrix F) :=
  if (shape a).2 =? (shape b).1 then
    cols ← mapM_res (λ c, column c b) (seq 0 (Z.to_nat (shape b).2));
    Ok (fmap (M := list) (λ row, fmap (M := list) (dot1 row) cols) a)
  else Raise DotShapeError.

(** The body of the inner loop for the pair [(i, j)]; the state is
    [(rij, A, flag)].  The progress bar and the optional [callback] only
    report [flag] and are left out. *)
Definition rcc_pair (segments : list (matrix F)) (max_shift : option Z) (i : Z)
    (st : matrix F * matrix F * Z) (j : Z) : result (matrix F * matrix F * Z) :=
  let '(rij, A, flag) := st in
  si ← index segments i;
  sj ← index segments j;
  '(dyij, dxij) ← get_image_shift si sj 5 max_shift;
  rij ← set_item2 rij flag 0 dyij;
  rij ← set_item2 rij flag 1 dxij;
  A ← fill_item2 A flag i j f1;
  Ok (rij, A, flag + 1).

Definition rcc_loops (segments : list (matrix F)) (max_shift : option Z)
    (n_segments : Z) (st : matrix F * matrix F * Z)
  : result (matrix F * matrix F * Z) :=
  foldM (λ st i, foldM (rcc_pair segments max_shift i) (range (i + 1) n_segments) st)
        (range 0 (n_segments - 1)) st.

(** Everything up to the solve: the design matrix [A] and the right-hand
    side [rij]. *)
Definition rcc_system (segments : list (matrix F)) (max_shift : option Z)
  : result (matrix F * matrix F * Z) :=
  let n_segments := len segments in
  let n_pairs := int_half (n_segments * (n_segments - 1)) in
  rij ← zeros n_pairs 2;
  A ← zeros n_pairs (n_segments - 1);
  rcc_loops segments max_shift n_segments (rij, A, 0).

Definition rcc_solve (A rij : matrix F) : result (list F * list F) :=
  P ← pinv A;
  Dj ← dot P rij;
  Dy ← column 0 Dj;
  let shift_y := f0 :: cumsum Dy in
  Dx ← column 1 Dj;
  let shift_x := f0 :: cumsum Dx in
  Ok (shift_y, shift_x).

Definition rcc (segments : list (matrix F)) (max_shift : option Z)
  : result (list F * list F) :=
  '(rij, A, _) ← rcc_system segments max_shift;
  rcc_solve A rij.
End ImageProcess.

(** ** A stand-in for the libraries

    Exact rationals in the place of doubles, and simple total functions in
    the place of the numerical routines, so that the definitions above can
    be run on concrete inputs.  The transform is the identity (so the
    "correlation" of an image with the all-ones image is the image itself,
    shifted), the fit returns its start values [xc = yc = 0] and reports
    that it did not converge, and the pseudo-inverse is the transpose
    (which it is for a matrix with orthonormal columns). *)

Module Standin.
#[export] Instance QFloat : Float64 := {|
  F := Q;
  f0 := 0%Q;
  f1 := 1%Q;
  fadd := Qplus;
  fsub := Qminus;
  fmul := Qmult;
  fdiv := Qdiv;
  fopp := Qopp;
  fsqrt := λ _, 1%Q;
  fle := Qle_bool;
  of_int := inject_Z
|}.

Definition transpose (m : matrix Q) : matrix Q :=
  (λ c, (λ row, nth c row 0%Q) <$> m) <$> seq 0 (Z.to_nat (shape m).2).

#[export] Instance QNumPy : NumPy QFloat := {|
  C := Q;
  cconj := λ z, z;
  cmul := Qmult;
  creal := λ z, z;
  fft2 := Ok;
  ifft2 := Ok;
  pinv := λ m, Ok (transpose m)
|}.

Definition start_values : @ModelResult QFloat :=
  {| best_xc := 0%Q; best_yc := 0%Q; success := false |}.

#[export] Instance QLmFit : LmFit QFloat := {|
  gaussian2d_fit := λ _ _ _ _, Ok start_values
|}.

(** An [h]x[w] image of ones, and one with a single bright pixel. *)
Definition ones (h w : nat) : matrix (@F QFloat) := replicate h (replicate w 1%Q).

Definition spot (h w y x : nat) : matrix (@F QFloat) :=
  (λ r, (λ c, if (r =? y)%nat && (c =? x)%nat then 9%Q else 1%Q) <$> seq 0 w)
    <$> seq 0 h.

(** Three 8x8 segments with the same bright pixel: every pair correlates to
    a surface with its peak in the centre. *)
Definition three_segments : list (matrix (@F QFloat)) :=
  [spot 8 8 0 0; spot 8 8 0 0; spot 8 8 0 0].

(** The surface of an image with one bright pixel against the all-ones
    image: the bright pixel moved by half the extent. *)
Definition surface_center : matrix (@F QFloat) := spot 8 8 4 4.
Definition surface_corner : matrix (@F QFloat) := spot 8 8 0 0.
Definition surface_bottom : matrix (@F QFloat) := spot 8 8 7 4.

#[export] Instance QFloatOrder : FloatOrder QFloat.
Proof.
  split.
  - intros x. apply Qle_bool_iff, Qle_refl.
  - intros x y z Hxy Hyz. apply Qle_bool_iff.
    apply Qle_bool_iff in Hxy, Hyz. by eapply Qle_trans.
  - intros x y. destruct (Qlt_le_dec x y) as [Hlt|Hle].
    + left. apply Qle_bool_iff, Qlt_le_weak, Hlt.
    + right. by apply Qle_bool_iff.
Qed.

#[export] Instance QFFTShape : FFTShape QFloat QNumPy.
Proof. split; intros H W m s HR [= <-]; exact HR. Qed.
End Standin.

(** ** Definitions on the side of the specification

    The enumeration of the pairs, the rows of the design matrix, the
    trajectory as the specification words it, and the predicates in which the
    properties below are stated. *)

Section SpecSide.
Context {FL : Float64} {NP : NumPy FL} {LM : LmFit FL}.

(** The invariant of the argmax loop over the prefix [pre] read so far. *)
Definition argmax_inv (pre : list F) (acc : Z * F * Z) : Prop :=
  let '(mi, mp, i) := acc in
  i = len pre ∧ 0 ≤ mi < len pre
  ∧ pre !! Z.to_nat mi = Some mp
  ∧ (∀ j x, pre !! j = Some x → fle x mp = true)
  ∧ (∀ j x, (j < Z.to_nat mi)%nat → pre !! j = Some x → fle mp x = false).

(** [win] is the part of [XCorr] that leaves out [Y0] rows at the top and
    at the bottom and [X0] columns on the left and on the right. *)
Definition centered_window (XCorr win : matrix F) (H W Y0 X0 : Z) : Prop :=
  rect (H - 2 * Y0) (W - 2 * X0) win
  ∧ ∀ r c, 0 ≤ r < H - 2 * Y0 → 0 ≤ c < W - 2 * X0 →
           pixel win r c = pixel XCorr (Y0 + r) (X0 + c).

(** [(y, x)] is the brightest pixel of [XCorr] among the rows
    [Y0 .. H-Y0-1] and the columns [X0 .. W-X0-1], the first one in
    row-major order. *)
Definition peak_of_window (XCorr : matrix F) (H W Y0 X0 y x : Z) : Prop :=
  (Y0 ≤ y < H - Y0 ∧ X0 ≤ x < W - X0)
  ∧ ∃ v, pixel XCorr y x = Some v
    ∧ (∀ r c u, Y0 ≤ r < H - Y0 → X0 ≤ c < W - X0 →
         pixel XCorr r c = Some u → fle u v = true)
    ∧ (∀ r c u, Y0 ≤ r < H - Y0 → X0 ≤ c < W - X0 →
         r < y ∨ (r = y ∧ c < x) →
         pixel XCorr r c = Some u → fle v u = false).

(** Every step of [get_image_shift] up to and including the fit went
    through: the surface, the offsets and search window, the brightest
    pixel, the start values and the fit result. *)
Definition shift_run (imageA imageB : matrix F) (box : Z) (roi : option Z)
    (XCorr : matrix F) (Y_ X_ y_max_ x_max_ : Z) (results : ModelResult) : Prop :=
  ∃ XCorr_ a b,
    xcorr imageA imageB = Ok XCorr
    ∧ roi_crop XCorr (shape imageA).1 (shape imageA).2 roi = (Y_, X_, XCorr_)
    ∧ brightest XCorr_ = Ok (y_max_, x_max_)
    ∧ amax (concat (fit_roi XCorr (int_half box) Y_ X_ y_max_ x_max_)) = Ok a
    ∧ amin (concat (fit_roi XCorr (int_half box) Y_ X_ y_max_ x_max_)) = Ok b
    ∧ gaussian2d_fit (int_half box)
        (concat (fit_roi XCorr (int_half box) Y_ X_ y_max_ x_max_)) a b
      = Ok results.

(** The pairs [(i, j)], [0 <= i < j < n], in the order of the two nested
    [for] loops. *)
Definition pairs_from (a n : Z) : list (Z * Z) :=
  i ← range a (n - 1); (λ j, (i, j)) <$> range (i + 1) n.

Definition pairs (n : Z) : list (Z * Z) := pairs_from 0 n.

(** Lexicographic order on pairs. *)
Definition lex_lt (p q : Z * Z) : Prop :=
  p.1 < q.1 ∨ (p.1 = q.1 ∧ p.2 < q.2).

(** The row of the design matrix for the pair [(i, j)], with integer
    entries: 1 in the columns [i .. j-1], 0 elsewhere. *)
Definition design_row (n i j : Z) : list Z :=
  (λ c, if (i <=? c) && (c <? j) then 1 else 0) <$> range 0 (n - 1).

Definition sumZ (l : list Z) : Z := foldr Z.add 0 l.

(** The entry of the design matrix for an integer 0 or 1. *)
Definition of_bit (b : Z) : F := if b =? 0 then f0 else f1.

(** The shift measured for the pair [p = (i, j)]. *)
Definition pair_shift (segments : list (matrix F)) (max_shift : option Z)
    (p : Z * Z) : result (F * F) :=
  si ← index segments p.1;
  sj ← index segments p.2;
  get_image_shift si sj 5 max_shift.

Definition rhs_row (s : F * F) : list F := [s.1; s.2].

(** The design matrix and right-hand side for a list of pairs and their
    shifts. *)
Definition design_matrix (n : Z) (ps : list (Z * Z)) : matrix F :=
  (λ p, of_bit <$> design_row n p.1 p.2) <$> ps.

Definition rhs_matrix (shifts : list (F * F)) : matrix F := rhs_row <$> shifts.

Definition pair_ok (n : Z) (p : Z * Z) : Prop := 0 ≤ p.1 ∧ p.1 ≤ p.2 ∧ p.2 ≤ n - 1.

(** The trajectory as the specification gives it: [t[0] = 0] and
    [t[k] = t[k-1] + D[k-1]]. *)
Fixpoint trajectory_from (t : F) (D : list F) : list F :=
  t :: match D with
       | [] => []
       | d :: D' => trajectory_from (fadd t d) D'
       end.

Definition trajectory_spec (D : list F) : list F := trajectory_from f0 D.

(** The sum of a list from left to right. *)
Definition lsum (l : list F) : F :=
  match l with
  | [] => f0
  | x :: r => fold_left fadd r x
  end.

(** The product of a row of the design matrix and a vector of increments. *)
Definition dotZ (row x : list Z) : Z := sumZ (zip_with Z.mul row x).
End SpecSide.

(** * picasso/io: the grouping of movie files

    A shallow embedding of [get_movie_groups] of [src/picasso/io.py].
    Python strings are lists of characters; [re.match] is the library's and
    enters as the interface [Re].  The [while] loop need not end, so it is
    run with fuel: [None] says that the fuel ran out. *)

From Stdlib Require Ascii String.
Import Ascii.AsciiSyntax String.StringSyntax.
Delimit Scope string_scope with string.
Delimit Scope char_scope with char.

Abbreviation ascii := Ascii.ascii (only parsing).

#[global] Instance ascii_eq_dec : EqDecision Ascii.ascii := Ascii.ascii_dec.
Abbreviation str := (list Ascii.ascii) (only parsing).

(** A string literal. *)
Definition lit (s : String.string) : str := String.list_ascii_of_string s.

Inductive io_exn : Type :=
  | RemoveValueError        (* ValueError: list.remove(x): x not in list *)
  | PathIndexError          (* IndexError: list index out of range *)
  | FileNotFound            (* FileNotFoundError: no such file *)
  | KeyError (key : str)    (* KeyError: the dictionary has no such key *)
  | TypeError               (* TypeError: the value has no such operation *)
  | AttributeError          (* AttributeError: the value has no such method *)
  | ValueError              (* ValueError: of an unpacking or of int *)
  | FileFormatNotSupported  (* the exception of picasso.io *)
  | ReaderError (code : Z)  (* anything raised inside a library *).

Inductive outcome (T : Type) : Type :=
  | Done (v : T)
  | Fail (e : io_exn).
Arguments Done {T} v.
Arguments Fail {T} e.

#[global] Instance outcome_bind : MBind outcome := λ T U k m,
  match m with
  | Done v => k v
  | Fail e => Fail e
  end.

(** [re.match(pattern, s)]: the matched text ([.group()]) of a match at the
    start of [s], or nothing. *)
Class Re : Type := {
  re_match : str → str → option str
}.

(** [s.endswith(suffix)] *)
Definition endswith (s suffix : str) : bool :=
  (length suffix <=? length s)%nat
  && bool_decide (drop (length s - length suffix) s = suffix).

(** [l.remove(x)]: the first occurrence goes; an absent [x] raises. *)
Fixpoint list_remove (x : str) (l : list str) : outcome (list str) :=
  match l with
  | [] => Fail RemoveValueError
  | y :: l' =>
      if decide (x = y) then Done l'
      else l'' ← list_remove x l'; Done (y :: l'')
  end.

(** [for path_done in group: paths.remove(path_done)] *)
Fixpoint remove_all (group paths : list str) : outcome (list str) :=
  match group with
  | [] => Done paths
  | path_done :: group' =>
      paths' ← list_remove path_done paths; remove_all group' paths'
  end.

Section MovieGroups.
Context {RE : Re}.

Definition ome_tif : str := lit ".ome.tif"%string.

(** The group of [path] among [paths]: [path] itself and the matched text
    of every path that the pattern matches. *)
Definition movie_group (path : str) (paths : list str) : list str :=
  let path_base := slice 0 (-8) path in
  let pattern := path_base ++ lit "_([0-9]).ome.tif"%string in
  let matches := re_match pattern <$> paths in
  path :: omap id matches.

(** One pass through the body of the [while] loop, on [len(paths) > 0]. *)
Definition movie_groups_step (paths : list str) (groups : list (list str))
  : outcome (list str * list (list str)) :=
  match paths with
  | [] => Done (paths, groups)
  | path :: _ =>
      if endswith path ome_tif then
        let group := movie_group path paths in
        let groups := groups ++ [group] in
        paths ← remove_all group paths;
        Done (paths, groups)
      else Done (paths, groups)
  end.

Fixpoint movie_groups_loop (fuel : nat) (paths : list str) (groups : list (list str))
  : option (outcome (list (list str))) :=
  match paths with
  | [] => Some (Done groups)
  | _ :: _ =>
      match fuel with
      | O => None
      | S fuel' =>
          match movie_groups_step paths groups with
          | Done (paths', groups') => movie_groups_loop fuel' paths' groups'
          | Fail e => Some (Fail e)
          end
      end
  end.

Definition get_movie_groups (fuel : nat) (paths : list str)
  : option (outcome (list (list str))) :=
  movie_groups_loop fuel paths [].
End MovieGroups.

(** A stand-in for [re.match] on the patterns of [get_movie_groups] whose
    base has no special character: the base, [_], a digit, any character but
    a newline, [ome], any character but a newline, [tif]. *)
Module ReStandin.
Definition is_digit (c : ascii) : bool :=
  (48 <=? Ascii.nat_of_ascii c)%nat && (Ascii.nat_of_ascii c <=? 57)%nat.

Definition not_newline (c : ascii) : bool := negb (Ascii.nat_of_ascii c =? 10)%nat.

Definition tail_match (t : str) : bool :=
  match t with
  | u :: d :: c1 :: o :: m :: e :: c2 :: t' :: i :: f :: _ =>
      bool_decide (u = "_"%char) && is_digit d && not_newline c1
      && bool_decide ([o; m; e] = lit "ome"%string) && not_newline c2
      && bool_decide ([t'; i; f] = lit "tif"%string)
  | _ => false
  end.

Definition literal_match (pattern s : str) : option str :=
  let base := take (length pattern - 16) pattern in
  if bool_decide (take (length base) s = base) && tail_match (drop (length base) s)
  then Some (take (length base + 10) s)
  else None.

#[export] Instance LiteralRe : Re := {| re_match := literal_match |}.
End ReStandin.

(** * picasso/io: files, metadata and movies

    The rest of [src/picasso/io.py], over a file system that maps a path to
    the content of the file (directories and permissions are left out: a
    write always succeeds, and it reaches the file at once).  What h5py,
    yaml, numpy, tifffile and glob do is the libraries' and enters through
    the interfaces [Codecs], [NumPyIO], [TiffLib] and [Glob]; the string
    methods of Python that depend on Unicode tables through [PyStr].
    [os.path.splitext] is written out (CPython's [genericpath._splitext]),
    with the separators of the platform in the interface [OsPath].  A
    function that writes returns the file system as it has left it, also
    when it raises.  Output with [print] is left out. *)

(** ** Python values and dictionaries *)

(** The values of the metadata: what YAML and the JSON of Micro-Manager
    hold.  A dictionary keeps its keys, all strings here, in the order of
    their insertion. *)
#[warnings="-register-all"]
Inductive pyval : Type :=
  | PNone
  | PBool (b : bool)
  | PInt (n : Z)
  | PStr (s : str)
  | PList (l : list pyval)
  | PDict (d : list (str * pyval)).

Abbreviation dict := (list (str * pyval)) (only parsing).

(** [d[key]] *)
Fixpoint getitem (d : dict) (key : str) : outcome pyval :=
  match d with
  | [] => Fail (KeyError key)
  | (k, v) :: d' => if decide (k = key) then Done v else getitem d' key
  end.

(** [d[key] = value]: in place for a key of [d], at the end for a new key. *)
Fixpoint setitem (d : dict) (key : str) (value : pyval) : dict :=
  match d with
  | [] => [(key, value)]
  | (k, v) :: d' =>
      if decide (k = key) then (k, value) :: d'
      else (k, v) :: setitem d' key value
  end.

(** [d.pop(key)] *)
Fixpoint pop (d : dict) (key : str) : outcome (pyval * dict) :=
  match d with
  | [] => Fail (KeyError key)
  | (k, v) :: d' =>
      if decide (k = key) then Done (v, d')
      else r ← pop d' key; Done (r.1, (k, v) :: r.2)
  end.

(** [v[key]] for a string [key]: only a dictionary has it. *)
Definition subscript (v : pyval) (key : str) : outcome pyval :=
  match v with
  | PDict d => getitem d key
  | _ => Fail TypeError
  end.

(** [v == s] for a string [s] *)
Definition py_eq_str (v : pyval) (s : str) : bool :=
  match v with
  | PStr t => bool_decide (t = s)
  | _ => false
  end.

(** [s.split(c)] for a character [c] *)
Fixpoint split_on (c : ascii) (s : str) : list str :=
  match s with
  | [] => [[]]
  | x :: s' =>
      if decide (x = c) then [] :: split_on c s'
      else match split_on c s' with
           | [] => [[x]]
           | w :: ws => (x :: w) :: ws
           end
  end.

(** [s.replace(a, b)] for characters [a] and [b] *)
Definition replace_char (a b : ascii) (s : str) : str :=
  (λ x, if decide (x = a) then b else x) <$> s.

(** The string methods that follow Unicode, and [int] of a string. *)
Class PyStr : Type := {
  lower : str → str;
  strip : str → str;
  split_whitespace : str → list str;      (* s.split() *)
  int_of_str : str → option Z             (* int(s); nothing on a ValueError *)
}.

(** ** Paths *)

(** [s.rfind(c)] for a character [c]: its last index, or [-1]. *)
Definition rfind (c : ascii) (s : str) : Z :=
  (fold_left (λ acc x, (if decide (x = c) then acc.2 else acc.1, acc.2 + 1))
     s (-1, 0)).1.

(** The loop of [_splitext] that skips the leading dots of the file name:
    the first index that holds another character splits the path. *)
Fixpoint skip_leading_dots (p : str) (extsep : ascii) (dotIndex : Z)
    (filenameIndexes : list Z) : option (str * str) :=
  match filenameIndexes with
  | [] => None
  | filenameIndex :: rest =>
      if decide (slice filenameIndex (filenameIndex + 1) p = [extsep])
      then skip_leading_dots p extsep dotIndex rest
      else Some (slice 0 dotIndex p, slice dotIndex (len p) p)
  end.

Definition splitext_generic (p : str) (sep : ascii) (altsep : option ascii)
    (extsep : ascii) : str * str :=
  let sepIndex := rfind sep p in
  let sepIndex :=
    match altsep with
    | Some a => Z.max sepIndex (rfind a p)
    | None => sepIndex
    end in
  let dotIndex := rfind extsep p in
  if sepIndex <? dotIndex then
    match skip_leading_dots p extsep dotIndex (range (sepIndex + 1) dotIndex) with
    | Some r => r
    | None => (p, [])
    end
  else (p, []).

(** The path separators, [/] and none on POSIX, a backslash and [/] on
    Windows, and [os.path.basename]. *)
Class OsPath : Type := {
  sep : ascii;
  altsep : option ascii;
  basename : str → str
}.

(** ** Files *)

Class Files : Type := {
  bytes : Type;                           (* the content of a file *)
  no_bytes : bytes;                       (* of a file just created *)
  bytes_app : bytes → bytes → bytes       (* after one more write *)
}.

Class Codecs {FI : Files} : Type := {
  locs_t : Type;                          (* the array of localizations *)
  h5_write : locs_t → bytes;              (* the file with the dataset 'locs' *)
  h5_read : bytes → outcome locs_t;       (* its dataset 'locs', as a record array *)
  yaml_dump_all : list pyval → bytes;
  yaml_load_all : bytes → outcome (list pyval);
  yaml_safe_dump : pyval → bytes
}.

Section FileSystem.
Context {FI : Files}.

Definition filesystem : Type := str → option bytes.

(** [open(path, 'w')] and the write: the file is created or replaced. *)
Definition fs_write (path : str) (content : bytes) (fs : filesystem) : filesystem :=
  λ q, if decide (q = path) then Some content else fs q.

(** One more write through the handle of an open file. *)
Definition fs_append (path : str) (content : bytes) (fs : filesystem) : filesystem :=
  fs_write path (bytes_app (default no_bytes (fs path)) content) fs.

(** [open(path, 'r')] and the read. *)
Definition fs_read (path : str) (fs : filesystem) : outcome bytes :=
  match fs path with
  | Some content => Done content
  | None => Fail FileNotFound
  end.
End FileSystem.

Section LocsFiles.
Context {OS : OsPath} {FI : Files} {CO : Codecs}.

Definition splitext (p : str) : str * str :=
  splitext_generic p sep altsep "."%char.

Definition load_info (path : str) (fs : filesystem) : outcome (list pyval) :=
  let '(path_base, path_extension) := splitext path in
  content ← fs_read (path_base ++ lit ".yaml"%string) fs;
  yaml_load_all content.

Definition save_info (path : str) (info : list pyval) (fs : filesystem) : filesystem :=
  fs_write path (yaml_dump_all info) fs.

Definition save_locs (path : str) (locs : locs_t) (info : list pyval)
    (fs : filesystem) : filesystem :=
  let fs := fs_write path (h5_write locs) fs in
  let '(base, ext) := splitext path in
  let info_path := base ++ lit ".yaml"%string in
  save_info info_path info fs.

Definition load_locs (path : str) (fs : filesystem)
  : outcome (locs_t * list pyval) :=
  content ← fs_read path fs;
  locs ← h5_read content;
  info ← load_info path fs;
  Done (locs, info).
End LocsFiles.

(** ** Movies *)

Class NumPyIO {FI : Files} : Type := {
  ndarray : Type;
  dtype : Type;
  ndarray_shape : ndarray → list Z;                       (* a.shape *)
  byteswap : ndarray → ndarray;                           (* a.byteswap() *)
  tofile : ndarray → bytes;                               (* what a.tofile writes *)
  np_dtype : pyval → outcome dtype;                       (* np.dtype(name) *)
  fromfile : bytes → dtype → outcome ndarray;             (* np.fromfile *)
  reshape : ndarray → pyval * pyval * pyval → outcome ndarray;
  memmap : bytes → dtype → pyval * pyval * pyval → outcome ndarray
}.

(** An open [tifffile.TiffFile] and what [load_tif] reads of it. *)
Class TiffLib {FI : Files} {NIO : NumPyIO} : Type := {
  TiffFile : Type;
  tiff_open : str → filesystem → outcome TiffFile;
  asarray : TiffFile → outcome ndarray;                   (* tif.asarray(memmap=True) *)
  byteorder : TiffFile → str;
  page0_dtype_name : TiffFile → outcome str;              (* np.dtype(tif.pages[0].dtype).name *)
  filename : TiffFile → str;
  tif_micromanager_metadata : TiffFile → outcome pyval;   (* tif.micromanager_metadata *)
  page0_micromanager_metadata : TiffFile → outcome pyval
    (* tif.pages[0].tags['micromanager_metadata'].value *)
}.

Class Glob {FI : Files} : Type := {
  glob : str → filesystem → list str
}.

(** The body of a [try] whose handler lets no exception out: a statement
    leaves the dictionary as it has made it and, unless it raised, a
    value. *)
Definition attempt (T : Type) : Type := dict → dict * option T.

#[global] Instance attempt_bind : MBind attempt := λ T U k m info,
  match m info with
  | (info', Some v) => k v info'
  | (info', None) => (info', None)
  end.

#[global] Instance attempt_ret : MRet attempt := λ T v info, (info, Some v).

(** An expression that may raise. *)
Definition try_expr {T : Type} (value : outcome T) : attempt T := λ info,
  (info, match value with Done v => Some v | Fail _ => None end).

(** An expression that reads [info]. *)
Definition try_read {T : Type} (value : dict → outcome T) : attempt T := λ info,
  (info, match value info with Done v => Some v | Fail _ => None end).

(** [info[key] = value] *)
Definition try_assign (key : str) (value : pyval) : attempt unit := λ info,
  (setitem info key value, Some tt).

(** [info[outer][key] = value] *)
Definition try_assign_in (outer key : str) (value : pyval) : attempt unit := λ info,
  match getitem info outer with
  | Done (PDict d) => (setitem info outer (PDict (setitem d key value)), Some tt)
  | _ => (info, None)
  end.

Section Movies.
Context {OS : OsPath} {PS : PyStr} {FI : Files} {CO : Codecs} {NIO : NumPyIO}
  {TL : TiffLib} {GL : Glob} {RE : Re}.

(** *** [to_little_endian] *)
Definition to_little_endian (movie : ndarray) (info : dict) : ndarray * dict :=
  let movie := byteswap movie in
  let info := setitem info (lit "Byte Order"%string) (PStr (lit "<"%string)) in
  (movie, info).

(** *** [load_raw] *)
Definition load_raw (path : str) (memory_map : bool) (fs : filesystem)
  : outcome (ndarray * pyval) :=
  info ← load_info path fs;
  info ← match info with
         | info0 :: _ => Done info0
         | [] => Fail PathIndexError
         end;
  name ← subscript info (lit "Data Type"%string);
  dtype ← np_dtype name;
  frames ← subscript info (lit "Frames"%string);
  height ← subscript info (lit "Height"%string);
  width ← subscript info (lit "Width"%string);
  let shape := (frames, height, width) in
  movie ← (if memory_map then
             content ← fs_read path fs;
             memmap content dtype shape
           else
             content ← fs_read path fs;
             movie ← fromfile content dtype;
             reshape movie shape);
  order ← subscript info (lit "Byte Order"%string);
  if negb (py_eq_str order (lit "<"%string)) then
    match info with
    | PDict d => let '(movie, d) := to_little_endian movie d in Done (movie, PDict d)
    | _ => Fail TypeError
    end
  else Done (movie, info).

(** *** [load_tif] *)

(** [int(v)] *)
Definition py_int (v : pyval) : outcome Z :=
  match v with
  | PInt n => Done n
  | PBool b => Done (if b then 1 else 0)
  | PStr s =>
      match int_of_str s with
      | Some n => Done n
      | None => Fail ValueError
      end
  | _ => Fail TypeError
  end.

(** [v.split('|')], stripped field by field *)
Definition stripped_fields (v : pyval) : outcome (list str) :=
  match v with
  | PStr s => Done (strip <$> split_on "|"%char s)
  | _ => Fail AttributeError
  end.

(** [v.split()[1]] *)
Definition second_word (v : pyval) : outcome pyval :=
  match v with
  | PStr s =>
      match split_whitespace s !! 1%nat with
      | Some w => Done (PStr w)
      | None => Fail PathIndexError
      end
  | _ => Fail AttributeError
  end.

(** [v[-3:]] *)
Definition last_three (v : pyval) : outcome pyval :=
  match v with
  | PStr s => Done (PStr (slice (-3) (len s) s))
  | PList l => Done (PList (slice (-3) (len l) l))
  | _ => Fail TypeError
  end.

(** The lines of the Andor camera, on [info['Camera']['Manufacturer'] == 'Andor']. *)
Definition andor_metadata (micromanager_metadata : pyval) : attempt unit :=
  fields ← try_expr (entry ← subscript micromanager_metadata (lit "Andor-Camera"%string);
                     stripped_fields entry);
  match fields with
  | [_; type; model; serial_number; _] =>
      try_assign_in (lit "Camera"%string) (lit "Type"%string) (PStr type);;
      try_assign_in (lit "Camera"%string) (lit "Model"%string) (PStr model);;
      serial ← try_expr (py_int (PStr serial_number));
      try_assign_in (lit "Camera"%string) (lit "Serial Number"%string) (PInt serial);;
      try_assign (lit "Output Amplifier"%string) (PStr (lit "Electron Multiplying"%string));;
      switch ← try_expr (subscript micromanager_metadata (lit "Andor-EMSwitch"%string));
      (if py_eq_str switch (lit "Off"%string)
       then try_assign (lit "Output Amplifier"%string) (PStr (lit "Conventional"%string))
       else mret tt);;
      gain ← try_expr (v ← subscript micromanager_metadata (lit "Andor-Gain"%string);
                       py_int v);
      try_assign (lit "EM RealGain"%string) (PInt gain);;
      preamp ← try_expr (v ← subscript micromanager_metadata
                                (lit "Andor-Pre-Amp-Gain"%string);
                         w ← second_word v;
                         py_int w);
      try_assign (lit "Pre-Amp Gain"%string) (PInt preamp);;
      mode ← try_expr (subscript micromanager_metadata (lit "Andor-ReadoutMode"%string));
      try_assign (lit "Readout Mode"%string) mode
  | _ => try_expr (Fail ValueError)
  end.

(** The body of the [try] of [load_tif]. *)
Definition micromanager_info (tif : TiffFile) : attempt unit :=
  comments ← try_expr (m ← tif_micromanager_metadata tif;
                       c ← subscript m (lit "comments"%string);
                       subscript c (lit "Summary"%string));
  try_assign (lit "Comments"%string) comments;;
  computer ← try_expr (m ← tif_micromanager_metadata tif;
                       s ← subscript m (lit "summary"%string);
                       subscript s (lit "ComputerName"%string));
  try_assign (lit "Computer"%string) computer;;
  directory ← try_expr (m ← tif_micromanager_metadata tif;
                        s ← subscript m (lit "summary"%string);
                        subscript s (lit "Directory"%string));
  try_assign (lit "Directory"%string) directory;;
  micromanager_metadata ← try_expr (page0_micromanager_metadata tif);
  camera ← try_expr (subscript micromanager_metadata (lit "Camera"%string));
  try_assign (lit "Camera"%string) (PDict [(lit "Manufacturer"%string, camera)]);;
  manufacturer ← try_read (λ info, c ← getitem info (lit "Camera"%string);
                                   subscript c (lit "Manufacturer"%string));
  (if py_eq_str manufacturer (lit "Andor"%string)
   then andor_metadata micromanager_metadata
   else mret tt);;
  wavelength ← try_expr (label ← subscript micromanager_metadata
                                   (lit "TIFilterBlock1-Label"%string);
                         digits ← last_three label;
                         py_int digits);
  try_assign (lit "Excitation Wavelength"%string) (PInt wavelength).

Definition load_tif (path : str) (fs : filesystem) : outcome (ndarray * dict) :=
  tif ← tiff_open path fs;
  movie ← asarray tif;
  let info : dict := [] in
  let info := setitem info (lit "Byte Order"%string) (PStr (byteorder tif)) in
  name ← page0_dtype_name tif;
  let info := setitem info (lit "Data Type"%string) (PStr name) in
  let info := setitem info (lit "File"%string) (PStr (filename tif)) in
  match ndarray_shape movie with
  | [frames; height; width] =>
      let info := setitem info (lit "Frames"%string) (PInt frames) in
      let info := setitem info (lit "Height"%string) (PInt height) in
      let info := setitem info (lit "Width"%string) (PInt width) in
      Done (movie, (micromanager_info tif info).1)
  | _ => Fail ValueError
  end.

(** *** [_to_raw_single] and [to_raw_combined] *)

(** The last five lines of both functions: the entries of the raw file and
    the write of the [.yaml] file. *)
Definition save_raw_info (path_base raw_file_name : str) (info : dict)
    (fs : filesystem) : filesystem * outcome unit :=
  let info := setitem info (lit "Generated by"%string)
                (PStr (lit "Picasso ToRaw"%string)) in
  match pop info (lit "File"%string) with
  | Fail e => (fs, Fail e)
  | Done (original, info) =>
      let info := setitem info (lit "Original File"%string) original in
      let info := setitem info (lit "File"%string) (PStr (basename raw_file_name)) in
      (fs_write (path_base ++ lit ".yaml"%string) (yaml_safe_dump (PDict info)) fs,
       Done tt)
  end.

Definition _to_raw_single (path : str) (fs : filesystem) : filesystem * outcome unit :=
  let '(path_base, path_extension) := splitext path in
  let path_extension := lower path_extension in
  if bool_decide (path_extension ∈ [lit ".tif"%string; lit ".tiff"%string]) then
    match load_tif path fs with
    | Fail e => (fs, Fail e)
    | Done (movie, info) =>
        let raw_file_name := path_base ++ lit ".raw"%string in
        match getitem info (lit "Byte Order"%string) with
        | Fail e => (fs, Fail e)
        | Done order =>
            let '(movie, info) :=
              if negb (py_eq_str order (lit "<"%string))
              then to_little_endian movie info
              else (movie, info) in
            let fs := fs_append raw_file_name (tofile movie)
                        (fs_write raw_file_name no_bytes fs) in
            save_raw_info path_base raw_file_name info fs
        end
    end
  else (fs, Fail FileFormatNotSupported).

(** The loop [for path in paths[1:]] of [to_raw_combined]: each pass loads
    [paths[0]]. *)
Fixpoint to_raw_combined_loop (path0 raw_file_name : str) (rest : list str)
    (info : dict) (fs : filesystem) : filesystem * outcome dict :=
  match rest with
  | [] => (fs, Done info)
  | path :: rest' =>
      match load_tif path0 fs with
      | Fail e => (fs, Fail e)
      | Done (movie, info_single) =>
          match getitem info_single (lit "Byte Order"%string) with
          | Fail e => (fs, Fail e)
          | Done order =>
              let '(movie, info) :=
                if py_eq_str order (lit ">"%string)
                then to_little_endian movie info
                else (movie, info) in
              to_raw_combined_loop path0 raw_file_name rest' info
                (fs_append raw_file_name (tofile movie) fs)
          end
      end
  end.

Definition to_raw_combined (paths : list str) (fs : filesystem)
  : filesystem * outcome unit :=
  match paths with
  | [] => (fs, Fail PathIndexError)
  | path0 :: rest =>
      let '(path_base, path_extension) := splitext path0 in
      let path_extension := lower path_extension in
      let raw_file_name := path_base ++ lit ".raw"%string in
      let fs := fs_write raw_file_name no_bytes fs in
      match load_tif path0 fs with
      | Fail e => (fs, Fail e)
      | Done (movie, info) =>
          match getitem info (lit "Byte Order"%string) with
          | Fail e => (fs, Fail e)
          | Done order =>
              let '(movie, info) :=
                if py_eq_str order (lit ">"%string)
                then to_little_endian movie info
                else (movie, info) in
              let fs := fs_append raw_file_name (tofile movie) fs in
              match to_raw_combined_loop path0 raw_file_name rest info fs with
              | (fs, Fail e) => (fs, Fail e)
              | (fs, Done info) => save_raw_info path_base raw_file_name info fs
              end
          end
      end
  end.

(** *** [to_raw] *)

(** [for i, group in enumerate(groups): to_raw_combined(group)] *)
Fixpoint to_raw_groups (groups : list (list str)) (fs : filesystem)
  : filesystem * outcome unit :=
  match groups with
  | [] => (fs, Done tt)
  | group :: groups' =>
      match to_raw_combined group fs with
      | (fs, Done _) => to_raw_groups groups' fs
      | (fs, Fail e) => (fs, Fail e)
      end
  end.

(** [None] says that the fuel of [get_movie_groups] ran out. *)
Definition to_raw (fuel : nat) (path : str) (fs : filesystem)
  : option (filesystem * outcome unit) :=
  let paths := glob path fs in
  let paths := replace_char "\"%char "/"%char <$> paths in
  match get_movie_groups fuel paths with
  | None => None
  | Some (Fail e) => Some (fs, Fail e)
  | Some (Done groups) => Some (to_raw_groups groups fs)
  end.
End Movies.

(** ** A stand-in for the libraries of picasso/io

    POSIX paths, ASCII strings, and files that hold Python values: an array
    is written as the list of its 16-bit words, a YAML file as its
    documents behind a tag, a TIFF as its byte order, shape, words and the
    two Micro-Manager dictionaries.  [glob] knows patterns without
    wildcards. *)
Module IoStandin.
Definition posix_basename (p : str) : str := slice (rfind "/"%char p + 1) (len p) p.

#[export] Instance PosixPath : OsPath :=
  {| sep := "/"%char; altsep := None; basename := posix_basename |}.

Definition lower_char (c : ascii) : ascii :=
  let n := Ascii.nat_of_ascii c in
  if (65 <=? n)%nat && (n <=? 90)%nat then Ascii.ascii_of_nat (n + 32) else c.

Definition is_space (c : ascii) : bool :=
  let n := Ascii.nat_of_ascii c in
  ((9 <=? n)%nat && (n <=? 13)%nat) || ((28 <=? n)%nat && (n <=? 32)%nat).

Fixpoint lstrip (s : str) : str :=
  match s with
  | c :: s' => if is_space c then lstrip s' else s
  | [] => []
  end.

Definition ascii_strip (s : str) : str := reverse (lstrip (reverse (lstrip s))).

(** The words of [s], the last of them still open in [word]. *)
Fixpoint words (s word : str) : list str :=
  match s with
  | [] => if decide (word = []) then [] else [reverse word]
  | c :: s' =>
      if is_space c
      then (if decide (word = []) then [] else [reverse word]) ++ words s' []
      else words s' (c :: word)
  end.

(** A number in decimal digits, without a sign. *)
Definition digits_value (s : str) : option Z :=
  if decide (s = []) then None
  else foldl (λ acc c, n ← acc;
                       if ReStandin.is_digit c
                       then Some (10 * n + Z.of_nat (Ascii.nat_of_ascii c) - 48)
                       else None) (Some 0) s.

#[export] Instance AsciiStr : PyStr :=
  {| lower := fmap lower_char; strip := ascii_strip;
     split_whitespace := λ s, words s [];
     int_of_str := λ s, digits_value (ascii_strip s) |}.

#[export] Instance ValueFiles : Files :=
  {| bytes := list pyval; no_bytes := []; bytes_app := app |}.

Definition tagged (tag : str) (content : list pyval) : option (list pyval) :=
  match content with
  | t :: rest => if py_eq_str t tag then Some rest else None
  | [] => None
  end.

#[export] Instance ValueCodecs : Codecs :=
  {| locs_t := pyval;
     h5_write := λ locs, [PStr (lit "HDF5"%string); locs];
     h5_read := λ content,
       match tagged (lit "HDF5"%string) content with
       | Some [locs] => Done locs
       | _ => Fail (ReaderError 1)
       end;
     yaml_dump_all := λ info, PStr (lit "YAML"%string) :: info;
     yaml_load_all := λ content,
       match tagged (lit "YAML"%string) content with
       | Some info => Done info
       | None => Fail (ReaderError 2)
       end;
     yaml_safe_dump := λ info, [PStr (lit "YAML"%string); info] |}.

Record array : Type := { array_shape : list Z; array_words : list Z }.

Definition swap16 (w : Z) : Z := (w mod 256) * 256 + (w / 256) mod 256.

Definition ints (l : list pyval) : option (list Z) :=
  mapM (λ v, match v with PInt n => Some n | _ => None end) l.

Definition shaped (content : list pyval) (shape : pyval * pyval * pyval)
    (exact : bool) : outcome array :=
  match ints content, shape with
  | Some ws, (PInt f, PInt h, PInt w) =>
      if (if exact then f * h * w =? len ws else f * h * w <=? len ws)
      then Done {| array_shape := [f; h; w];
                   array_words := take (Z.to_nat (f * h * w)) ws |}
      else Fail ValueError
  | _, _ => Fail TypeError
  end.

#[export] Instance WordArrays : NumPyIO :=
  {| ndarray := array;
     dtype := unit;
     ndarray_shape := array_shape;
     byteswap := λ a, {| array_shape := array_shape a;
                         array_words := swap16 <$> array_words a |};
     tofile := λ a, PInt <$> array_words a;
     np_dtype := λ name, if py_eq_str name (lit "uint16"%string) then Done tt
                         else Fail TypeError;
     fromfile := λ content _,
       match ints content with
       | Some ws => Done {| array_shape := [len ws]; array_words := ws |}
       | None => Fail (ReaderError 3)
       end;
     reshape := λ a shape, shaped (PInt <$> array_words a) shape true;
     memmap := λ content _ shape, shaped content shape false |}.

Record tiff : Type := {
  tiff_name : str;
  tiff_order : str;
  tiff_array : array;
  tiff_summary : pyval;
  tiff_page : pyval
}.

Definition read_tiff (path : str) (content : list pyval) : outcome tiff :=
  match tagged (lit "TIFF"%string) content with
  | Some [PStr order; PList shape; PList ws; summary; page] =>
      match ints shape, ints ws with
      | Some shape, Some ws =>
          Done {| tiff_name := posix_basename path; tiff_order := order;
                  tiff_array := {| array_shape := shape; array_words := ws |};
                  tiff_summary := summary; tiff_page := page |}
      | _, _ => Fail (ReaderError 4)
      end
  | _ => Fail (ReaderError 4)
  end.

#[export] Instance ValueTiff : TiffLib :=
  {| TiffFile := tiff;
     tiff_open := λ path fs, content ← fs_read path fs; read_tiff path content;
     asarray := λ tif, Done (tiff_array tif);
     byteorder := tiff_order;
     page0_dtype_name := λ _, Done (lit "uint16"%string);
     filename := tiff_name;
     tif_micromanager_metadata := λ tif, Done (tiff_summary tif);
     page0_micromanager_metadata := λ tif, Done (tiff_page tif) |}.

#[export] Instance LiteralGlob : Glob :=
  {| glob := λ path fs, if fs path is Some _ then [path] else [] |}.

(** A big-endian movie of two frames of one row of two pixels, taken with a
    camera that is not an Andor. *)
Definition movie_array : @ndarray ValueFiles WordArrays :=
  {| array_shape := [2; 1; 2]; array_words := [1; 2; 3; 258] |}.

(** The same movie in little-endian order. *)
Definition little_array : @ndarray ValueFiles WordArrays :=
  {| array_shape := [2; 1; 2]; array_words := [256; 512; 768; 513] |}.

Definition movie_summary : pyval :=
  PDict [(lit "comments"%string,
          PDict [(lit "Summary"%string, PStr (lit "test"%string))]);
         (lit "summary"%string,
          PDict [(lit "ComputerName"%string, PStr (lit "lab"%string));
                 (lit "Directory"%string, PStr (lit "/data"%string))])].

Definition movie_page : pyval :=
  PDict [(lit "Camera"%string, PStr (lit "Other"%string));
         (lit "TIFilterBlock1-Label"%string, PStr (lit "2-Cy3 561"%string))].

Definition movie_file : list pyval :=
  [PStr (lit "TIFF"%string); PStr (lit ">"%string);
   PList (PInt <$> array_shape movie_array);
   PList (PInt <$> array_words movie_array);
   movie_summary; movie_page].

Definition movie_tiff : @TiffFile ValueFiles WordArrays ValueTiff :=
  {| tiff_name := lit "m.ome.tif"%string; tiff_order := lit ">"%string;
     tiff_array := movie_array;
     tiff_summary := movie_summary; tiff_page := movie_page |}.

Definition no_file : filesystem := λ _, None.

Definition one_movie : filesystem :=
  fs_write (lit "data/m.ome.tif"%string) movie_file no_file.

Definition one_plain_tif : filesystem :=
  fs_write (lit "data/m.tif"%string) movie_file no_file.

(** The info of the movie, as [load_tif] returns it. *)
Definition movie_info : list (str * pyval) :=
  Eval vm_compute in
    match load_tif (lit "data/m.ome.tif"%string) one_movie with
    | Done (_, info) => info
    | Fail _ => []
    end.

(** A big-endian raw movie of one frame and its info. *)
Definition big_endian_info : pyval :=
  PDict [(lit "Byte Order"%string, PStr (lit ">"%string));
         (lit "Data Type"%string, PStr (lit "uint16"%string));
         (lit "Frames"%string, PInt 1);
         (lit "Height"%string, PInt 1);
         (lit "Width"%string, PInt 2)].

Definition little_endian_info : pyval :=
  PDict [(lit "Byte Order"%string, PStr (lit "<"%string));
         (lit "Data Type"%string, PStr (lit "uint16"%string));
         (lit "Frames"%string, PInt 1);
         (lit "Height"%string, PInt 1);
         (lit "Width"%string, PInt 2)].

Definition big_endian_loaded : @ndarray ValueFiles WordArrays :=
  {| array_shape := [1; 1; 2]; array_words := [256; 513] |}.

(** Localizations. *)
Definition some_locs : @locs_t ValueFiles ValueCodecs := PInt 7.

Definition big_endian_raw : filesystem :=
  fs_write (lit "data/b.raw"%string) [PInt 1; PInt 258]
    (fs_write (lit "data/b.yaml"%string)
       [PStr (lit "YAML"%string); big_endian_info] no_file).
End IoStandin.

(** ** Further definitions on the side of the specification *)

(** The crop [a[k:-k]] of an axis of extent [n] takes no element: [k = 0]
    (the stop [-0] is 0), a margin of at least half the extent, or a
    negative margin of at most half the extent. *)
Definition empty_margin (n k : Z) : bool :=
  (k =? 0) || ((1 <=? k) && (n <=? 2 * k)) || ((k <=? -1) && (-2 * k <=? n)).

(** The steps [t[c+1] - t[c]] of an integer trajectory. *)
Definition increments (t : list Z) : list Z := zip_with Z.sub (drop 1 t) t.

(** The entries that [load_tif] reads from the TIFF itself. *)
Definition base_info {FI : Files} {NIO : NumPyIO} {TL : TiffLib} (tif : TiffFile)
    (name : str) (frames height width : Z) : dict :=
  [(lit "Byte Order"%string, PStr (byteorder tif));
   (lit "Data Type"%string, PStr name);
   (lit "File"%string, PStr (filename tif));
   (lit "Frames"%string, PInt frames);
   (lit "Height"%string, PInt height);
   (lit "Width"%string, PInt width)].

(** The keys that the lines of the Andor camera set in [info]. *)
Definition andor_keys : list str :=
  [lit "Camera"%string; lit "Output Amplifier"%string; lit "EM RealGain"%string;
   lit "Pre-Amp Gain"%string; lit "Readout Mode"%string].

(** The keys that the [try] of [load_tif] sets in [info]. *)
Definition metadata_keys : list str :=
  [lit "Comments"%string; lit "Computer"%string; lit "Directory"%string;
   lit "Excitation Wavelength"%string] ++ andor_keys.

(** The entries of the Micro-Manager metadata that come before the
    excitation wavelength, whatever the camera. *)
Definition first_entries : list str :=
  [lit "Comments"%string; lit "Computer"%string; lit "Directory"%string;
   lit "Camera"%string].

(** * Properties *)

(** ** Sequences and slices *)

Lemma len_nonneg {T : Type} (l : list T) : 0 ≤ len l.
Proof. unfold len. lia. Qed.

Lemma len_nil_inv {T : Type} (l : list T) : len l = 0 → l = [].
Proof. destruct l; [done | unfold len; simpl; lia]. Qed.

Lemma slice_bound_range (k n : Z) : 0 ≤ n → 0 ≤ slice_bound k n ≤ n.
Proof. unfold slice_bound. destruct (k <? 0) eqn:E; lia. Qed.

Lemma slice_bound_nonneg (k n : Z) : 0 ≤ k → k ≤ n → slice_bound k n = k.
Proof. unfold slice_bound. intros. destruct (k <? 0) eqn:E; lia. Qed.

Lemma len_slice {T : Type} (lo hi : Z) (l : list T) :
  len (slice lo hi l)
  = Z.max 0 (slice_bound hi (len l) - slice_bound lo (len l)).
Proof.
  unfold slice, len.
  pose proof (slice_bound_range lo (len l) (len_nonneg l)) as Hlo.
  pose proof (slice_bound_range hi (len l) (len_nonneg l)) as Hhi.
  unfold len in *. rewrite length_take, length_drop. lia.
Qed.

Lemma lookup_slice {T : Type} (lo hi : Z) (l : list T) (k : nat) :
  Z.of_nat k < slice_bound hi (len l) - slice_bound lo (len l) →
  slice lo hi l !! k = l !! (Z.to_nat (slice_bound lo (len l)) + k)%nat.
Proof.
  intros Hk. unfold slice.
  rewrite lookup_take_lt by lia. by rewrite lookup_drop.
Qed.

(** [a[k:-k]] with [k = 0] is [a[0:0]]: the empty slice. *)
Lemma slice_zero_neg_zero {T : Type} (l : list T) : slice 0 (- 0) l = [].
Proof.
  unfold slice. change (- 0) with 0.
  rewrite slice_bound_nonneg by (pose proof (len_nonneg l); lia).
  by rewrite Z.sub_diag.
Qed.

Lemma concat_nil_rows {T : Type} (m : matrix T) :
  Forall (λ r, r = []) m → concat m = [].
Proof. induction 1 as [|r m -> _ IH]; [done | by simpl]. Qed.

(** A window without rows, or whose rows are all empty, has no element. *)
Lemma slice2_rows_empty {T : Type} (ylo yhi xlo xhi : Z) (m : matrix T) :
  slice ylo yhi m = [] → concat (slice2 ylo yhi xlo xhi m) = [].
Proof. unfold slice2. by intros ->. Qed.

Lemma slice2_cols_empty {T : Type} (ylo yhi : Z) (m : matrix T) :
  concat (slice2 ylo yhi 0 (- 0) m) = [].
Proof.
  unfold slice2. apply concat_nil_rows, Forall_fmap, Forall_true.
  intros r. apply slice_zero_neg_zero.
Qed.

Lemma rect_len {T : Type} (H W : Z) (m : matrix T) : rect H W m → len m = H.
Proof. by intros [? _]. Qed.

Lemma rect_row {T : Type} (H W : Z) (m : matrix T) (i : nat) (r : list T) :
  rect H W m → m !! i = Some r → len r = W.
Proof. intros [_ Hr] Hi. by eapply (Forall_lookup_1 _ _ _ _ Hr Hi). Qed.

Lemma rect_nonneg {T : Type} (H W : Z) (m : matrix T) : rect H W m → 0 ≤ H.
Proof. intros [<- _]. apply len_nonneg. Qed.

Lemma rect_shape {T : Type} (H W : Z) (m : matrix T) :
  rect H W m → 0 < H → shape m = (H, W).
Proof.
  intros [HH Hr] Hpos. unfold shape. rewrite HH. f_equal.
  destruct m as [|r m]; [unfold len in HH; simpl in HH; lia |].
  by inversion Hr.
Qed.

Lemma Forall_slice {T : Type} (P : T → Prop) (lo hi : Z) (l : list T) :
  Forall P l → Forall P (slice lo hi l).
Proof. intros Hl. unfold slice. by apply Forall_take, Forall_drop. Qed.

Lemma rect_slice2 {T : Type} (H W ylo yhi xlo xhi : Z) (m : matrix T) :
  rect H W m →
  rect (Z.max 0 (slice_bound yhi H - slice_bound ylo H))
       (Z.max 0 (slice_bound xhi W - slice_bound xlo W))
       (slice2 ylo yhi xlo xhi m).
Proof.
  intros [HH Hr]. unfold rect, slice2. split.
  - unfold len at 1. rewrite length_fmap. fold (len (slice ylo yhi m)).
    by rewrite len_slice, HH.
  - apply Forall_fmap, Forall_slice.
    eapply Forall_impl; [exact Hr |]. intros r Hlen. simpl.
    by rewrite len_slice, Hlen.
Qed.

(** ** [get_image_shift] *)

Section ShiftEstimator.
Context {FL : Float64} {NP : NumPy FL} {LM : LmFit FL}.

Lemma get_image_shift_unfold imageA imageB box roi XCorr Y X :
  xcorr imageA imageB = Ok XCorr →
  shape imageA = (Y, X) →
  get_image_shift imageA imageB box roi
  = let '(Y_, X_, XCorr_) := roi_crop XCorr Y X roi in
    '(y_max_, x_max_) ← brightest XCorr_;
    subpixel_shift XCorr (int_half box) Y_ X_ y_max_ x_max_ Y X.
Proof.
  intros HX HS. unfold get_image_shift. rewrite HX.
  cbv [mbind result_bind]. by rewrite HS.
Qed.

Lemma brightest_empty (XCorr_ : matrix F) :
  concat XCorr_ = [] → brightest XCorr_ = Raise EmptyArgmax.
Proof. intros E. unfold brightest. by rewrite E. Qed.

Lemma int_half_floor (x : Z) : 0 ≤ x → int_half x = x / 2.
Proof. intros. unfold int_half. by rewrite Z.quot_div_nonneg by lia. Qed.

(** The window [XCorr[k:-k, ...]] for [1 <= k]: rows [k .. H-k-1]. *)
Lemma slice_margin_bounds (k n : Z) :
  1 ≤ k → 2 * k ≤ n →
  slice_bound k n = k ∧ slice_bound (- k) n = n - k.
Proof. intros. unfold slice_bound. destruct (k <? 0) eqn:E1, (- k <? 0) eqn:E2; lia. Qed.

Lemma roi_crop_rect (XCorr : matrix F) (H W roi : Z) :
  rect H W XCorr →
  1 ≤ int_half (H - roi) → 2 * int_half (H - roi) ≤ H →
  1 ≤ int_half (W - roi) → 2 * int_half (W - roi) ≤ W →
  rect (H - 2 * int_half (H - roi)) (W - 2 * int_half (W - roi))
       (roi_crop XCorr H W (Some roi)).2.
Proof.
  intros HR HY1 HY2 HX1 HX2. simpl.
  pose proof (rect_slice2 H W (int_half (H - roi)) (- int_half (H - roi))
                (int_half (W - roi)) (- int_half (W - roi)) XCorr HR) as HS.
  destruct (slice_margin_bounds _ _ HY1 HY2) as [Ey1 Ey2].
  destruct (slice_margin_bounds _ _ HX1 HX2) as [Ex1 Ex2].
  rewrite Ey1, Ey2, Ex1, Ex2 in HS.
  by replace (H - 2 * int_half (H - roi))
       with (Z.max 0 (H - int_half (H - roi) - int_half (H - roi))) by lia;
     replace (W - 2 * int_half (W - roi))
       with (Z.max 0 (W - int_half (W - roi) - int_half (W - roi))) by lia.
Qed.

(** C9.  When [roi] is given and one of the margins ⌊(H-roi)/2⌋,
    ⌊(W-roi)/2⌋ is zero, the crop [XCorr[Y_:-Y_, X_:-X_]] has a bound
    [-0 = 0]: the search window has no element and [get_image_shift] raises
    the exception of [argmax] on an empty array, where the full surface is
    not searched.  When the margin is at least one and [H - roi] (resp.
    [W - roi]) is odd, the window has [H - 2⌊(H-roi)/2⌋ = roi + 1] rows
    (resp. columns), not [roi]. *)
Theorem roi_window_degenerate imageA imageB box roi XCorr H W :
  xcorr imageA imageB = Ok XCorr →
  shape imageA = (H, W) →
  rect H W XCorr →
  ((H - roi) / 2 = 0 ∨ (W - roi) / 2 = 0 →
     concat (roi_crop XCorr H W (Some roi)).2 = []
     ∧ get_image_shift imageA imageB box (Some roi) = Raise EmptyArgmax)
  ∧ (0 ≤ roi → 1 ≤ (H - roi) / 2 → Z.odd (H - roi) = true →
     len (roi_crop XCorr H W (Some roi)).2 = H - 2 * ((H - roi) / 2)
     ∧ H - 2 * ((H - roi) / 2) = roi + 1)
  ∧ (0 ≤ roi → 1 ≤ (W - roi) / 2 → Z.odd (W - roi) = true →
     Forall (λ r, len r = W - 2 * ((W - roi) / 2))
            (roi_crop XCorr H W (Some roi)).2
     ∧ W - 2 * ((W - roi) / 2) = roi + 1).
Proof.
  intros HX HS HR. split; [|split].
  - intros Hz.
    assert (concat (roi_crop XCorr H W (Some roi)).2 = []) as Hempty.
    { simpl. destruct Hz as [Hz|Hz].
      - assert (int_half (H - roi) = 0) as ->
          by (rewrite int_half_floor; [done | apply Z.div_small_iff in Hz; lia]).
        apply slice2_rows_empty, slice_zero_neg_zero.
      - assert (int_half (W - roi) = 0) as ->
          by (rewrite int_half_floor; [done | apply Z.div_small_iff in Hz; lia]).
        apply slice2_cols_empty. }
    split; [done |].
    rewrite (get_image_shift_unfold _ _ _ _ _ _ _ HX HS).
    destruct (roi_crop XCorr H W (Some roi)) as [[Y_ X_] XCorr_] eqn:E.
    simpl in Hempty. by rewrite (brightest_empty _ Hempty).
  - intros Hroi Hm Hodd.
    assert (H - roi = 2 * ((H - roi) / 2) + 1) as Hdiv.
    { rewrite Z.odd_spec in Hodd. destruct Hodd as [q Hq].
      clear -Hq. Z.div_mod_to_equations. lia. }
    split; [|lia]. simpl.
    rewrite int_half_floor by lia.
    unfold slice2, len. rewrite length_fmap. fold (len (slice ((H - roi) / 2) (- ((H - roi) / 2)) XCorr)).
    rewrite len_slice, (rect_len _ _ _ HR).
    destruct (slice_margin_bounds ((H - roi) / 2) H) as [-> ->]; lia.
  - intros Hroi Hm Hodd.
    assert (W - roi = 2 * ((W - roi) / 2) + 1) as Hdiv.
    { rewrite Z.odd_spec in Hodd. destruct Hodd as [q Hq].
      clear -Hq. Z.div_mod_to_equations. lia. }
    split; [|lia]. simpl.
    pose proof (rect_slice2 H W (int_half (H - roi)) (- int_half (H - roi))
                  (int_half (W - roi)) (- int_half (W - roi)) XCorr HR) as [_ HF].
    eapply Forall_impl; [exact HF |]. intros r Hr. simpl in Hr. rewrite Hr.
    rewrite int_half_floor by lia.
    destruct (slice_margin_bounds ((W - roi) / 2) W) as [-> ->]; lia.
Qed.
End ShiftEstimator.

(** ** [argmax]: the first maximum *)

Section Argmax.
Context {FL : Float64} {FO : FloatOrder FL}.

Lemma fle_false_lt (x y : F) : fle x y = false → fle y x = true.
Proof. intros E. destruct (fle_total x y) as [E'|E']; congruence. Qed.

Lemma argmax_step_inv (pre : list F) (acc : Z * F * Z) (v : F) :
  argmax_inv pre acc → argmax_inv (pre ++ [v]) (argmax_step acc v).
Proof.
  destruct acc as [[mi mp] i]. intros (Hi & Hmi & Hmp & Hmax & Hfirst).
  assert (len (pre ++ [v]) = len pre + 1) as Hlen
    by (unfold len; rewrite length_app; simpl; lia).
  unfold argmax_step. destruct (fle v mp) eqn:E; unfold argmax_inv.
  - rewrite Hlen. repeat split; try lia.
    + rewrite lookup_app_l; [done | unfold len in Hmi; lia].
    + intros j x Hj. apply lookup_app_Some in Hj as [Hj | [_ Hj]]; [by eauto |].
      apply list_lookup_singleton_Some in Hj as [_ <-]. done.
    + intros j x Hlt Hj. rewrite lookup_app_l in Hj; [by eauto |].
      unfold len in Hmi; lia.
  - rewrite Hlen. repeat split; try lia.
    + subst i. unfold len. rewrite Nat2Z.id.
      rewrite lookup_app_r by lia. by rewrite Nat.sub_diag.
    + intros j x Hj. apply lookup_app_Some in Hj as [Hj | [_ Hj]].
      * eapply fle_trans; [by eauto | by apply fle_false_lt].
      * apply list_lookup_singleton_Some in Hj as [_ <-]. apply fle_refl.
    + intros j x Hlt Hj. subst i. unfold len in Hlt. rewrite Nat2Z.id in Hlt.
      rewrite lookup_app_l in Hj by done.
      destruct (fle v x) eqn:E'; [|done].
      rewrite (fle_trans v x mp E' (Hmax _ _ Hj)) in E. done.
Qed.

Lemma argmax_fold_inv (l pre : list F) (acc : Z * F * Z) :
  argmax_inv pre acc → argmax_inv (pre ++ l) (fold_left argmax_step l acc).
Proof.
  revert pre acc. induction l as [|v l IH]; intros pre acc Hinv; simpl.
  - by rewrite app_nil_r.
  - replace (pre ++ v :: l) with ((pre ++ [v]) ++ l) by by rewrite <- app_assoc.
    by apply IH, argmax_step_inv.
Qed.

(** [argmax] returns the index of a maximum, and of the first one. *)
Lemma argmax_spec (l : list F) :
  l ≠ [] →
  ∃ i v, argmax l = Ok i ∧ 0 ≤ i < len l ∧ l !! Z.to_nat i = Some v
         ∧ (∀ j x, l !! j = Some x → fle x v = true)
         ∧ (∀ j x, (j < Z.to_nat i)%nat → l !! j = Some x → fle v x = false).
Proof.
  destruct l as [|v l]; [done | intros _].
  assert (argmax_inv [v] (0, v, 1)) as H0.
  { unfold argmax_inv, len. simpl.
    split; [done |]. split; [lia |]. split; [done |]. split.
    - intros [|j] x Hj; simpl in Hj; [|done]. injection Hj as <-. apply fle_refl.
    - intros j x Hj. lia. }
  apply (argmax_fold_inv l) in H0. simpl in H0. unfold argmax.
  destruct (fold_left argmax_step l (0, v, 1)) as [[mi mp] i].
  destruct H0 as (_ & Hmi & Hmp & Hmax & Hfirst).
  exists mi, mp. repeat split; try done; lia.
Qed.
End Argmax.

(** ** Pixels of flattened and of cropped arrays *)

Lemma concat_lookup_rows {T : Type} (w : nat) (m : matrix T) (r c : nat) :
  Forall (λ row, length row = w) m → (c < w)%nat →
  concat m !! (r * w + c)%nat = row ← m !! r; row !! c.
Proof.
  intros Hm Hc. revert r. induction Hm as [|row m Hrow _ IH]; intros r.
  - by destruct r.
  - destruct r as [|r]; simpl.
    + rewrite lookup_app_l by lia. done.
    + rewrite lookup_app_r by lia.
      replace (w + r * w + c - length row)%nat with (r * w + c)%nat by lia.
      apply IH.
Qed.

Lemma length_concat_rows {T : Type} (w : nat) (m : matrix T) :
  Forall (λ row, length row = w) m → length (concat m) = (length m * w)%nat.
Proof.
  induction 1 as [|row m Hrow _ IH]; [done |].
  simpl. rewrite length_app. lia.
Qed.

Lemma rect_rows_nat {T : Type} (H W : Z) (m : matrix T) :
  rect H W m → 0 ≤ W → Forall (λ row, length row = Z.to_nat W) m.
Proof.
  intros [_ Hr] HW. eapply Forall_impl; [exact Hr |].
  intros row Hlen. simpl in Hlen. unfold len in Hlen. lia.
Qed.

Lemma len_concat_rect {T : Type} (H W : Z) (m : matrix T) :
  rect H W m → 0 ≤ W → len (concat m) = H * W.
Proof.
  intros HR HW. unfold len.
  rewrite (length_concat_rows (Z.to_nat W)) by by eapply rect_rows_nat.
  destruct HR as [<- _]. unfold len. lia.
Qed.

Lemma pixel_Some_range {T : Type} (H W : Z) (m : matrix T) (r c : Z) (v : T) :
  rect H W m → pixel m r c = Some v → 0 ≤ r < H ∧ 0 ≤ c < W.
Proof.
  intros HR. unfold pixel.
  destruct (0 <=? r) eqn:Er, (0 <=? c) eqn:Ec; simpl; try done.
  destruct (m !! Z.to_nat r) as [row|] eqn:Erow; simpl; [|done].
  intros Hv.
  pose proof (lookup_lt_Some _ _ _ Erow) as H1.
  pose proof (lookup_lt_Some _ _ _ Hv) as H2.
  pose proof (rect_row _ _ _ _ _ HR Erow) as H3.
  destruct HR as [<- _]. unfold len in *. lia.
Qed.

Lemma concat_lookup_rect {T : Type} (H W : Z) (m : matrix T) (r c : Z) :
  rect H W m → 0 ≤ r → 0 ≤ c < W →
  concat m !! Z.to_nat (r * W + c) = pixel m r c.
Proof.
  intros HR Hr Hc. unfold pixel.
  replace (0 <=? r) with true by lia. replace (0 <=? c) with true by lia. simpl.
  rewrite <- (concat_lookup_rows (Z.to_nat W)).
  - f_equal. nia.
  - apply (rect_rows_nat H); [done | lia].
  - lia.
Qed.

(** The pixel [(r, c)] of the window [m[ylo:yhi, xlo:xhi]] is the pixel
    [(ylo' + r, xlo' + c)] of [m], for the normalised lower bounds. *)
Lemma pixel_slice2 {T : Type} (H W ylo yhi xlo xhi : Z) (m : matrix T) (r c : Z) :
  rect H W m → 0 ≤ W →
  0 ≤ r < slice_bound yhi H - slice_bound ylo H →
  0 ≤ c < slice_bound xhi W - slice_bound xlo W →
  pixel (slice2 ylo yhi xlo xhi m) r c
  = pixel m (slice_bound ylo H + r) (slice_bound xlo W + c).
Proof.
  intros HR HW Hr Hc.
  pose proof (rect_nonneg _ _ _ HR) as HH.
  pose proof (slice_bound_range ylo H HH) as Hy.
  pose proof (slice_bound_range xlo W HW) as Hx.
  unfold pixel.
  replace (0 <=? r) with true by lia. replace (0 <=? c) with true by lia.
  replace (0 <=? slice_bound ylo H + r) with true by lia.
  replace (0 <=? slice_bound xlo W + c) with true by lia. simpl.
  unfold slice2. rewrite list_lookup_fmap.
  rewrite lookup_slice by (rewrite (rect_len _ _ _ HR); lia).
  rewrite (rect_len _ _ _ HR).
  replace (Z.to_nat (slice_bound ylo H) + Z.to_nat r)%nat
    with (Z.to_nat (slice_bound ylo H + r)) by lia.
  destruct (m !! Z.to_nat (slice_bound ylo H + r)) as [row|] eqn:Erow; simpl; [|done].
  pose proof (rect_row _ _ _ _ _ HR Erow) as Hlen.
  rewrite lookup_slice by (rewrite Hlen; lia).
  rewrite Hlen. f_equal. lia.
Qed.

(** ** The peak search *)

Section PeakSearch.
Context {FL : Float64} {FO : FloatOrder FL}.

(** On a non-empty window, [brightest] returns the position of a maximal
    pixel, the first one in row-major order. *)
Lemma brightest_spec (h w : Z) (m : matrix F) :
  rect h w m → 0 < h → 0 < w →
  ∃ y x v, brightest m = Ok (y, x) ∧ (0 ≤ y < h ∧ 0 ≤ x < w)
    ∧ pixel m y x = Some v
    ∧ (∀ r c u, pixel m r c = Some u → fle u v = true)
    ∧ (∀ r c u, r < y ∨ (r = y ∧ c < x) →
         pixel m r c = Some u → fle v u = false).
Proof.
  intros HR Hh Hw.
  pose proof (len_concat_rect h w m HR ltac:(lia)) as Hlen.
  assert (concat m ≠ []) as Hne.
  { intros E. rewrite E in Hlen. unfold len in Hlen. simpl in Hlen. nia. }
  destruct (argmax_spec (concat m) Hne) as (i & v & Harg & Hi & Hv & Hmax & Hfirst).
  rewrite Hlen in Hi.
  pose proof (Z.div_mod i w ltac:(lia)) as Hdm.
  pose proof (Z.mod_pos_bound i w Hw) as Hmod.
  assert (0 ≤ i / w < h) as Hdiv.
  { split; [apply Z.div_pos; lia | apply Z.div_lt_upper_bound; lia]. }
  exists (i / w), (i mod w), v. split; [|split; [done | split; [|split]]].
  - unfold brightest. rewrite Harg. cbv [mbind result_bind].
    rewrite (rect_shape h w m HR Hh). unfold unravel_index.
    replace ((0 <=? i) && (i <? h * w)) with true; [done |].
    symmetry. apply andb_true_iff. lia.
  - rewrite <- (concat_lookup_rect h w) by (done || lia).
    rewrite <- Hv. f_equal. lia.
  - intros r c u Hu.
    destruct (pixel_Some_range _ _ _ _ _ _ HR Hu) as [Hr Hc].
    rewrite <- (concat_lookup_rect h w) in Hu by (done || lia).
    by eapply Hmax.
  - intros r c u Hlt Hu.
    destruct (pixel_Some_range _ _ _ _ _ _ HR Hu) as [Hr Hc].
    rewrite <- (concat_lookup_rect h w) in Hu by (done || lia).
    eapply Hfirst; [|exact Hu]. nia.
Qed.
End PeakSearch.

Section SearchWindow.
Context {FL : Float64} {FO : FloatOrder FL} {NP : NumPy FL} {LM : LmFit FL}.

Lemma roi_crop_window (XCorr : matrix F) (H W roi : Z) :
  rect H W XCorr →
  1 ≤ (H - roi) / 2 → 2 * ((H - roi) / 2) < H →
  1 ≤ (W - roi) / 2 → 2 * ((W - roi) / 2) < W →
  roi_crop XCorr H W (Some roi)
  = ((H - roi) / 2, (W - roi) / 2,
     slice2 ((H - roi) / 2) (- ((H - roi) / 2))
            ((W - roi) / 2) (- ((W - roi) / 2)) XCorr)
  ∧ centered_window XCorr (roi_crop XCorr H W (Some roi)).2 H W
      ((H - roi) / 2) ((W - roi) / 2).
Proof.
  intros HR HY1 HY2 HX1 HX2.
  assert (int_half (H - roi) = (H - roi) / 2) as EY
    by (apply int_half_floor; Z.div_mod_to_equations; lia).
  assert (int_half (W - roi) = (W - roi) / 2) as EX
    by (apply int_half_floor; Z.div_mod_to_equations; lia).
  split; [by simpl; rewrite EY, EX |].
  split.
  - rewrite <- EY, <- EX. apply roi_crop_rect; (done || lia).
  - intros r c Hr Hc. simpl. rewrite EY, EX.
    destruct (slice_margin_bounds ((H - roi) / 2) H) as [Ey1 Ey2]; [lia.. |].
    destruct (slice_margin_bounds ((W - roi) / 2) W) as [Ex1 Ex2]; [lia.. |].
    rewrite (pixel_slice2 H W) by (done || lia). by rewrite Ey1, Ex1.
Qed.

Lemma full_surface_window (XCorr : matrix F) (H W : Z) :
  rect H W XCorr → centered_window XCorr XCorr H W 0 0.
Proof.
  intros HR. split.
  - by replace (H - 2 * 0) with H by lia; replace (W - 2 * 0) with W by lia.
  - intros r c _ _. by rewrite !Z.add_0_l.
Qed.

(** The brightest pixel of a window, in the coordinates of the full
    surface. *)
Lemma window_peak (XCorr win : matrix F) (H W Y0 X0 : Z) :
  centered_window XCorr win H W Y0 X0 →
  2 * Y0 < H → 2 * X0 < W →
  ∃ y x v, brightest win = Ok (y - Y0, x - X0)
    ∧ (Y0 ≤ y < H - Y0 ∧ X0 ≤ x < W - X0)
    ∧ pixel XCorr y x = Some v
    ∧ (∀ r c u, Y0 ≤ r < H - Y0 → X0 ≤ c < W - X0 →
         pixel XCorr r c = Some u → fle u v = true)
    ∧ (∀ r c u, Y0 ≤ r < H - Y0 → X0 ≤ c < W - X0 →
         r < y ∨ (r = y ∧ c < x) →
         pixel XCorr r c = Some u → fle v u = false).
Proof.
  intros [HRw Hpix] HY HX.
  destruct (brightest_spec _ _ win HRw) as (y & x & v & Hb & Hr & Hv & Hmax & Hfirst);
    [lia.. |].
  exists (Y0 + y), (X0 + x), v.
  split; [by rewrite Hb; do 2 f_equal; lia |].
  split; [lia |].
  split; [by rewrite <- Hpix by lia |].
  split.
  - intros r c u Hr' Hc' Hu. apply (Hmax (r - Y0) (c - X0)).
    rewrite Hpix by lia. rewrite <- Hu. f_equal; lia.
  - intros r c u Hr' Hc' Hlt Hu. apply (Hfirst (r - Y0) (c - X0)); [lia |].
    rewrite Hpix by lia. rewrite <- Hu. f_equal; lia.
Qed.
End SearchWindow.

Section ShiftEstimatorClaims.
Context {FL : Float64} {FO : FloatOrder FL} {NP : NumPy FL} {LM : LmFit FL}.

(** C6, as amended.  With [roi] given, [1 <= roi], and margins
    [Y0 = ⌊(H-roi)/2⌋], [X0 = ⌊(W-roi)/2⌋] of at least one, the peak is
    searched in the centred window of rows [Y0 .. H-Y0-1] and columns
    [X0 .. W-X0-1] only; the window has side [H - 2 Y0], which is [roi]
    when [H - roi] is even and [roi + 1] when it is odd (same for the
    width).  The position found in the window is mapped back to the full
    surface by adding [(Y0, X0)].  With no [roi] the whole surface is
    searched. *)
Theorem roi_peak_search imageA imageB box XCorr H W :
  xcorr imageA imageB = Ok XCorr →
  shape imageA = (H, W) →
  rect H W XCorr →
  (∀ roi, 1 ≤ roi → 1 ≤ (H - roi) / 2 → 1 ≤ (W - roi) / 2 →
     let Y0 := (H - roi) / 2 in
     let X0 := (W - roi) / 2 in
     rect (H - 2 * Y0) (W - 2 * X0) (roi_crop XCorr H W (Some roi)).2
     ∧ H - 2 * Y0 = roi + (H - roi) mod 2
     ∧ W - 2 * X0 = roi + (W - roi) mod 2
     ∧ ∃ y x, peak_of_window XCorr H W Y0 X0 y x
         ∧ brightest (roi_crop XCorr H W (Some roi)).2 = Ok (y - Y0, x - X0)
         ∧ get_image_shift imageA imageB box (Some roi)
           = subpixel_shift XCorr (int_half box) Y0 X0 (y - Y0) (x - X0) H W)
  ∧ (0 < H → 0 < W →
     ∃ y x, peak_of_window XCorr H W 0 0 y x
       ∧ brightest XCorr = Ok (y, x)
       ∧ get_image_shift imageA imageB box None
         = subpixel_shift XCorr (int_half box) 0 0 y x H W).
Proof.
  intros HX HS HR. split.
  - intros roi Hroi HY HXm Y0 X0.
    assert (2 * Y0 < H ∧ 2 * X0 < W) as [HY2 HX2]
      by (subst Y0 X0; split; Z.div_mod_to_equations; lia).
    destruct (roi_crop_window XCorr H W roi HR HY HY2 HXm HX2) as [Ecrop Hwin].
    split; [by destruct Hwin |].
    split; [subst Y0; Z.div_mod_to_equations; lia |].
    split; [subst X0; Z.div_mod_to_equations; lia |].
    destruct (window_peak _ _ _ _ _ _ Hwin HY2 HX2)
      as (y & x & v & Hb & Hr & Hv & Hmax & Hfirst).
    exists y, x. split; [split; [done | by exists v] |]. split; [done |].
    rewrite (get_image_shift_unfold _ _ _ _ _ _ _ HX HS).
    rewrite Ecrop in Hb |- *. simpl in Hb. by rewrite Hb.
  - intros HH HW.
    destruct (window_peak _ _ _ _ _ _ (full_surface_window XCorr H W HR))
      as (y & x & v & Hb & Hr & Hv & Hmax & Hfirst); [lia.. |].
    rewrite !Z.sub_0_r in Hb.
    exists y, x. split; [split; [done | by exists v] |]. split; [done |].
    rewrite (get_image_shift_unfold _ _ _ _ _ _ _ HX HS). simpl.
    by rewrite Hb.
Qed.
End ShiftEstimatorClaims.

Section ShiftEstimatorResult.
Context {FL : Float64} {NP : NumPy FL} {LM : LmFit FL}.

Lemma get_image_shift_run imageA imageB box roi XCorr Y_ X_ y_max_ x_max_ results :
  shift_run imageA imageB box roi XCorr Y_ X_ y_max_ x_max_ results →
  get_image_shift imageA imageB box roi
  = Ok (shift_of (best_yc results) Y_ y_max_ (shape imageA).1,
        shift_of (best_xc results) X_ x_max_ (shape imageA).2).
Proof.
  intros (XCorr_ & a & b & HX & Hcrop & Hb & Ha & Hmin & Hfit).
  rewrite (get_image_shift_unfold _ _ _ _ _ _ _ HX (surjective_pairing _)).
  rewrite Hcrop. cbv [mbind result_bind]. rewrite Hb.
  unfold subpixel_shift. cbv [mbind result_bind]. by rewrite Ha, Hmin, Hfit.
Qed.

Lemma get_image_shift_Ok_inv imageA imageB box roi s :
  get_image_shift imageA imageB box roi = Ok s →
  ∃ XCorr Y_ X_ y_max_ x_max_ results,
    shift_run imageA imageB box roi XCorr Y_ X_ y_max_ x_max_ results
    ∧ s = (shift_of (best_yc results) Y_ y_max_ (shape imageA).1,
           shift_of (best_xc results) X_ x_max_ (shape imageA).2).
Proof.
  unfold get_image_shift. cbv [mbind result_bind].
  destruct (xcorr imageA imageB) as [XCorr|] eqn:HX; [|done].
  destruct (shape imageA) as [Y X] eqn:HS.
  destruct (roi_crop XCorr Y X roi) as [[Y_ X_] XCorr_] eqn:Hcrop.
  destruct (brightest XCorr_) as [[y_max_ x_max_]|] eqn:Hb; [|done].
  unfold subpixel_shift. cbv [mbind result_bind].
  destruct (amax _) as [a|] eqn:Ha; [|done].
  destruct (amin _) as [b|] eqn:Hmin; [|done].
  destruct (gaussian2d_fit _ _ _ _) as [results|] eqn:Hfit; [|done].
  intros [= <-].
  exists XCorr, Y_, X_, y_max_, x_max_, results. split; [|done].
  exists XCorr_, a, b. rewrite HS. by repeat split.
Qed.

(** C7.  [get_image_shift] returns a value exactly when all its steps go
    through, and the value is then the shift of the sub-pixel peak
    relative to the centre of the image, negated:
    [(-(y_peak - H/2), -(x_peak - W/2))], in the order [(shift_y,
    shift_x)], where the peak is the fitted centre plus the integer peak
    position [(Y_ + y_max_, X_ + x_max_)]. *)
Theorem shift_relative_to_center imageA imageB box roi (s : F * F) :
  get_image_shift imageA imageB box roi = Ok s
  ↔ ∃ XCorr Y_ X_ y_max_ x_max_ results,
      shift_run imageA imageB box roi XCorr Y_ X_ y_max_ x_max_ results
      ∧ let '(H, W) := shape imageA in
        let y_peak := fadd (best_yc results) (of_int (Y_ + y_max_)) in
        let x_peak := fadd (best_xc results) (of_int (X_ + x_max_)) in
        s = (fopp (fsub y_peak (fdiv (of_int H) (of_int 2))),
             fopp (fsub x_peak (fdiv (of_int W) (of_int 2)))).
Proof.
  split.
  - intros Hs. apply get_image_shift_Ok_inv in Hs
      as (XCorr & Y_ & X_ & y & x & results & Hrun & ->).
    exists XCorr, Y_, X_, y, x, results. split; [done |].
    by destruct (shape imageA).
  - intros (XCorr & Y_ & X_ & y & x & results & Hrun & Hs).
    rewrite (get_image_shift_run _ _ _ _ _ _ _ _ _ _ Hrun).
    destruct (shape imageA). by rewrite Hs.
Qed.

(** C5, as amended.  The convergence flag of the fit is never read: when
    the fit hands back a result that did not converge, no error is raised
    and [get_image_shift] returns the shift computed from the best values
    of that fit. *)
Theorem fit_divergence_not_checked
    imageA imageB box roi XCorr Y_ X_ y_max_ x_max_ results :
  shift_run imageA imageB box roi XCorr Y_ X_ y_max_ x_max_ results →
  success results = false →
  get_image_shift imageA imageB box roi
  = Ok (shift_of (best_yc results) Y_ y_max_ (shape imageA).1,
        shift_of (best_xc results) X_ x_max_ (shape imageA).2).
Proof. intros Hrun _. by eapply get_image_shift_run. Qed.
End ShiftEstimatorResult.

(** ** The fit window at the border of the surface *)

(** The number of rows (columns) that [XCorr[p-f : p+f+1]] takes from an
    axis of extent [n]. *)
Lemma fit_axis (n p f : Z) :
  0 ≤ f → 0 ≤ p < n →
  let d := Z.max 0 (slice_bound (p + f + 1) n - slice_bound (p - f) n) in
  d ≤ 2 * f + 1
  ∧ (p < f ∨ n ≤ p + f → d < 2 * f + 1)
  ∧ (p < f → 2 * f + 1 ≤ n → d = 0)
  ∧ (f ≤ p → n ≤ p + f → d = n - p + f).
Proof.
  intros Hf Hp. unfold slice_bound.
  destruct (p + f + 1 <? 0) eqn:E1, (p - f <? 0) eqn:E2; lia.
Qed.

Section FitWindow.
Context {FL : Float64} {NP : NumPy FL} {LM : LmFit FL}.

Lemma fit_roi_rect (XCorr : matrix F) (H W f Y_ X_ y_max_ x_max_ : Z) :
  rect H W XCorr →
  rect (Z.max 0 (slice_bound (y_max_ + Y_ + f + 1) H - slice_bound (y_max_ + Y_ - f) H))
       (Z.max 0 (slice_bound (x_max_ + X_ + f + 1) W - slice_bound (x_max_ + X_ - f) W))
       (fit_roi XCorr f Y_ X_ y_max_ x_max_).
Proof.
  intros HR. unfold fit_roi.
  replace (y_max_ - f + Y_) with (y_max_ + Y_ - f) by lia.
  replace (y_max_ + f + Y_ + 1) with (y_max_ + Y_ + f + 1) by lia.
  replace (x_max_ - f + X_) with (x_max_ + X_ - f) by lia.
  replace (x_max_ + f + X_ + 1) with (x_max_ + X_ + f + 1) by lia.
  by apply rect_slice2.
Qed.

Lemma subpixel_shift_empty (XCorr : matrix F) f Y_ X_ y_max_ x_max_ Y X :
  concat (fit_roi XCorr f Y_ X_ y_max_ x_max_) = [] →
  subpixel_shift XCorr f Y_ X_ y_max_ x_max_ Y X = Raise ZeroSizeReduction.
Proof. intros E. unfold subpixel_shift. by rewrite E. Qed.

Lemma subpixel_shift_nonempty (XCorr : matrix F) f Y_ X_ y_max_ x_max_ Y X :
  concat (fit_roi XCorr f Y_ X_ y_max_ x_max_) ≠ [] →
  ∃ a b,
    amax (concat (fit_roi XCorr f Y_ X_ y_max_ x_max_)) = Ok a
    ∧ amin (concat (fit_roi XCorr f Y_ X_ y_max_ x_max_)) = Ok b
    ∧ subpixel_shift XCorr f Y_ X_ y_max_ x_max_ Y X
      = (results ← gaussian2d_fit f (concat (fit_roi XCorr f Y_ X_ y_max_ x_max_)) a b;
         Ok (shift_of (best_yc results) Y_ y_max_ Y,
             shift_of (best_xc results) X_ x_max_ X)).
Proof.
  intros Hne. unfold subpixel_shift.
  destruct (concat (fit_roi XCorr f Y_ X_ y_max_ x_max_)) as [|v l] eqn:E; [done |].
  simpl. eexists _, _. by repeat split.
Qed.

(** C10, as amended.  When fewer than [fit_X = ⌊box/2⌋] pixels lie between
    the integer peak [(py, px)] and a border of the surface, a bound of
    the slice that cuts out the fit ROI is negative (it then counts from
    the far end) or exceeds the extent (it is then clipped), and the fit
    ROI has fewer than [2 fit_X + 1] rows or columns.  It is empty when the
    lower bound wraps on an axis of extent at least [2 fit_X + 1]; with an
    empty fit ROI [get_image_shift] raises at [FitROI.max()] and no fit is
    run.  With a non-empty one the fit is run on that truncated window,
    which is not the [(2 fit_X + 1)]-square centred on the peak. *)
Theorem fit_window_at_border
    imageA imageB box roi XCorr H W Y_ X_ XCorr_ y_max_ x_max_ :
  xcorr imageA imageB = Ok XCorr →
  shape imageA = (H, W) →
  rect H W XCorr →
  roi_crop XCorr H W roi = (Y_, X_, XCorr_) →
  brightest XCorr_ = Ok (y_max_, x_max_) →
  let fit_X := int_half box in
  let py := y_max_ + Y_ in
  let px := x_max_ + X_ in
  let FitROI := fit_roi XCorr fit_X Y_ X_ y_max_ x_max_ in
  0 ≤ fit_X → 0 ≤ py < H → 0 ≤ px < W →
  py < fit_X ∨ H ≤ py + fit_X ∨ px < fit_X ∨ W ≤ px + fit_X →
  (y_max_ - fit_X + Y_ < 0 ∨ H < y_max_ + fit_X + Y_ + 1
   ∨ x_max_ - fit_X + X_ < 0 ∨ W < x_max_ + fit_X + X_ + 1)
  ∧ (len FitROI < 2 * fit_X + 1
     ∨ Forall (λ r, len r < 2 * fit_X + 1) FitROI)
  ∧ size FitROI < (2 * fit_X + 1) * (2 * fit_X + 1)
  ∧ ((py < fit_X ∧ 2 * fit_X + 1 ≤ H) ∨ (px < fit_X ∧ 2 * fit_X + 1 ≤ W) →
     concat FitROI = [])
  ∧ (concat FitROI = [] →
     get_image_shift imageA imageB box roi = Raise ZeroSizeReduction)
  ∧ (concat FitROI ≠ [] →
     shape FitROI ≠ (2 * fit_X + 1, 2 * fit_X + 1)
     ∧ ∃ a b,
         amax (concat FitROI) = Ok a ∧ amin (concat FitROI) = Ok b
         ∧ get_image_shift imageA imageB box roi
           = (results ← gaussian2d_fit fit_X (concat FitROI) a b;
              Ok (shift_of (best_yc results) Y_ y_max_ H,
                  shift_of (best_xc results) X_ x_max_ W))).
Proof.
  intros HX HS HR Hcrop Hb fit_X py px FitROI Hf Hpy Hpx Hnear.
  pose proof (fit_roi_rect XCorr H W fit_X Y_ X_ y_max_ x_max_ HR) as HRf.
  fold py px FitROI in HRf.
  destruct (fit_axis H py fit_X Hf Hpy) as (Hy1 & Hy2 & Hy3 & _).
  destruct (fit_axis W px fit_X Hf Hpx) as (Hx1 & Hx2 & Hx3 & _).
  set (h := Z.max 0 (slice_bound (py + fit_X + 1) H - slice_bound (py - fit_X) H)) in *.
  set (w := Z.max 0 (slice_bound (px + fit_X + 1) W - slice_bound (px - fit_X) W)) in *.
  assert (0 ≤ h ∧ 0 ≤ w) as [Hh Hw] by (subst h w; lia).
  pose proof (len_concat_rect h w FitROI HRf Hw) as Hsize.
  assert (get_image_shift imageA imageB box roi
          = subpixel_shift XCorr fit_X Y_ X_ y_max_ x_max_ H W) as Hgis.
  { rewrite (get_image_shift_unfold _ _ _ _ _ _ _ HX HS), Hcrop.
    cbv [mbind result_bind]. by rewrite Hb. }
  split; [subst py px; lia |].
  split.
  { destruct HRf as [Hlen Hrows].
    destruct (decide (py < fit_X ∨ H ≤ py + fit_X)) as [Hy|Hy].
    - left. rewrite Hlen. by apply Hy2.
    - right. eapply Forall_impl; [exact Hrows |]. intros r Hr. simpl in Hr.
      rewrite Hr. apply Hx2. lia. }
  split.
  { unfold size. rewrite Hsize.
    destruct (decide (py < fit_X ∨ H ≤ py + fit_X)) as [Hy|Hy].
    - specialize (Hy2 Hy). nia.
    - assert (w < 2 * fit_X + 1) by (apply Hx2; lia). nia. }
  split.
  { intros Hwrap. apply len_nil_inv. rewrite Hsize.
    destruct Hwrap as [[? ?]|[? ?]]; [rewrite Hy3 | rewrite Hx3]; lia. }
  split.
  { intros Hempty. rewrite Hgis. by apply subpixel_shift_empty. }
  intros Hne. split.
  - assert (0 < h) as Hhpos.
    { destruct (decide (h = 0)) as [E|]; [|lia]. exfalso. apply Hne.
      apply len_nil_inv. rewrite Hsize, E. lia. }
    rewrite (rect_shape h w FitROI HRf Hhpos). intros [= Eh Ew].
    destruct (decide (py < fit_X ∨ H ≤ py + fit_X)) as [Hy|Hy].
    + specialize (Hy2 Hy). lia.
    + assert (w < 2 * fit_X + 1) by (apply Hx2; lia). lia.
  - rewrite Hgis. by apply subpixel_shift_nonempty.
Qed.
End FitWindow.

(** ** The pair loop of [rcc] *)

Lemma foldM_app {S X : Type} (body : S → X → result S) (xs ys : list X) (s : S) :
  foldM body (xs ++ ys) s = s' ← foldM body xs s; foldM body ys s'.
Proof.
  revert s. induction xs as [|x xs IH]; intros s; simpl; [done |].
  destruct (body s x) as [s'|e]; simpl; [apply IH | done].
Qed.

Lemma foldM_fmap {S X Y : Type} (body : S → Y → result S) (g : X → Y)
    (xs : list X) (s : S) :
  foldM body (g <$> xs) s = foldM (λ s x, body s (g x)) xs s.
Proof.
  revert s. induction xs as [|x xs IH]; intros s; simpl; [done |].
  destruct (body s (g x)) as [s'|e]; simpl; [apply IH | done].
Qed.

(** The two nested loops are one loop over the list of pairs. *)
Lemma foldM_nested {S : Type} (body : Z → S → Z → result S) (n : Z)
    (outer : list Z) (s : S) :
  foldM (λ s i, foldM (body i) (range (i + 1) n) s) outer s
  = foldM (λ s p, body p.1 s p.2) (i ← outer; (λ j, (i, j)) <$> range (i + 1) n) s.
Proof.
  revert s. induction outer as [|i outer IH]; intros s; [done |].
  cbn [foldM mbind list_bind]. rewrite foldM_app, foldM_fmap. cbn [fst snd].
  destruct (foldM (body i) (range (i + 1) n) s) as [s'|e]; cbn [result_bind];
    [apply IH | done].
Qed.

Lemma range_cons (a b : Z) : a < b → range a b = a :: range (a + 1) b.
Proof.
  intros Hab. unfold range. rewrite seqZ_cons by lia.
  f_equal. f_equal; lia.
Qed.

Lemma range_nil (a b : Z) : b ≤ a → range a b = [].
Proof. intros Hab. unfold range. unfold seqZ. by replace (Z.to_nat (b - a)) with 0%nat by lia. Qed.

Lemma elem_of_range (a b x : Z) : x ∈ range a b ↔ a ≤ x < b.
Proof. unfold range. rewrite elem_of_seqZ. lia. Qed.

Lemma len_range (a b : Z) : len (range a b) = Z.max 0 (b - a).
Proof. unfold range, len. rewrite length_seqZ. lia. Qed.

Lemma pairs_from_cons (a n : Z) :
  a < n - 1 →
  pairs_from a n = ((λ j, (a, j)) <$> range (a + 1) n) ++ pairs_from (a + 1) n.
Proof. intros Ha. unfold pairs_from. by rewrite range_cons by lia. Qed.

Lemma pairs_from_nil (a n : Z) : n - 1 ≤ a → pairs_from a n = [].
Proof. intros Ha. unfold pairs_from. by rewrite range_nil by lia. Qed.

(** Induction on the number of outer iterations left. *)
Lemma pairs_from_ind (n : Z) (P : Z → Prop) :
  (∀ a, n - 1 ≤ a → P a) →
  (∀ a, 0 ≤ a < n - 1 → P (a + 1) → P a) →
  ∀ a, 0 ≤ a → P a.
Proof.
  intros Hbase Hstep a Ha.
  remember (Z.to_nat (n - 1 - a)) as m eqn:Hm.
  revert a Ha Hm. induction m as [|m IH]; intros a Ha Hm.
  - apply Hbase. lia.
  - apply Hstep; [lia |]. apply IH; lia.
Qed.

Lemma elem_of_pairs_from (a n i j : Z) :
  0 ≤ a → (i, j) ∈ pairs_from a n ↔ a ≤ i ∧ i < j < n.
Proof.
  intros Ha. revert a Ha i j.
  apply (pairs_from_ind n (λ a, ∀ i j, (i, j) ∈ pairs_from a n ↔ a ≤ i ∧ i < j < n)).
  - intros a Hge i j. rewrite pairs_from_nil by done. rewrite elem_of_nil. lia.
  - intros a Hlt IH i j. rewrite pairs_from_cons by lia.
    rewrite elem_of_app, IH, list_elem_of_fmap.
    split.
    + intros [(j' & [= -> ->] & Hj) | ?]; [apply elem_of_range in Hj |]; lia.
    + intros [Hi Hj]. destruct (decide (i = a)) as [->|]; [left | right; lia].
      exists j. split; [done |]. apply elem_of_range. lia.
Qed.

Lemma len_pairs_from (a n : Z) :
  0 ≤ a → 2 * len (pairs_from a n) = Z.max 0 (n - a) * Z.max 0 (n - a - 1).
Proof.
  revert a.
  apply (pairs_from_ind n (λ a, 2 * len (pairs_from a n)
                               = Z.max 0 (n - a) * Z.max 0 (n - a - 1))).
  - intros a Hge. rewrite pairs_from_nil by done. unfold len. simpl. lia.
  - intros a Hlt IH. rewrite pairs_from_cons by lia.
    unfold len in *. rewrite length_app, length_fmap.
    pose proof (len_range (a + 1) n) as Hr. unfold len in Hr. nia.
Qed.

Lemma len_pairs (n : Z) : 0 ≤ n → len (pairs n) = n * (n - 1) / 2.
Proof.
  intros Hn. pose proof (len_pairs_from 0 n ltac:(lia)) as H. fold (pairs n) in H.
  rewrite Z.sub_0_r in H.
  assert (2 * len (pairs n) = n * (n - 1)) as H' by nia.
  rewrite <- H'. by rewrite Z.mul_comm, Z.div_mul by lia.
Qed.

Lemma lookup_pairs_row (a n : Z) (k : nat) (p : Z * Z) :
  ((λ j, (a, j)) <$> range (a + 1) n) !! k = Some p →
  p = (a, a + 1 + Z.of_nat k) ∧ a + 1 + Z.of_nat k < n.
Proof.
  rewrite list_lookup_fmap. unfold range.
  destruct (seqZ (a + 1) (n - (a + 1)) !! k) as [j|] eqn:E; simpl; [|done].
  apply lookup_seqZ in E as [-> Hk]. intros [= <-]. split; [done | lia].
Qed.

(** The enumeration is strictly increasing in the lexicographic order. *)
Lemma pairs_from_sorted (a n : Z) :
  0 ≤ a →
  ∀ (k1 k2 : nat) p q, (k1 < k2)%nat →
    pairs_from a n !! k1 = Some p → pairs_from a n !! k2 = Some q → lex_lt p q.
Proof.
  revert a.
  apply (pairs_from_ind n (λ a, ∀ (k1 k2 : nat) p q, (k1 < k2)%nat →
    pairs_from a n !! k1 = Some p → pairs_from a n !! k2 = Some q → lex_lt p q)).
  - intros a Hge k1 k2 p q _. by rewrite pairs_from_nil by done.
  - intros a Hlt IH k1 k2 p q Hk. rewrite pairs_from_cons by lia.
    intros H1 H2.
    apply lookup_app_Some in H1 as [H1 | [Hl1 H1]];
      apply lookup_app_Some in H2 as [H2 | [Hl2 H2]].
    + apply lookup_pairs_row in H1 as [-> _]. apply lookup_pairs_row in H2 as [-> _].
      right. simpl. lia.
    + apply lookup_pairs_row in H1 as [-> _].
      apply list_elem_of_lookup_2 in H2. destruct q as [i j].
      apply elem_of_pairs_from in H2; [|lia]. left. simpl. lia.
    + apply lookup_lt_Some in H2. lia.
    + eapply (IH (k1 - _)%nat (k2 - _)%nat); [|exact H1 | exact H2]. lia.
Qed.

(** ** The design matrix *)

Lemma range_app (a b c : Z) : a ≤ b → b ≤ c → range a c = range a b ++ range b c.
Proof.
  intros Hab Hbc. unfold range.
  replace (c - a) with ((b - a) + (c - b)) by lia.
  rewrite seqZ_app by lia. do 2 f_equal; lia.
Qed.

Lemma fmap_const_replicate {X Y : Type} (g : X → Y) (v : Y) (l : list X) :
  Forall (λ x, g x = v) l → g <$> l = replicate (length l) v.
Proof.
  induction 1 as [|x l Hx _ IH]; [done |].
  rewrite fmap_cons, Hx, IH. done.
Qed.

Lemma design_row_blocks (n i j : Z) :
  0 ≤ i → i ≤ j → j ≤ n - 1 →
  design_row n i j
  = replicate (Z.to_nat i) 0 ++ replicate (Z.to_nat (j - i)) 1
      ++ replicate (Z.to_nat (n - 1 - j)) 0.
Proof.
  intros Hi Hij Hj. unfold design_row.
  rewrite (range_app 0 i (n - 1)), (range_app i j (n - 1)) by lia.
  rewrite !fmap_app.
  pose proof (len_range 0 i) as L1. pose proof (len_range i j) as L2.
  pose proof (len_range j (n - 1)) as L3. unfold len in *.
  f_equal; [|f_equal].
  - replace (Z.to_nat i) with (length (range 0 i)) by lia.
    apply fmap_const_replicate, Forall_forall. intros c Hc.
    apply elem_of_range in Hc.
    by replace ((i <=? c) && (c <? j)) with false by (symmetry; apply andb_false_iff; lia).
  - replace (Z.to_nat (j - i)) with (length (range i j)) by lia.
    apply fmap_const_replicate, Forall_forall. intros c Hc.
    apply elem_of_range in Hc.
    by replace ((i <=? c) && (c <? j)) with true by (symmetry; apply andb_true_iff; lia).
  - replace (Z.to_nat (n - 1 - j)) with (length (range j (n - 1))) by lia.
    apply fmap_const_replicate, Forall_forall. intros c Hc.
    apply elem_of_range in Hc.
    by replace ((i <=? c) && (c <? j)) with false by (symmetry; apply andb_false_iff; lia).
Qed.

Lemma sumZ_app (l1 l2 : list Z) : sumZ (l1 ++ l2) = sumZ l1 + sumZ l2.
Proof. unfold sumZ. induction l1 as [|x l1 IH]; simpl; lia. Qed.

Lemma sumZ_replicate (k : nat) (v : Z) : sumZ (replicate k v) = Z.of_nat k * v.
Proof. unfold sumZ. induction k as [|k IH]; simpl; lia. Qed.

(** The row for [(i, j)] sums to [j - i]. *)
Lemma design_row_sum (n i j : Z) :
  0 ≤ i → i ≤ j → j ≤ n - 1 → sumZ (design_row n i j) = j - i.
Proof.
  intros Hi Hij Hj. rewrite design_row_blocks by done.
  rewrite !sumZ_app, !sumZ_replicate. lia.
Qed.

Lemma len_design_row (n i j : Z) : len (design_row n i j) = Z.max 0 (n - 1).
Proof.
  unfold design_row, len. rewrite length_fmap.
  pose proof (len_range 0 (n - 1)) as L. unfold len in L. lia.
Qed.

Lemma lookup_design_row (n i j c : Z) :
  0 ≤ c < n - 1 →
  design_row n i j !! Z.to_nat c = Some (if (i <=? c) && (c <? j) then 1 else 0).
Proof.
  intros Hc. unfold design_row, range. rewrite list_lookup_fmap.
  rewrite lookup_seqZ_lt by lia. simpl. by rewrite Z2Nat.id by lia.
Qed.

Lemma index_Ok {T : Type} (l : list T) (k : nat) (v : T) :
  l !! k = Some v → index l (Z.of_nat k) = Ok v.
Proof.
  intros Hk. pose proof (lookup_lt_Some _ _ _ Hk) as Hlt. unfold index, len.
  replace (Z.of_nat k <? 0) with false by lia.
  replace ((0 <=? Z.of_nat k) && (Z.of_nat k <? Z.of_nat (length l))) with true
    by (symmetry; apply andb_true_iff; lia).
  by rewrite Nat2Z.id, Hk.
Qed.

Lemma index_Ok_Z {T : Type} (l : list T) (i : Z) (v : T) :
  0 ≤ i → l !! Z.to_nat i = Some v → index l i = Ok v.
Proof. intros Hi Hv. rewrite <- (Z2Nat.id i) by done. by apply index_Ok. Qed.

Lemma set_index_Ok {T : Type} (l : list T) (k : nat) (v : T) :
  (k < length l)%nat → set_index l (Z.of_nat k) v = Ok (<[k := v]> l).
Proof.
  intros Hlt. unfold set_index, len.
  replace (Z.of_nat k <? 0) with false by lia.
  replace ((0 <=? Z.of_nat k) && (Z.of_nat k <? Z.of_nat (length l))) with true
    by (symmetry; apply andb_true_iff; lia).
  by rewrite Nat2Z.id.
Qed.

Lemma insert_middle {T : Type} (l1 l2 : list T) (x y : T) :
  <[length l1 := y]> (l1 ++ x :: l2) = l1 ++ y :: l2.
Proof. rewrite insert_app_r_alt by lia. by rewrite Nat.sub_diag. Qed.

Section RccLoop.
Context {FL : Float64} {NP : NumPy FL} {LM : LmFit FL}.

Lemma rcc_pair_eq segments max_shift i j (rij A : matrix F) (flag : Z) :
  rcc_pair segments max_shift i (rij, A, flag) j
  = (s ← pair_shift segments max_shift (i, j);
     rij ← set_item2 rij flag 0 s.1;
     rij ← set_item2 rij flag 1 s.2;
     A ← fill_item2 A flag i j f1;
     Ok (rij, A, flag + 1)).
Proof.
  unfold rcc_pair, pair_shift. cbv [mbind result_bind]. cbn [fst snd].
  destruct (index segments i) as [si|]; [|done].
  destruct (index segments j) as [sj|]; [|done].
  by destruct (get_image_shift si sj 5 max_shift) as [[dy dx]|].
Qed.

Lemma slice_fill_zeros (n i j : Z) :
  0 ≤ i → i ≤ j → j ≤ n - 1 →
  slice_fill i j f1 (replicate (Z.to_nat (n - 1)) f0)
  = of_bit <$> design_row n i j.
Proof.
  intros Hi Hij Hj. rewrite design_row_blocks by done.
  rewrite !fmap_app, !fmap_replicate. unfold of_bit at 1 2 3. simpl.
  unfold slice_fill, len. rewrite length_replicate.
  rewrite !slice_bound_nonneg by lia.
  rewrite take_replicate, drop_replicate.
  f_equal; [f_equal; lia |]. f_equal. f_equal. lia.
Qed.

(** One iteration on a state whose rows from [flag] on are still zero. *)
Lemma rcc_pair_step segments max_shift n i j s (R D : matrix F) (m : nat) :
  pair_shift segments max_shift (i, j) = Ok s →
  0 ≤ i → i ≤ j → j ≤ n - 1 →
  length R = length D →
  rcc_pair segments max_shift i
    (R ++ replicate (S m) [f0; f0],
     D ++ replicate (S m) (replicate (Z.to_nat (n - 1)) f0),
     len R) j
  = Ok ((R ++ [rhs_row s]) ++ replicate m [f0; f0],
        (D ++ [of_bit <$> design_row n i j])
          ++ replicate m (replicate (Z.to_nat (n - 1)) f0),
        len (R ++ [rhs_row s])).
Proof.
  intros Hs Hi Hij Hj HRD. rewrite rcc_pair_eq, Hs.
  rewrite !replicate_S. unfold set_item2, fill_item2, len.
  cbv [mbind result_bind].
  rewrite (index_Ok _ _ [f0; f0]) by by rewrite lookup_app_r, Nat.sub_diag.
  cbv [mbind result_bind].
  change 0 with (Z.of_nat 0). rewrite set_index_Ok by (simpl; lia).
  cbv [mbind result_bind].
  rewrite set_index_Ok by (rewrite length_app; simpl; lia).
  rewrite insert_middle. cbv [mbind result_bind].
  rewrite (index_Ok _ _ [s.1; f0]) by by rewrite lookup_app_r, Nat.sub_diag.
  cbv [mbind result_bind].
  change 1 with (Z.of_nat 1). rewrite set_index_Ok by (simpl; lia).
  cbv [mbind result_bind].
  rewrite set_index_Ok by (rewrite length_app; simpl; lia).
  rewrite insert_middle. cbv [mbind result_bind].
  rewrite HRD.
  rewrite (index_Ok _ _ (replicate (Z.to_nat (n - 1)) f0))
    by by rewrite lookup_app_r, Nat.sub_diag.
  cbv [mbind result_bind].
  rewrite set_index_Ok by (rewrite length_app; simpl; lia).
  rewrite insert_middle, slice_fill_zeros by done.
  rewrite <- !app_assoc. simpl. do 2 f_equal.
  rewrite length_app. simpl. lia.
Qed.
End RccLoop.

Section RccSystem.
Context {FL : Float64} {NP : NumPy FL} {LM : LmFit FL}.

Lemma rcc_pairs_run segments max_shift n (ps : list (Z * Z)) (shifts : list (F * F)) :
  Forall2 (λ p s, pair_shift segments max_shift p = Ok s) ps shifts →
  Forall (pair_ok n) ps →
  ∀ (R D : matrix F) (m : nat), length R = length D →
  foldM (λ st p, rcc_pair segments max_shift p.1 st p.2) ps
    (R ++ replicate (length ps + m) [f0; f0],
     D ++ replicate (length ps + m) (replicate (Z.to_nat (n - 1)) f0),
     len R)
  = Ok ((R ++ rhs_matrix shifts) ++ replicate m [f0; f0],
        (D ++ design_matrix n ps) ++ replicate m (replicate (Z.to_nat (n - 1)) f0),
        len R + len ps).
Proof.
  induction 1 as [|p s ps shifts Hs _ IH]; intros Hok R D m HRD.
  - simpl. unfold len. simpl. by rewrite !app_nil_r, Z.add_0_r.
  - inversion Hok as [|? ? (Hi & Hij & Hj) Hok']; subst.
    destruct p as [i j]. cbn [foldM fst snd length Nat.add] in *.
    rewrite (rcc_pair_step _ _ n i j s) by done.
    cbv [mbind result_bind].
    assert (length (R ++ [rhs_row s]) = length (D ++ [of_bit <$> design_row n i j]))
      as HRD' by (rewrite !length_app; simpl; lia).
    rewrite (IH Hok' _ _ m HRD').
    unfold rhs_matrix, design_matrix. rewrite !fmap_cons.
    replace (len (R ++ [rhs_row s]) + len ps) with (len R + len ((i, j) :: ps))
      by (unfold len; rewrite length_app; simpl; lia).
    by rewrite <- !app_assoc.
Qed.

(** The first pair whose shift estimation raises ends the loop, after the
    rows of the pairs before it have been written. *)
Lemma rcc_pairs_fail segments max_shift n (ps : list (Z * Z)) (shifts : list (F * F))
    (p : Z * Z) (rest : list (Z * Z)) (e : exn) :
  Forall2 (λ p s, pair_shift segments max_shift p = Ok s) ps shifts →
  Forall (pair_ok n) ps →
  pair_shift segments max_shift p = Raise e →
  foldM (λ st p, rcc_pair segments max_shift p.1 st p.2) (ps ++ p :: rest)
    (replicate (length (ps ++ p :: rest)) [f0; f0],
     replicate (length (ps ++ p :: rest)) (replicate (Z.to_nat (n - 1)) f0),
     0)
  = Raise e.
Proof.
  intros Hs Hok He. rewrite foldM_app, length_app.
  pose proof (rcc_pairs_run _ _ n ps shifts Hs Hok [] [] (length (p :: rest)) eq_refl)
    as Hrun.
  rewrite !app_nil_l in Hrun. change (len (@nil (list F))) with 0 in Hrun.
  rewrite Hrun. cbv [mbind result_bind].
  destruct p as [i j]. cbn [foldM fst snd]. by rewrite rcc_pair_eq, He.
Qed.

Lemma int_half_pairs (n : Z) : 0 ≤ n → int_half (n * (n - 1)) = len (pairs n).
Proof.
  intros Hn. rewrite len_pairs by done.
  destruct (decide (n = 0)) as [->|]; [done |].
  apply int_half_floor. nia.
Qed.

Lemma rcc_system_loops segments max_shift :
  1 ≤ len segments →
  rcc_system segments max_shift
  = foldM (λ st p, rcc_pair segments max_shift p.1 st p.2) (pairs (len segments))
      (replicate (length (pairs (len segments))) [f0; f0],
       replicate (length (pairs (len segments)))
         (replicate (Z.to_nat (len segments - 1)) f0),
       0).
Proof.
  intros HN. unfold rcc_system, rcc_loops.
  rewrite int_half_pairs by lia. unfold zeros.
  pose proof (len_nonneg (pairs (len segments))) as Hp.
  replace ((len (pairs (len segments)) <? 0) || (2 <? 0)) with false
    by (symmetry; apply orb_false_iff; lia).
  replace ((len (pairs (len segments)) <? 0) || (len segments - 1 <? 0)) with false
    by (symmetry; apply orb_false_iff; lia).
  cbv [mbind result_bind].
  rewrite (foldM_nested (rcc_pair segments max_shift)).
  replace (Z.to_nat (len (pairs (len segments))))
    with (length (pairs (len segments))) by (unfold len; lia).
  done.
Qed.
End RccSystem.

Lemma Forall_exists_Forall2 {X Y : Type} (R : X → Y → Prop) (l : list X) :
  Forall (λ x, ∃ y, R x y) l → ∃ k, Forall2 R l k.
Proof.
  induction 1 as [|x l [y Hy] _ [k Hk]]; [by exists [] |].
  exists (y :: k). by constructor.
Qed.

Section DesignMatrix.
Context {FL : Float64} {NP : NumPy FL} {LM : LmFit FL}.

Lemma pairs_ok (n : Z) : Forall (pair_ok n) (pairs n).
Proof.
  apply Forall_forall. intros [i j] Hp.
  apply elem_of_pairs_from in Hp; [|done]. unfold pair_ok. simpl. lia.
Qed.

(** The system that [rcc] builds when every pair gives a shift. *)
Lemma rcc_system_Ok segments max_shift (shifts : list (F * F)) :
  1 ≤ len segments →
  Forall2 (λ p s, pair_shift segments max_shift p = Ok s) (pairs (len segments)) shifts →
  rcc_system segments max_shift
  = Ok (rhs_matrix shifts, design_matrix (len segments) (pairs (len segments)),
        len (pairs (len segments))).
Proof.
  intros HN Hs. rewrite rcc_system_loops by done.
  pose proof (rcc_pairs_run _ _ (len segments) _ _ Hs (pairs_ok _) [] [] 0%nat eq_refl)
    as Hrun.
  rewrite Nat.add_0_r, !app_nil_l in Hrun. simpl in Hrun.
  rewrite !app_nil_r in Hrun. change (len (@nil (list F))) with 0 in Hrun.
  by rewrite Hrun, Z.add_0_l.
Qed.

(** C2.  For [N >= 2] segments whose pairs all give a shift, [rcc] builds a
    design matrix with [N(N-1)/2] rows and [N-1] columns; the pairs
    [(i, j)], [0 <= i < j < N], are enumerated in lexicographic order; row
    [k] of the design matrix belongs to the [k]-th pair [(i, j)], has 1 in
    the columns [i .. j-1] and 0 elsewhere, so that it sums to [j - i];
    and row [k] of the right-hand side is the shift of the [k]-th pair. *)
Theorem design_matrix_layout segments max_shift :
  let N := len segments in
  2 ≤ N →
  (∀ i j, 0 ≤ i ∧ i < j ∧ j < N → ∃ s, pair_shift segments max_shift (i, j) = Ok s) →
  ∃ rij A : matrix F,
    rcc_system segments max_shift = Ok (rij, A, N * (N - 1) / 2)
    ∧ len A = N * (N - 1) / 2
    ∧ len rij = N * (N - 1) / 2
    ∧ Forall (λ row, len row = N - 1) A
    ∧ len (pairs N) = N * (N - 1) / 2
    ∧ (∀ i j, (i, j) ∈ pairs N ↔ 0 ≤ i ∧ i < j ∧ j < N)
    ∧ (∀ (k1 k2 : nat) p q, (k1 < k2)%nat →
         pairs N !! k1 = Some p → pairs N !! k2 = Some q → lex_lt p q)
    ∧ ∀ (k : nat) i j, pairs N !! k = Some (i, j) →
        (∃ row, A !! k = Some row
           ∧ row = of_bit <$> design_row N i j
           ∧ ∀ c, 0 ≤ c < N - 1 →
               row !! Z.to_nat c = Some (if (i <=? c) && (c <? j) then f1 else f0))
        ∧ sumZ (design_row N i j) = j - i
        ∧ ∃ s, pair_shift segments max_shift (i, j) = Ok s
               ∧ rij !! k = Some [s.1; s.2].
Proof.
  intros N HN Hall.
  assert (∃ shifts, Forall2 (λ p s, pair_shift segments max_shift p = Ok s)
                      (pairs N) shifts) as [shifts Hs].
  { apply Forall_exists_Forall2, Forall_forall. intros [i j] Hp.
    apply Hall. apply elem_of_pairs_from in Hp; lia. }
  pose proof (len_pairs N ltac:(lia)) as Hlen.
  exists (rhs_matrix shifts), (design_matrix N (pairs N)).
  split; [by rewrite <- Hlen; apply rcc_system_Ok; [lia |] |].
  split; [by unfold design_matrix, len; rewrite length_fmap |].
  split.
  { unfold rhs_matrix, len. rewrite length_fmap, <- (Forall2_length _ _ _ Hs).
    exact Hlen. }
  split.
  { unfold design_matrix. apply Forall_fmap, Forall_forall. intros p _. simpl.
    unfold len. rewrite length_fmap. fold (len (design_row N p.1 p.2)).
    rewrite len_design_row. lia. }
  split; [done |].
  split; [intros i j; unfold pairs; rewrite elem_of_pairs_from; lia |].
  split; [by apply pairs_from_sorted |].
  intros k i j Hk.
  assert (0 ≤ i < j ∧ j < N) as [Hij HjN].
  { apply list_elem_of_lookup_2, elem_of_pairs_from in Hk; lia. }
  split; [|split].
  - exists (of_bit <$> design_row N i j).
    split; [by unfold design_matrix; rewrite list_lookup_fmap, Hk |].
    split; [done |]. intros c Hc.
    rewrite list_lookup_fmap, lookup_design_row by done. simpl.
    unfold of_bit. by destruct ((i <=? c) && (c <? j)).
  - apply design_row_sum; lia.
  - destruct (Forall2_lookup_l _ _ _ _ _ Hs Hk) as (s & Hsk & Hps).
    exists s. split; [done |].
    by unfold rhs_matrix; rewrite list_lookup_fmap, Hsk.
Qed.
End DesignMatrix.

(** ** The solve and the trajectory *)

Section Trajectory.
Context {FL : Float64} {NP : NumPy FL} {LM : LmFit FL}.

Lemma length_cumsum_from (acc : F) (l : list F) :
  length (cumsum_from acc l) = length l.
Proof. revert acc. induction l as [|x l IH]; intros acc; simpl; [done | by rewrite IH]. Qed.

Lemma length_cumsum (l : list F) : length (cumsum l) = length l.
Proof. destruct l as [|x l]; simpl; [done | by rewrite length_cumsum_from]. Qed.

Lemma lookup_cumsum_from (acc : F) (l : list F) (k : nat) :
  (k < length l)%nat →
  cumsum_from acc l !! k = Some (fold_left fadd (take (S k) l) acc).
Proof.
  revert acc k. induction l as [|x l IH]; intros acc k Hk; simpl in Hk; [lia |].
  destruct k as [|k]; simpl; [done |].
  by rewrite IH by lia.
Qed.

(** Entry [k] of the trajectory is the sum of the first [k] increments. *)
Lemma lookup_trajectory (D : list F) (k : nat) :
  (k ≤ length D)%nat → (f0 :: cumsum D) !! k = Some (lsum (take k D)).
Proof.
  intros Hk. destruct k as [|k]; [done |]. simpl.
  destruct D as [|x D]; simpl in Hk; [lia |]. simpl.
  destruct k as [|k]; simpl; [done |].
  by rewrite lookup_cumsum_from by lia.
Qed.

Lemma trajectory_from_cumsum (t : F) (D : list F) :
  trajectory_from t D = t :: cumsum_from t D.
Proof. revert t. induction D as [|d D IH]; intros t; simpl; [done | by rewrite IH]. Qed.

Lemma trajectory_refines (D : list F) :
  (∀ x : F, fadd f0 x = x) → f0 :: cumsum D = trajectory_spec D.
Proof.
  intros H0. unfold trajectory_spec. destruct D as [|d D]; [done |].
  simpl. by rewrite H0, trajectory_from_cumsum.
Qed.

Lemma column_Ok (c : nat) (m : matrix F) (col : list F) :
  Forall2 (λ row v, row !! c = Some v) m col → column c m = Ok col.
Proof.
  unfold column. induction 1 as [|row v m col Hv _ IH]; [done |].
  cbn [mapM_res]. rewrite (index_Ok _ _ _ Hv). cbv [mbind result_bind].
  fold (mapM_res (λ row, index row (Z.of_nat c)) m). by rewrite IH.
Qed.

Lemma column_fmap {X : Type} (c : nat) (g : X → list F) (h : X → F) (l : list X) :
  (∀ x, g x !! c = Some (h x)) → column c (g <$> l) = Ok (h <$> l).
Proof.
  intros Hg. apply column_Ok. apply Forall2_fmap, Forall_Forall2_diag, Forall_forall.
  intros x _. apply Hg.
Qed.

(** [np.dot(P, rij)] for a right-hand side with two columns. *)
Lemma dot_rhs (P : matrix F) (shifts : list (F * F)) (h : Z) :
  0 < h → shifts ≠ [] → rect h (len shifts) P →
  dot P (rhs_matrix shifts)
  = Ok ((λ row, [dot1 row (fst <$> shifts); dot1 row (snd <$> shifts)]) <$> P).
Proof.
  intros Hh Hne HR. unfold dot.
  rewrite (rect_shape _ _ _ HR Hh).
  assert (shape (rhs_matrix shifts) = (len shifts, 2)) as ->.
  { unfold shape, rhs_matrix, len. rewrite length_fmap.
    by destruct shifts as [|s shifts]. }
  cbn [fst snd]. rewrite Z.eqb_refl.
  change (seq 0 (Z.to_nat 2)) with [0%nat; 1%nat]. cbn [mapM_res].
  unfold rhs_matrix.
  rewrite (column_fmap 0 rhs_row fst) by done.
  rewrite (column_fmap 1 rhs_row snd) by done.
  done.
Qed.
End Trajectory.

Section TrajectoryClaim.
Context {FL : Float64} {NP : NumPy FL} {LM : LmFit FL}.

Lemma rcc_solve_Ok (P : matrix F) (n : Z) (shifts : list (F * F)) (h : Z) :
  0 < h → shifts ≠ [] → rect h (len shifts) P →
  pinv (design_matrix n (pairs n)) = Ok P →
  let Dy := (λ row, dot1 row (fst <$> shifts)) <$> P in
  let Dx := (λ row, dot1 row (snd <$> shifts)) <$> P in
  rcc_solve (design_matrix n (pairs n)) (rhs_matrix shifts)
  = Ok (f0 :: cumsum Dy, f0 :: cumsum Dx).
Proof.
  intros Hh Hne HR HP Dy Dx. unfold rcc_solve. rewrite HP.
  cbv [mbind result_bind]. rewrite (dot_rhs P shifts h) by done.
  rewrite (column_fmap 0 _ (λ row, dot1 row (fst <$> shifts))) by done.
  by rewrite (column_fmap 1 _ (λ row, dot1 row (snd <$> shifts))) by done.
Qed.

(** C1.  For [N >= 2] segments whose pairs all give a shift, and a
    pseudo-inverse of the design matrix [A] of the transposed shape, [rcc]
    returns two sequences of length [N] that start with 0; their entry [k]
    is the sum of the first [k] entries of the matching column of
    [D = pinv(A) . rij], that is the trajectory [t[0] = 0],
    [t[k] = t[k-1] + D[k-1]] of the specification. *)
Theorem rcc_trajectory segments max_shift :
  let N := len segments in
  2 ≤ N →
  (∀ i j, 0 ≤ i ∧ i < j ∧ j < N → ∃ s, pair_shift segments max_shift (i, j) = Ok s) →
  (∃ P, pinv (design_matrix N (pairs N)) = Ok P
        ∧ rect (N - 1) (N * (N - 1) / 2) P) →
  ∃ (rij A P D : matrix F) (Dy Dx : list F),
    rcc_system segments max_shift = Ok (rij, A, N * (N - 1) / 2)
    ∧ pinv A = Ok P
    ∧ dot P rij = Ok D
    ∧ column 0 D = Ok Dy ∧ column 1 D = Ok Dx
    ∧ len Dy = N - 1 ∧ len Dx = N - 1
    ∧ rcc segments max_shift = Ok (f0 :: cumsum Dy, f0 :: cumsum Dx)
    ∧ len (f0 :: cumsum Dy) = N ∧ len (f0 :: cumsum Dx) = N
    ∧ (f0 :: cumsum Dy) !! 0%nat = Some f0 ∧ (f0 :: cumsum Dx) !! 0%nat = Some f0
    ∧ (∀ k : nat, Z.of_nat k < N →
         (f0 :: cumsum Dy) !! k = Some (lsum (take k Dy))
         ∧ (f0 :: cumsum Dx) !! k = Some (lsum (take k Dx)))
    ∧ ((∀ x : F, fadd f0 x = x) →
         f0 :: cumsum Dy = trajectory_spec Dy
         ∧ f0 :: cumsum Dx = trajectory_spec Dx).
Proof.
  intros N HN Hall (P & HP & HR).
  assert (∃ shifts, Forall2 (λ p s, pair_shift segments max_shift p = Ok s)
                      (pairs N) shifts) as [shifts Hs].
  { apply Forall_exists_Forall2, Forall_forall. intros [i j] Hp.
    apply Hall. apply elem_of_pairs_from in Hp; lia. }
  pose proof (len_pairs N ltac:(lia)) as Hlen.
  assert (len shifts = N * (N - 1) / 2) as Hshifts
    by (unfold len in *; by rewrite <- (Forall2_length _ _ _ Hs)).
  assert (1 ≤ N * (N - 1) / 2) as Hpos
    by (apply Z.div_le_lower_bound; nia).
  assert (shifts ≠ []) as Hne
    by (intros ->; unfold len in Hshifts; simpl in Hshifts; lia).
  rewrite <- Hshifts in HR.
  pose proof (rcc_system_Ok segments max_shift shifts ltac:(lia) Hs) as Hsys.
  fold N in Hsys. rewrite Hlen in Hsys.
  pose proof (rcc_solve_Ok P N shifts (N - 1) ltac:(lia) Hne HR HP) as Hsolve.
  cbv zeta in Hsolve.
  set (Dy := (λ row, dot1 row (fst <$> shifts)) <$> P) in *.
  set (Dx := (λ row, dot1 row (snd <$> shifts)) <$> P) in *.
  assert (len Dy = N - 1 ∧ len Dx = N - 1) as [HDy HDx].
  { destruct HR as [HR _]. subst Dy Dx. unfold len in *.
    by rewrite !length_fmap. }
  exists (rhs_matrix shifts), (design_matrix N (pairs N)), P,
    ((λ row, [dot1 row (fst <$> shifts); dot1 row (snd <$> shifts)]) <$> P), Dy, Dx.
  split; [done |]. split; [done |].
  split; [by apply (dot_rhs P shifts (N - 1)); [lia | |] |].
  split; [by apply column_fmap |]. split; [by apply column_fmap |].
  split; [done |]. split; [done |].
  split; [by unfold rcc; rewrite Hsys |].
  split; [unfold len in *; simpl; rewrite length_cumsum; lia |].
  split; [unfold len in *; simpl; rewrite length_cumsum; lia |].
  split; [done |]. split; [done |].
  split.
  - intros k Hk. unfold len in *.
    split; apply lookup_trajectory; lia.
  - intros H0. split; by apply trajectory_refines.
Qed.
End TrajectoryClaim.

(** ** [xcorr] *)

Lemma half_split (n : Z) : (n + 1) / 2 + n / 2 = n.
Proof. Z.div_mod_to_equations. lia. Qed.

Lemma length_fftshift1 {T : Type} (l : list T) : length (fftshift1 l) = length l.
Proof.
  unfold fftshift1. rewrite length_app, length_drop, length_take.
  pose proof (half_split (len l)). pose proof (Z.div_pos (len l) 2).
  unfold len in *. lia.
Qed.

(** The shift moves entry [k] to [(k + n/2) mod n]: the entry 0 goes to the
    middle [n/2]. *)
Lemma lookup_fftshift1 {T : Type} (l : list T) (k : Z) :
  0 ≤ k < len l →
  fftshift1 l !! Z.to_nat ((k + len l / 2) mod len l) = l !! Z.to_nat k.
Proof.
  intros Hk. unfold fftshift1.
  pose proof (half_split (len l)) as Hs.
  assert (0 ≤ len l / 2) as Hh by (apply Z.div_pos; lia).
  assert (0 ≤ (len l + 1) / 2) as Hp by (apply Z.div_pos; lia).
  destruct (decide (k < (len l + 1) / 2)) as [Hlt|Hge].
  - rewrite Z.mod_small by lia.
    rewrite lookup_app_r by (rewrite length_drop; unfold len in *; lia).
    rewrite length_drop, lookup_take_lt by (unfold len in *; lia).
    f_equal. unfold len in *. lia.
  - replace ((k + len l / 2) mod len l) with (k - (len l + 1) / 2).
    2:{ apply Z.mod_unique with 1; lia. }
    rewrite lookup_app_l by (rewrite length_drop; unfold len in *; lia).
    rewrite lookup_drop. f_equal. lia.
Qed.

Lemma rect_fmap_rows {T U : Type} (H W : Z) (g : list T → list U) (m : matrix T) :
  (∀ r, len (g r) = len r) → rect H W m → rect H W (g <$> m).
Proof.
  intros Hg [HH Hr]. split.
  - unfold len in *. by rewrite length_fmap.
  - apply Forall_fmap. eapply Forall_impl; [exact Hr |].
    intros r Hlen. simpl. by rewrite Hg.
Qed.

Lemma rect_mmap {T U : Type} (H W : Z) (f : T → U) (m : matrix T) :
  rect H W m → rect H W (mmap f m).
Proof.
  apply rect_fmap_rows. intros r. unfold len. by rewrite length_fmap.
Qed.

Lemma rect_fftshift {T : Type} (H W : Z) (m : matrix T) :
  rect H W m → rect H W (fftshift m).
Proof.
  intros HR. unfold fftshift. apply rect_fmap_rows.
  - intros r. unfold len. by rewrite length_fftshift1.
  - destruct HR as [HH Hr]. split.
    + unfold len in *. by rewrite length_fftshift1.
    + unfold fftshift1. apply Forall_app. split; [by apply Forall_drop | by apply Forall_take].
Qed.

Lemma pixel_mmap {T U : Type} (f : T → U) (m : matrix T) (r c : Z) :
  pixel (mmap f m) r c = f <$> pixel m r c.
Proof.
  unfold pixel, mmap. destruct ((0 <=? r) && (0 <=? c)); [|done].
  rewrite list_lookup_fmap. destruct (m !! Z.to_nat r) as [row|]; simpl; [|done].
  by rewrite list_lookup_fmap.
Qed.

Lemma pixel_fftshift {T : Type} (H W : Z) (m : matrix T) (r c : Z) :
  rect H W m → 0 ≤ r < H → 0 ≤ c < W →
  pixel (fftshift m) ((r + H / 2) mod H) ((c + W / 2) mod W) = pixel m r c.
Proof.
  intros HR Hr Hc. unfold pixel.
  pose proof (Z.mod_pos_bound (r + H / 2) H ltac:(lia)).
  pose proof (Z.mod_pos_bound (c + W / 2) W ltac:(lia)).
  replace (0 <=? (r + H / 2) mod H) with true by lia.
  replace (0 <=? (c + W / 2) mod W) with true by lia.
  replace (0 <=? r) with true by lia. replace (0 <=? c) with true by lia. simpl.
  unfold fftshift. rewrite list_lookup_fmap.
  rewrite <- (rect_len _ _ _ HR) at 1 2. rewrite lookup_fftshift1
    by (rewrite (rect_len _ _ _ HR); lia).
  destruct (m !! Z.to_nat r) as [row|] eqn:Erow; simpl; [|done].
  pose proof (rect_row _ _ _ _ _ HR Erow) as Hlen.
  rewrite <- Hlen at 1 2. apply lookup_fftshift1. lia.
Qed.

Lemma broadcast_axis_id {T : Type} (l : list T) : broadcast_axis (len l) l = l.
Proof. by destruct l as [|x [|y l]]. Qed.

(** On two arrays of one shape the broadcast operation is element-wise. *)
Lemma broadcast2_same_shape {T U V : Type} (op : T → U → V) (H W : Z)
    (a : matrix T) (b : matrix U) :
  0 < H → rect H W a → rect H W b →
  broadcast2 op a b = Ok (zip_with (zip_with op) a b).
Proof.
  intros HH Ha Hb. unfold broadcast2.
  rewrite (rect_shape _ _ _ Ha HH), (rect_shape _ _ _ Hb HH).
  unfold compatible. rewrite !Z.eqb_refl. simpl.
  assert (∀ x, bdim x x = x) as Hbd by (intros x; unfold bdim; by destruct (x =? 1)).
  rewrite !Hbd. do 2 f_equal.
  - unfold broadcast_to. rewrite <- (rect_len _ _ _ Ha) at 1. rewrite broadcast_axis_id.
    destruct Ha as [_ Hr]. apply list_eq. intros i. rewrite list_lookup_fmap.
    destruct (a !! i) as [row|] eqn:E; simpl; [|done].
    by rewrite <- (Forall_lookup_1 _ _ _ _ Hr E), broadcast_axis_id.
  - unfold broadcast_to. rewrite <- (rect_len _ _ _ Hb) at 1. rewrite broadcast_axis_id.
    destruct Hb as [_ Hr]. apply list_eq. intros i. rewrite list_lookup_fmap.
    destruct (b !! i) as [row|] eqn:E; simpl; [|done].
    by rewrite <- (Forall_lookup_1 _ _ _ _ Hr E), broadcast_axis_id.
Qed.

Lemma rect_zip_with {T U V : Type} (op : T → U → V) (H W : Z)
    (a : matrix T) (b : matrix U) :
  rect H W a → rect H W b → rect H W (zip_with (zip_with op) a b).
Proof.
  intros [Ha Hra] [Hb Hrb]. split.
  - unfold len in *. rewrite length_zip_with. lia.
  - apply Forall_forall. intros row Hrow.
    apply list_elem_of_lookup in Hrow as [i Hi].
    apply lookup_zip_with_Some in Hi as (ra & rb & -> & Ea & Eb).
    pose proof (Forall_lookup_1 _ _ _ _ Hra Ea) as La.
    pose proof (Forall_lookup_1 _ _ _ _ Hrb Eb) as Lb.
    simpl in *. unfold len in *. rewrite length_zip_with. lia.
Qed.

Lemma pixel_zip_with {T U V : Type} (op : T → U → V)
    (a : matrix T) (b : matrix U) (r c : Z) (x : T) (y : U) :
  pixel a r c = Some x → pixel b r c = Some y →
  pixel (zip_with (zip_with op) a b) r c = Some (op x y).
Proof.
  unfold pixel. destruct ((0 <=? r) && (0 <=? c)); [|done].
  destruct (a !! Z.to_nat r) as [ra|] eqn:Ea; simpl; [|done].
  destruct (b !! Z.to_nat r) as [rb|] eqn:Eb; simpl; [|done].
  intros Hx Hy.
  assert (zip_with (zip_with op) a b !! Z.to_nat r = Some (zip_with op ra rb)) as ->
    by (apply lookup_zip_with_Some; eauto).
  simpl. apply lookup_zip_with_Some. eauto.
Qed.

Section CrossCorrelator.
Context {FL : Float64} {NP : NumPy FL} {LM : LmFit FL} {FS : FFTShape FL NP}.

Lemma size_rect {T : Type} (H W : Z) (m : matrix T) :
  rect H W m → 0 ≤ W → size m = H * W.
Proof. apply len_concat_rect. Qed.

(** C8.  For two [H]x[W] images whose transforms [FA], [FB] and the
    inverse transform [lag] of [FA . conj(FB)] are computed, [xcorr]
    returns an [H]x[W] surface; the entry [(r, c)] of the real part of
    [lag], divided by [sqrt(H W)], is found at
    [((r + H/2) mod H, (c + W/2) mod W)], so that the zero lag sits at the
    centre [(H/2, W/2)].  The result is a function of the two images. *)
Theorem xcorr_formula imageA imageB (H W : Z) FA FB lag :
  0 < H → 0 < W →
  rect H W imageA → rect H W imageB →
  fft2 imageA = Ok FA → fft2 imageB = Ok FB →
  ifft2 (zip_with (zip_with cmul) FA (mmap cconj FB)) = Ok lag →
  ∃ S, xcorr imageA imageB = Ok S
    ∧ rect H W S
    ∧ (∀ r c a b, pixel FA r c = Some a → pixel FB r c = Some b →
         pixel (zip_with (zip_with cmul) FA (mmap cconj FB)) r c
         = Some (cmul a (cconj b)))
    ∧ (∀ r c z, 0 ≤ r < H → 0 ≤ c < W → pixel lag r c = Some z →
         pixel S ((r + H / 2) mod H) ((c + W / 2) mod W)
         = Some (fdiv (creal z) (fsqrt (of_int (H * W)))))
    ∧ (∀ z, pixel lag 0 0 = Some z →
         pixel S (H / 2) (W / 2) = Some (fdiv (creal z) (fsqrt (of_int (H * W))))).
Proof.
  intros HH HW HA HB EA EB Elag.
  pose proof (fft2_shape _ _ _ _ HA EA) as HFA.
  pose proof (fft2_shape _ _ _ _ HB EB) as HFB.
  pose proof (rect_mmap _ _ cconj _ HFB) as HCB.
  pose proof (rect_zip_with cmul _ _ _ _ HFA HCB) as Hcross.
  pose proof (ifft2_shape _ _ _ _ Hcross Elag) as Hlag.
  assert (xcorr imageA imageB
          = Ok (mmap (λ v, fdiv v (fsqrt (of_int (H * W))))
                  (fftshift (mmap creal lag)))) as HX.
  { unfold xcorr. rewrite EA, EB. cbv [mbind result_bind].
    rewrite (broadcast2_same_shape cmul H W) by done.
    rewrite Elag. by rewrite (size_rect H W) by (done || lia). }
  assert (∀ r c z, 0 ≤ r < H → 0 ≤ c < W → pixel lag r c = Some z →
            pixel (mmap (λ v, fdiv v (fsqrt (of_int (H * W))))
                     (fftshift (mmap creal lag)))
              ((r + H / 2) mod H) ((c + W / 2) mod W)
            = Some (fdiv (creal z) (fsqrt (of_int (H * W))))) as Hpix.
  { intros r c z Hr Hc Hz.
    rewrite pixel_mmap, (pixel_fftshift H W) by (done || by apply rect_mmap).
    by rewrite pixel_mmap, Hz. }
  eexists. split; [exact HX |].
  split; [by apply rect_mmap, rect_fftshift, rect_mmap |].
  split.
  { intros r c a b Ha Hb. apply pixel_zip_with; [done |].
    by rewrite pixel_mmap, Hb. }
  split; [exact Hpix |].
  intros z Hz. specialize (Hpix 0 0 z ltac:(lia) ltac:(lia) Hz).
  rewrite !Z.add_0_l in Hpix.
  rewrite !Z.mod_small in Hpix by (Z.div_mod_to_equations; lia). done.
Qed.

Lemma xcorr_rect imageA imageB (H W : Z) XCorr :
  0 < H → 0 < W → rect H W imageA → rect H W imageB →
  xcorr imageA imageB = Ok XCorr → rect H W XCorr.
Proof.
  intros HH HW HA HB. unfold xcorr.
  destruct (fft2 imageA) as [FA|] eqn:EA; [|done].
  destruct (fft2 imageB) as [FB|] eqn:EB; [|done].
  cbv [mbind result_bind].
  pose proof (fft2_shape _ _ _ _ HA EA) as HFA.
  pose proof (fft2_shape _ _ _ _ HB EB) as HFB.
  pose proof (rect_mmap _ _ cconj _ HFB) as HCB.
  rewrite (broadcast2_same_shape cmul H W) by done.
  destruct (ifft2 _) as [lag|] eqn:Elag; [|done].
  intros [= <-].
  apply rect_mmap, rect_fftshift, rect_mmap.
  eapply ifft2_shape; [|exact Elag]. by apply rect_zip_with.
Qed.

(** Shapes that NumPy cannot broadcast: the product of the two transforms
    raises. *)
Lemma xcorr_incompatible imageA imageB (Ha Wa Hb Wb : Z) FA FB :
  0 < Ha → 0 < Hb →
  rect Ha Wa imageA → rect Hb Wb imageB →
  compatible Ha Hb && compatible Wa Wb = false →
  fft2 imageA = Ok FA → fft2 imageB = Ok FB →
  xcorr imageA imageB = Raise BroadcastError.
Proof.
  intros HHa HHb HA HB Hinc EA EB. unfold xcorr. rewrite EA, EB.
  cbv [mbind result_bind].
  pose proof (fft2_shape _ _ _ _ HA EA) as HFA.
  pose proof (rect_mmap _ _ cconj _ (fft2_shape _ _ _ _ HB EB)) as HCB.
  unfold broadcast2.
  rewrite (rect_shape _ _ _ HFA HHa), (rect_shape _ _ _ HCB HHb).
  by rewrite Hinc.
Qed.
End CrossCorrelator.

(** ** Errors in [rcc] *)

Section RccErrors.
Context {FL : Float64} {NP : NumPy FL} {LM : LmFit FL} {FS : FFTShape FL NP}.

(** C3, as amended.  There is no shape check of its own: two images whose
    shapes NumPy cannot broadcast (an axis with different extents, neither
    of them 1) make [xcorr] and [get_image_shift] raise NumPy's
    broadcasting error.  In [rcc] this happens when the pair is reached:
    the matrices are allocated and the rows of the pairs before it are
    written by then, and the pseudo-inverse is not computed. *)
Theorem shape_mismatch_in_rcc segments max_shift
    (ps rest : list (Z * Z)) (i j : Z) (shifts : list (F * F))
    (si sj : matrix F) (Hi Wi Hj Wj : Z) FA FB :
  1 ≤ len segments →
  pairs (len segments) = ps ++ (i, j) :: rest →
  Forall2 (λ p s, pair_shift segments max_shift p = Ok s) ps shifts →
  segments !! Z.to_nat i = Some si →
  segments !! Z.to_nat j = Some sj →
  0 < Hi → 0 < Hj → rect Hi Wi si → rect Hj Wj sj →
  compatible Hi Hj && compatible Wi Wj = false →
  fft2 si = Ok FA → fft2 sj = Ok FB →
  xcorr si sj = Raise BroadcastError
  ∧ get_image_shift si sj 5 max_shift = Raise BroadcastError
  ∧ foldM (λ st p, rcc_pair segments max_shift p.1 st p.2) ps
      (replicate (length (pairs (len segments))) [f0; f0],
       replicate (length (pairs (len segments)))
         (replicate (Z.to_nat (len segments - 1)) f0),
       0)
    = Ok (rhs_matrix shifts ++ replicate (S (length rest)) [f0; f0],
          design_matrix (len segments) ps
            ++ replicate (S (length rest)) (replicate (Z.to_nat (len segments - 1)) f0),
          len ps)
  ∧ rcc_system segments max_shift = Raise BroadcastError
  ∧ rcc segments max_shift = Raise BroadcastError.
Proof.
  intros HN Hpairs Hs Esi Esj HHi HHj Hri Hrj Hinc EA EB.
  pose proof (xcorr_incompatible si sj Hi Wi Hj Wj FA FB HHi HHj Hri Hrj Hinc EA EB)
    as HX.
  assert (get_image_shift si sj 5 max_shift = Raise BroadcastError) as HG
    by (unfold get_image_shift; by rewrite HX).
  assert (0 ≤ i ∧ i < j ∧ j < len segments) as (Hi0 & Hij & Hjn).
  { assert ((i, j) ∈ pairs (len segments)) as Hin
      by (rewrite Hpairs; apply elem_of_app; right; apply list_elem_of_here).
    apply elem_of_pairs_from in Hin; lia. }
  assert (pair_shift segments max_shift (i, j) = Raise BroadcastError) as Hp.
  { unfold pair_shift. cbn [fst snd].
    rewrite (index_Ok_Z segments i si), (index_Ok_Z segments j sj) by (done || lia).
    exact HG. }
  assert (Forall (pair_ok (len segments)) ps) as Hok.
  { pose proof (pairs_ok (len segments)) as Hall. rewrite Hpairs in Hall.
    by apply Forall_app in Hall as [? _]. }
  assert (rcc_system segments max_shift = Raise BroadcastError) as Hsys.
  { rewrite rcc_system_loops by done. rewrite Hpairs.
    by apply (rcc_pairs_fail _ _ _ ps shifts). }
  split; [done |]. split; [done |].
  split.
  { pose proof (rcc_pairs_run _ _ (len segments) ps shifts Hs Hok [] []
                  (S (length rest)) eq_refl) as Hrun.
    rewrite !app_nil_l in Hrun. change (len (@nil (list F))) with 0 in Hrun.
    rewrite Z.add_0_l in Hrun. rewrite Hpairs, length_app. exact Hrun. }
  split; [done |]. unfold rcc. by rewrite Hsys.
Qed.
End RccErrors.

Lemma dotZ_zeros (m : nat) (x : list Z) : dotZ (replicate m 0) x = 0.
Proof.
  unfold dotZ, sumZ. revert x. induction m as [|m IH]; intros [|v x]; simpl; try done.
  by rewrite IH.
Qed.

Lemma dotZ_unit (c m : nat) (x : list Z) (v : Z) :
  x !! c = Some v → dotZ (replicate c 0 ++ 1 :: replicate m 0) x = v.
Proof.
  revert x. induction c as [|c IH]; intros [|u x] Hv; simpl in Hv; try done.
  - injection Hv as ->. unfold dotZ, sumZ. simpl.
    fold (sumZ (zip_with Z.mul (replicate m 0) x)). fold (dotZ (replicate m 0) x).
    rewrite dotZ_zeros. lia.
  - unfold dotZ, sumZ. simpl.
    fold (sumZ (zip_with Z.mul (replicate c 0 ++ 1 :: replicate m 0) x)).
    fold (dotZ (replicate c 0 ++ 1 :: replicate m 0) x). by rewrite IH.
Qed.

(** The row of a pair of neighbours [(c, c+1)] picks the increment [c]. *)
Lemma dotZ_neighbours (n c : Z) (x : list Z) (v : Z) :
  0 ≤ c → c + 1 ≤ n - 1 → x !! Z.to_nat c = Some v →
  dotZ (design_row n c (c + 1)) x = v.
Proof.
  intros Hc Hn Hv. rewrite design_row_blocks by lia.
  replace (Z.to_nat (c + 1 - c)) with 1%nat by lia. simpl.
  by apply dotZ_unit.
Qed.

Section Singular.
Context {FL : Float64} {NP : NumPy FL} {LM : LmFit FL}.

(** C4, as amended.  [rcc] has no check for a singular system.  Without
    segments the allocation of a design matrix with [-1] columns raises
    before the loop.  With one segment both matrices are empty, the loop
    does nothing and the empty system is handed to the pseudo-inverse;
    when that returns the empty matrix the result is the trajectory
    [(0, 0)].  With two or more segments the design matrix has full
    column rank (the rows of the pairs [(c, c+1)] are the unit vectors),
    so that no singular system arises. *)
Theorem no_singularity_check (segments : list (matrix F)) max_shift :
  let N := len segments in
  (N = 0 → rcc segments max_shift = Raise NegativeDimensions)
  ∧ (N = 1 →
       rcc_system segments max_shift = Ok ([], [], 0)
       ∧ rcc segments max_shift = rcc_solve [] []
       ∧ (pinv [] = Ok [] → rcc segments max_shift = Ok ([f0], [f0])))
  ∧ (2 ≤ N →
       ∀ x : list Z, len x = N - 1 →
         (∀ i j, (i, j) ∈ pairs N → dotZ (design_row N i j) x = 0) →
         Forall (λ v, v = 0) x).
Proof.
  intros N. split; [|split].
  - intros HN. unfold rcc, rcc_system. fold N. by rewrite HN.
  - intros HN.
    assert (rcc_system segments max_shift = Ok ([], [], 0)) as Hsys
      by (unfold rcc_system; fold N; by rewrite HN).
    split; [done |]. unfold rcc. rewrite Hsys. split; [done |].
    intros HP. cbv [mbind result_bind]. unfold rcc_solve. by rewrite HP.
  - intros HN x Hx Hker. apply Forall_forall. intros v Hv.
    apply list_elem_of_lookup in Hv as [c Hc].
    pose proof (lookup_lt_Some _ _ _ Hc) as Hlt. unfold len in Hx.
    rewrite <- (dotZ_neighbours N (Z.of_nat c) x v); [| lia | lia | by rewrite Nat2Z.id].
    apply Hker. apply elem_of_pairs_from; lia.
Qed.
End Singular.

(** * Concrete runs on the stand-in *)

Import Standin.

Lemma rect_ones (h w : nat) : rect (Z.of_nat h) (Z.of_nat w) (ones h w).
Proof.
  unfold ones, rect, len. rewrite length_replicate. split; [done |].
  apply Forall_replicate. by rewrite length_replicate.
Qed.

Lemma rect_spot (h w y x : nat) : rect (Z.of_nat h) (Z.of_nat w) (spot h w y x).
Proof.
  unfold spot, rect, len. rewrite length_fmap, length_seq. split; [done |].
  apply Forall_fmap, Forall_forall. intros r _. simpl.
  by rewrite length_fmap, length_seq.
Qed.

Lemma three_segments_shifts (i j : Z) :
  0 ≤ i ∧ i < j ∧ j < len three_segments →
  ∃ s, pair_shift three_segments None (i, j) = Ok s.
Proof.
  intros (Hi & Hij & Hj). change (len three_segments) with 3 in Hj.
  assert ((i = 0 ∧ j = 1) ∨ (i = 0 ∧ j = 2) ∨ (i = 1 ∧ j = 2))
    as [[-> ->] | [[-> ->] | [-> ->]]] by lia;
    by eexists; vm_compute.
Defined.

(** C1, witness: three identical segments. *)
Lemma rcc_trajectory_witness :
  ∃ ty tx, rcc three_segments None = Ok (ty, tx)
    ∧ len ty = 3 ∧ len tx = 3
    ∧ ty !! 0%nat = Some 0%Q ∧ tx !! 0%nat = Some 0%Q.
Proof.
  destruct (rcc_trajectory three_segments None) as
    (rij & A & P & D & Dy & Dx & _ & _ & _ & _ & _ & _ & _ & Hrcc & Hy & Hx & Hy0 & Hx0 & _).
  - vm_compute. discriminate.
  - exact three_segments_shifts.
  - eexists. split; [by vm_compute |]. split; [done | by repeat constructor].
  - exists (f0 :: cumsum Dy), (f0 :: cumsum Dx). by repeat split.
Defined.

(** C2, witness: the system of three segments. *)
Lemma design_matrix_layout_witness :
  ∃ rij A, rcc_system three_segments None = Ok (rij, A, 3)
    ∧ len A = 3 ∧ len rij = 3 ∧ Forall (λ row, len row = 2) A.
Proof.
  destruct (design_matrix_layout three_segments None) as
    (rij & A & Hsys & HA & Hrij & Hcols & _).
  - vm_compute. discriminate.
  - exact three_segments_shifts.
  - exists rij, A. by repeat split.
Defined.

Lemma xcorr_center : xcorr (spot 8 8 0 0) (ones 8 8) = Ok surface_center.
Proof. by vm_compute. Qed.

Lemma xcorr_corner : xcorr (spot 8 8 4 4) (ones 8 8) = Ok surface_corner.
Proof. by vm_compute. Qed.

Lemma xcorr_bottom : xcorr (spot 8 8 3 0) (ones 8 8) = Ok surface_bottom.
Proof. by vm_compute. Qed.

(** C3, counterexample.  A 1x4 and a 3x4 image have different shapes, and
    their correlation is computed, by broadcasting, with no error; and in
    [rcc] on two 8x8 segments and a 3x3 one the first pair is measured and
    its rows are written before the pair [(0, 2)] raises. *)
Lemma shape_mismatch_counterexample :
  shape (ones 1 4) ≠ shape (ones 3 4)
  ∧ xcorr (ones 1 4) (ones 3 4) = Ok (ones 3 4)
  ∧ rcc_pair [spot 8 8 0 0; spot 8 8 0 0; ones 3 3] None 0
      ([[0; 0]; [0; 0]; [0; 0]]%Q, [[0; 0]; [0; 0]; [0; 0]]%Q, 0) 1
    = Ok ([[0 # 2; 0 # 2]; [0; 0]; [0; 0]]%Q, [[1; 0]; [0; 0]; [0; 0]]%Q, 1)
  ∧ rcc_pair [spot 8 8 0 0; spot 8 8 0 0; ones 3 3] None 0
      ([[0 # 2; 0 # 2]; [0; 0]; [0; 0]]%Q, [[1; 0]; [0; 0]; [0; 0]]%Q, 1) 2
    = Raise BroadcastError
  ∧ rcc [spot 8 8 0 0; spot 8 8 0 0; ones 3 3] None = Raise BroadcastError.
Proof. split; [by vm_compute |]. repeat split; by vm_compute. Qed.

(** C3, witness: two 8x8 segments followed by a 3x3 one. *)
Lemma shape_mismatch_in_rcc_witness :
  xcorr (spot 8 8 0 0) (ones 3 3) = Raise BroadcastError
  ∧ rcc_system [spot 8 8 0 0; spot 8 8 0 0; ones 3 3] None = Raise BroadcastError
  ∧ rcc [spot 8 8 0 0; spot 8 8 0 0; ones 3 3] None = Raise BroadcastError.
Proof.
  destruct (shape_mismatch_in_rcc (NP := QNumPy)
              [spot 8 8 0 0; spot 8 8 0 0; ones 3 3] None
              [(0, 1)] [(1, 2)] 0 2 [((0 # 2)%Q, (0 # 2)%Q)]
              (spot 8 8 0 0) (ones 3 3) 8 8 3 3 (spot 8 8 0 0 : matrix Q)
              (ones 3 3 : matrix Q))
    as (HX & _ & _ & Hsys & Hrcc); try done.
  - constructor; [by vm_compute | constructor].
  - apply (rect_spot 8 8 0 0).
  - apply (rect_ones 3 3).
Defined.

(** C4, counterexample.  With a single segment the matrices are empty, no
    error is raised before the solve, and the empty system goes to the
    pseudo-inverse; when that gives the empty matrix back, as the stand-in
    does, the result is the trajectory of length one. *)
Lemma singular_system_counterexample :
  rcc_system [spot 8 8 0 0] None = Ok ([], [], 0)
  ∧ rcc [spot 8 8 0 0] None = rcc_solve [] []
  ∧ rcc [spot 8 8 0 0] None = Ok ([0%Q], [0%Q]).
Proof. repeat split; by vm_compute. Qed.

(** C4, witness: one segment, and the rank of the design matrix of three. *)
Lemma no_singularity_check_witness :
  rcc_system [spot 8 8 0 0] None = Ok ([], [], 0)
  ∧ (∀ x : list Z, len x = 2 →
       (∀ i j, (i, j) ∈ pairs 3 → dotZ (design_row 3 i j) x = 0) →
       Forall (λ v, v = 0) x).
Proof.
  split.
  - apply (no_singularity_check [spot 8 8 0 0] None). done.
  - apply (no_singularity_check three_segments None). by vm_compute.
Defined.

(** C5, counterexample.  The fit of the stand-in never converges
    ([success = false]); the shift is returned all the same, and no error
    is raised. *)
Lemma fit_divergence_counterexample :
  gaussian2d_fit 2 (concat (fit_roi surface_center 2 0 0 4 4)) 9%Q 1%Q
  = Ok start_values
  ∧ get_image_shift (spot 8 8 0 0) (ones 8 8) 5 None = Ok ((0 # 2)%Q, (0 # 2)%Q).
Proof. split; by vm_compute. Qed.

Lemma shift_run_center :
  shift_run (spot 8 8 0 0) (ones 8 8) 5 None surface_center 0 0 4 4
    start_values.
Proof.
  exists surface_center, 9%Q, 1%Q. repeat split; by vm_compute.
Defined.

(** C5, witness. *)
Lemma fit_divergence_not_checked_witness :
  get_image_shift (spot 8 8 0 0) (ones 8 8) 5 None
  = Ok (shift_of (0%Q : @F QFloat) 0 4 8, shift_of (0%Q : @F QFloat) 0 4 8).
Proof.
  exact (fit_divergence_not_checked _ _ _ _ _ _ _ _ _ _ shift_run_center eq_refl).
Defined.

(** C7, witness: the peak at (4, 4) of an 8x8 surface is the centre, the
    shift is zero. *)
Lemma shift_relative_to_center_witness :
  get_image_shift (spot 8 8 0 0) (ones 8 8) 5 None
  = Ok (fopp (fsub (fadd (0%Q : @F QFloat) (of_int (0 + 4))) (fdiv (of_int 8) (of_int 2))),
        fopp (fsub (fadd (0%Q : @F QFloat) (of_int (0 + 4))) (fdiv (of_int 8) (of_int 2)))).
Proof.
  apply (proj2 (shift_relative_to_center (spot 8 8 0 0) (ones 8 8) 5 None _)).
  exists surface_center, 0, 0, 4, 4,
    start_values.
  split; [exact shift_run_center | done].
Defined.

Lemma rect_surface_center : rect 8 8 surface_center.
Proof. apply (rect_spot 8 8 4 4). Qed.

(** C6, counterexample.  On a 7x7 surface with [roi = 4] the offsets are
    [(1, 1)] and the search window is 5x5, not 4x4: the bright pixel (5, 5)
    of the surface, outside the rows and columns 1..4, is found at (4, 4) of
    the window, and the shift is computed from it. *)
Lemma roi_window_counterexample :
  xcorr (spot 7 7 2 2) (ones 7 7) = Ok (spot 7 7 5 5)
  ∧ roi_crop (spot 7 7 5 5) 7 7 (Some 4) = (1, 1, spot 5 5 4 4)
  ∧ shape (spot 5 5 4 4) = (5, 5)
  ∧ brightest (spot 5 5 4 4) = Ok (4, 4)
  ∧ get_image_shift (spot 7 7 2 2) (ones 7 7) 3 (Some 4)
    = Ok ((-3 # 2)%Q, (-3 # 2)%Q).
Proof. repeat split; by vm_compute. Qed.

(** C6, witness: an 8x8 surface with its peak in the centre, [roi = 4]. *)
Lemma roi_peak_search_witness :
  ∃ y x, peak_of_window surface_center 8 8 2 2 y x
    ∧ brightest (roi_crop surface_center 8 8 (Some 4)).2 = Ok (y - 2, x - 2)
    ∧ get_image_shift (spot 8 8 0 0) (ones 8 8) 5 (Some 4)
      = subpixel_shift surface_center 2 2 2 (y - 2) (x - 2) 8 8.
Proof.
  destruct (roi_peak_search (spot 8 8 0 0) (ones 8 8) 5 surface_center 8 8
              xcorr_center eq_refl rect_surface_center) as [Hroi _].
  destruct (Hroi 4) as (_ & _ & _ & y & x & Hpeak & Hb & Hg); [done.. |].
  by exists y, x.
Defined.

(** C8, witness: a 4x4 image against the all-ones image. *)
Lemma xcorr_formula_witness :
  ∃ S, xcorr (spot 4 4 0 0) (ones 4 4) = Ok S
    ∧ rect 4 4 S
    ∧ pixel S 2 2 = Some (fdiv (creal 9%Q) (fsqrt (of_int (4 * 4)))).
Proof.
  destruct (xcorr_formula (NP := QNumPy) (spot 4 4 0 0) (ones 4 4) 4 4
              (spot 4 4 0 0 : matrix Q) (ones 4 4 : matrix Q) (spot 4 4 0 0 : matrix Q))
    as (S & HS & HR & _ & _ & Hc); try done.
  - apply (rect_spot 4 4 0 0).
  - apply (rect_ones 4 4).
  - exists S. split; [done |]. split; [done |]. by apply Hc.
Defined.

(** C9, witness: an 8x8 surface with [roi = 7] (margin 0) and [roi = 5]
    (margin 1, window of side 6). *)
Lemma roi_window_degenerate_witness :
  get_image_shift (spot 8 8 0 0) (ones 8 8) 5 (Some 7) = Raise EmptyArgmax
  ∧ len (roi_crop surface_center 8 8 (Some 5)).2 = 5 + 1.
Proof.
  split.
  - apply (roi_window_degenerate (spot 8 8 0 0) (ones 8 8) 5 7 surface_center 8 8
             xcorr_center eq_refl rect_surface_center).
    by left.
  - destruct (roi_window_degenerate (spot 8 8 0 0) (ones 8 8) 5 5 surface_center 8 8
                xcorr_center eq_refl rect_surface_center) as (_ & Hrows & _).
    destruct Hrows as [Hlen Hside]; [done.. |]. by rewrite Hlen.
Defined.

(** C10, counterexample.  The peak is the corner (0, 0) of an 8x8 surface
    and [box = 5]: the fit ROI [XCorr[-2:3, -2:3]] is empty and
    [get_image_shift] raises at [FitROI.max()]; the fit, which never raises,
    is not run. *)
Lemma fit_window_counterexample :
  xcorr (spot 8 8 4 4) (ones 8 8) = Ok surface_corner
  ∧ brightest surface_corner = Ok (0, 0)
  ∧ fit_roi surface_corner 2 0 0 0 0 = []
  ∧ (∀ data a b, gaussian2d_fit 2 data a b = Ok start_values)
  ∧ get_image_shift (spot 8 8 4 4) (ones 8 8) 5 None = Raise ZeroSizeReduction.
Proof. repeat split; by vm_compute. Qed.

(** C10, witness: the peak in the last row (7, 4) of an 8x8 surface; the fit
    ROI has 3 rows and 5 columns and the fit is run on it. *)
Lemma fit_window_at_border_witness :
  shape (fit_roi surface_bottom 2 0 0 7 4) = (3, 5)
  ∧ size (fit_roi surface_bottom 2 0 0 7 4) < 5 * 5
  ∧ ∃ a b,
      get_image_shift (spot 8 8 3 0) (ones 8 8) 5 None
      = (results ← gaussian2d_fit 2 (concat (fit_roi surface_bottom 2 0 0 7 4)) a b;
         Ok (shift_of (best_yc results) 0 7 8, shift_of (best_xc results) 0 4 8)).
Proof.
  destruct (fit_window_at_border (spot 8 8 3 0) (ones 8 8) 5 None surface_bottom 8 8
              0 0 surface_bottom 7 4 xcorr_bottom eq_refl (rect_spot 8 8 7 4) eq_refl)
    as (_ & _ & Hsize & _ & _ & Hfit); try done.
  - right. left. by vm_compute.
  - split; [by vm_compute |]. split; [exact Hsize |].
    destruct Hfit as (_ & a & b & _ & _ & Hg); [by vm_compute |].
    by exists a, b.
Defined.

(** * Further properties of [get_image_shift] and [rcc] *)

Lemma empty_margin_rows (n k : Z) :
  0 < n →
  Z.max 0 (slice_bound (- k) n - slice_bound k n) = 0 ↔ empty_margin n k = true.
Proof.
  intros Hn. unfold empty_margin, slice_bound.
  destruct (- k <? 0) eqn:E1, (k <? 0) eqn:E2, (k =? 0) eqn:E3,
    (1 <=? k) eqn:E4, (n <=? 2 * k) eqn:E5, (k <=? -1) eqn:E6,
    (-2 * k <=? n) eqn:E7; simpl; split; intros; try done; lia.
Qed.

Section SearchErrors.
Context {FL : Float64} {NP : NumPy FL} {LM : LmFit FL}.

Lemma argmax_step_bound (l : list F) (mi : Z) (mp : F) (i : Z) :
  0 ≤ mi < i →
  let '(mi', _, i') := fold_left argmax_step l (mi, mp, i) in
  0 ≤ mi' < i' ∧ i' = i + len l.
Proof.
  revert mi mp i. induction l as [|v l IH]; intros mi mp i Hmi; simpl.
  - unfold len. simpl. lia.
  - destruct (fle v mp).
    + specialize (IH mi mp (i + 1) ltac:(lia)).
      destruct (fold_left argmax_step l (mi, mp, i + 1)) as [[mi' mp'] i'].
      unfold len in *. simpl. lia.
    + specialize (IH i v (i + 1) ltac:(lia)).
      destruct (fold_left argmax_step l (i, v, i + 1)) as [[mi' mp'] i'].
      unfold len in *. simpl. lia.
Qed.

(** On a non-empty array [argmax] returns an index of the array, whatever
    the comparison does. *)
Lemma argmax_nonempty (l : list F) :
  l ≠ [] → ∃ i, argmax l = Ok i ∧ 0 ≤ i < len l.
Proof.
  destruct l as [|v l]; [done | intros _]. unfold argmax.
  pose proof (argmax_step_bound l 0 v 1 ltac:(lia)) as Hb.
  destruct (fold_left argmax_step l (0, v, 1)) as [[mi mp] i].
  exists mi. split; [done |]. unfold len in *. simpl. lia.
Qed.

Lemma brightest_nonempty (h w : Z) (m : matrix F) :
  rect h w m → 0 < h → 0 < w →
  ∃ y x, brightest m = Ok (y, x) ∧ 0 ≤ y < h ∧ 0 ≤ x < w.
Proof.
  intros HR Hh Hw.
  pose proof (len_concat_rect h w m HR ltac:(lia)) as Hlen.
  assert (concat m ≠ []) as Hne.
  { intros E. rewrite E in Hlen. unfold len in Hlen. simpl in Hlen. nia. }
  destruct (argmax_nonempty _ Hne) as (i & Hi & Hr). rewrite Hlen in Hr.
  exists (i / w), (i mod w). split; [|split].
  - unfold brightest. rewrite Hi. cbv [mbind result_bind].
    rewrite (rect_shape h w m HR Hh). unfold unravel_index.
    replace ((0 <=? i) && (i <? h * w)) with true; [done |].
    symmetry. apply andb_true_iff. lia.
  - split; [apply Z.div_pos; lia | apply Z.div_lt_upper_bound; lia].
  - apply Z.mod_pos_bound. lia.
Qed.

(** X1.  With [roi] given, the search window [XCorr[Y_:-Y_, X_:-X_]] of an
    [H]x[W] surface, [Y_ = int((H - roi) / 2)] and [X_ = int((W - roi) / 2)],
    has no element exactly when one of the two margins is degenerate: zero,
    at least half the extent, or negative and at most half the extent in
    size.  [get_image_shift] then raises the exception of [argmax] on an
    empty array; with no degenerate margin the search finds a peak and the
    estimator goes on with it.  A [roi] within one pixel of [H] or of [W]
    always leaves a degenerate margin. *)
Theorem search_window_empty_iff imageA imageB box roi XCorr H W :
  xcorr imageA imageB = Ok XCorr →
  shape imageA = (H, W) →
  rect H W XCorr → 0 < H → 0 < W →
  let Y_ := int_half (H - roi) in
  let X_ := int_half (W - roi) in
  let XCorr_ := (roi_crop XCorr H W (Some roi)).2 in
  (brightest XCorr_ = Raise EmptyArgmax
   ↔ empty_margin H Y_ || empty_margin W X_ = true)
  ∧ (empty_margin H Y_ || empty_margin W X_ = true →
     get_image_shift imageA imageB box (Some roi) = Raise EmptyArgmax)
  ∧ (empty_margin H Y_ || empty_margin W X_ = false →
     ∃ y x, brightest XCorr_ = Ok (y, x)
       ∧ get_image_shift imageA imageB box (Some roi)
         = subpixel_shift XCorr (int_half box) Y_ X_ y x H W)
  ∧ (H - 1 ≤ roi ≤ H + 1 ∨ W - 1 ≤ roi ≤ W + 1 →
     empty_margin H Y_ || empty_margin W X_ = true).
Proof.
  intros HX HS HR HH HW Y_ X_ XCorr_.
  pose proof (rect_slice2 H W Y_ (- Y_) X_ (- X_) XCorr HR) as HRw.
  change (slice2 Y_ (- Y_) X_ (- X_) XCorr) with XCorr_ in HRw.
  set (h := Z.max 0 (slice_bound (- Y_) H - slice_bound Y_ H)) in *.
  set (w := Z.max 0 (slice_bound (- X_) W - slice_bound X_ W)) in *.
  pose proof (empty_margin_rows H Y_ HH) as EY. fold h in EY.
  pose proof (empty_margin_rows W X_ HW) as EX. fold w in EX.
  assert (0 ≤ h ∧ 0 ≤ w) as [Hh Hw] by (subst h w; lia).
  pose proof (len_concat_rect h w XCorr_ HRw Hw) as Hsize.
  assert (get_image_shift imageA imageB box (Some roi)
          = ('(y, x) ← brightest XCorr_;
             subpixel_shift XCorr (int_half box) Y_ X_ y x H W)) as Hg
    by (by rewrite (get_image_shift_unfold _ _ _ _ _ _ _ HX HS)).
  assert (empty_margin H Y_ || empty_margin W X_ = true →
          brightest XCorr_ = Raise EmptyArgmax) as Hempty.
  { intros E. apply brightest_empty, len_nil_inv. rewrite Hsize.
    apply orb_true_iff in E as [E|E]; [apply EY in E | apply EX in E]; nia. }
  assert (empty_margin H Y_ || empty_margin W X_ = false →
          ∃ y x, brightest XCorr_ = Ok (y, x)) as Hfull.
  { intros E. apply orb_false_iff in E as [E1 E2].
    assert (h ≠ 0) by (intros E; apply EY in E; congruence).
    assert (w ≠ 0) by (intros E; apply EX in E; congruence).
    destruct (brightest_nonempty h w XCorr_ HRw) as (y & x & Hb & _); [lia.. |].
    by exists y, x. }
  split; [|split; [|split]].
  - split; [|exact Hempty]. intros Hb.
    destruct (empty_margin H Y_ || empty_margin W X_) eqn:E; [done |].
    destruct (Hfull eq_refl) as (y & x & Hb'). congruence.
  - intros E. by rewrite Hg, (Hempty E).
  - intros E. destruct (Hfull E) as (y & x & Hb). exists y, x.
    split; [done |]. by rewrite Hg, Hb.
  - intros Hroi. apply orb_true_iff.
    destruct Hroi as [Hroi|Hroi]; [left | right]; unfold empty_margin.
    + assert (Y_ = 0) as -> by (subst Y_; unfold int_half;
        apply Z.quot_small_iff; lia). done.
    + assert (X_ = 0) as -> by (subst X_; unfold int_half;
        apply Z.quot_small_iff; lia). done.
Qed.

Lemma rcc_raise_at_pair segments max_shift
    (ps rest : list (Z * Z)) (p : Z * Z) (shifts : list (F * F)) (e : exn) :
  pairs (len segments) = ps ++ p :: rest →
  Forall2 (λ q s, pair_shift segments max_shift q = Ok s) ps shifts →
  pair_shift segments max_shift p = Raise e →
  rcc_system segments max_shift = Raise e.
Proof.
  intros Hpairs Hs He.
  assert (1 ≤ len segments) as HN.
  { destruct (decide (1 ≤ len segments)) as [|Hn]; [done |].
    unfold pairs in Hpairs. rewrite pairs_from_nil in Hpairs by lia.
    by destruct ps. }
  assert (Forall (pair_ok (len segments)) ps) as Hok.
  { pose proof (pairs_ok (len segments)) as Hall. rewrite Hpairs in Hall.
    by apply Forall_app in Hall as [? _]. }
  rewrite rcc_system_loops by done. rewrite Hpairs.
  by apply (rcc_pairs_fail _ _ _ ps shifts).
Qed.

(** X2.  The error of the first pair, in the order of the loops, whose shift
    estimation raises is the error of [rcc]: the pairs after it are not
    measured and the solve is not reached. *)
Theorem rcc_first_error segments max_shift
    (ps rest : list (Z * Z)) (p : Z * Z) (shifts : list (F * F)) (e : exn) :
  pairs (len segments) = ps ++ p :: rest →
  Forall2 (λ q s, pair_shift segments max_shift q = Ok s) ps shifts →
  pair_shift segments max_shift p = Raise e →
  rcc_system segments max_shift = Raise e
  ∧ rcc segments max_shift = Raise e.
Proof.
  intros Hpairs Hs He.
  pose proof (rcc_raise_at_pair _ _ _ _ _ _ _ Hpairs Hs He) as Hsys.
  split; [done |]. unfold rcc. by rewrite Hsys.
Qed.

(** A degenerate margin makes [get_image_shift] raise. *)
Lemma get_image_shift_empty_window imageA imageB box roi XCorr H W :
  xcorr imageA imageB = Ok XCorr →
  shape imageA = (H, W) →
  rect H W XCorr → 0 < H → 0 < W →
  empty_margin H (int_half (H - roi)) || empty_margin W (int_half (W - roi)) = true →
  get_image_shift imageA imageB box (Some roi) = Raise EmptyArgmax.
Proof.
  intros HX HS HR HH HW E.
  rewrite (get_image_shift_unfold _ _ _ _ _ _ _ HX HS). cbn [roi_crop].
  pose proof (rect_slice2 H W (int_half (H - roi)) (- int_half (H - roi))
                (int_half (W - roi)) (- int_half (W - roi)) XCorr HR) as HRw.
  rewrite brightest_empty; [done |]. apply len_nil_inv.
  rewrite (len_concat_rect _ _ _ HRw) by lia.
  apply orb_true_iff in E as [E|E].
  - apply (empty_margin_rows H _ HH) in E. rewrite E. lia.
  - apply (empty_margin_rows W _ HW) in E. rewrite E. lia.
Qed.

Lemma pairs_head (n : Z) : 2 ≤ n → ∃ rest, pairs n = (0, 1) :: rest.
Proof.
  intros Hn. unfold pairs. rewrite pairs_from_cons by lia.
  rewrite (range_cons (0 + 1) n) by lia. rewrite fmap_cons. by eexists.
Qed.

(** X3.  With a [max_shift] that leaves an empty search window on the
    surface of the first two segments, [rcc] raises the exception of
    [argmax] on an empty array, at the first pair. *)
Theorem rcc_max_shift_empty_window segments roi (a b XCorr : matrix F) (H W : Z) :
  segments !! 0%nat = Some a →
  segments !! 1%nat = Some b →
  xcorr a b = Ok XCorr →
  shape a = (H, W) →
  rect H W XCorr → 0 < H → 0 < W →
  empty_margin H (int_half (H - roi)) || empty_margin W (int_half (W - roi)) = true →
  rcc segments (Some roi) = Raise EmptyArgmax.
Proof.
  intros Ha Hb HX HS HR HH HW Hempty.
  assert (2 ≤ len segments) as HN.
  { apply lookup_lt_Some in Hb. unfold len. lia. }
  destruct (pairs_head _ HN) as [rest Hpairs].
  unfold rcc.
  rewrite (rcc_raise_at_pair segments (Some roi) [] rest (0, 1) [] EmptyArgmax);
    [done | done | constructor |].
  unfold pair_shift. cbn [fst snd].
  rewrite (index_Ok_Z segments 0 a), (index_Ok_Z segments 1 b) by (done || lia).
  cbv [mbind result_bind].
  by apply (get_image_shift_empty_window a b 5 roi XCorr H W).
Qed.
End SearchErrors.

(** ** What the design matrix encodes *)

Lemma dotZ_nil_r (row : list Z) : dotZ row [] = 0.
Proof. by destruct row. Qed.

Lemma dotZ_cons (a x : Z) (row d : list Z) :
  dotZ (a :: row) (x :: d) = a * x + dotZ row d.
Proof. done. Qed.

Lemma dotZ_ones_zeros (b c : nat) (d : list Z) :
  dotZ (replicate b 1 ++ replicate c 0) d = sumZ (take b d).
Proof.
  revert d. induction b as [|b IH]; intros d.
  - simpl. by rewrite dotZ_zeros.
  - destruct d as [|x d]; [by rewrite dotZ_nil_r |].
    cbn [replicate app take]. rewrite dotZ_cons, IH.
    unfold sumZ. simpl. lia.
Qed.

Lemma dotZ_blocks (a b c : nat) (d : list Z) :
  dotZ (replicate a 0 ++ replicate b 1 ++ replicate c 0) d
  = sumZ (take b (drop a d)).
Proof.
  revert d. induction a as [|a IH]; intros d.
  - simpl. apply dotZ_ones_zeros.
  - destruct d as [|x d].
    + rewrite dotZ_nil_r. by rewrite drop_nil, take_nil.
    + cbn [replicate app drop]. rewrite dotZ_cons, IH. lia.
Qed.

Lemma increments_cons (x y : Z) (t : list Z) :
  increments (x :: y :: t) = (y - x) :: increments (y :: t).
Proof. done. Qed.

Lemma sum_increments (t : list Z) (m : nat) (x y : Z) :
  t !! 0%nat = Some x → t !! m = Some y →
  sumZ (take m (increments t)) = y - x.
Proof.
  revert t x. induction m as [|m IH]; intros t x Hx Hy.
  - rewrite take_0. unfold sumZ. simpl. rewrite Hx in Hy. injection Hy as ->. lia.
  - destruct t as [|x' [|z t]]; try done.
    injection Hx as ->. rewrite increments_cons. cbn [take].
    change (sumZ ((z - x) :: take m (increments (z :: t))))
      with ((z - x) + sumZ (take m (increments (z :: t)))).
    rewrite (IH (z :: t) z) by done. lia.
Qed.

Lemma drop_increments (t : list Z) (i : nat) :
  drop i (increments t) = increments (drop i t).
Proof.
  revert t. induction i as [|i IH]; intros t; [done |].
  destruct t as [|x [|y t]].
  - done.
  - cbn [drop]. by rewrite drop_nil.
  - cbn [drop]. rewrite increments_cons. cbn [drop]. apply IH.
Qed.

(** The row of the pair [(i, j)], applied to the increments of a trajectory
    [t], gives [t[j] - t[i]]. *)
Lemma design_row_telescopes (n i j : Z) (t : list Z) (ti tj : Z) :
  len t = n → 0 ≤ i → i ≤ j → j < n →
  t !! Z.to_nat i = Some ti → t !! Z.to_nat j = Some tj →
  dotZ (design_row n i j) (increments t) = tj - ti.
Proof.
  intros Hlen Hi Hij Hj Hti Htj.
  rewrite design_row_blocks by lia. rewrite dotZ_blocks, drop_increments.
  apply sum_increments.
  - by rewrite lookup_drop, Nat.add_0_r.
  - rewrite lookup_drop. rewrite <- Htj. f_equal. lia.
Qed.

Section DesignMatrixMeaning.
Context {FL : Float64} {NP : NumPy FL} {LM : LmFit FL}.

(** X4.  When every pair gives a shift, the row of the design matrix of
    [rcc] for the pair [(i, j)] is a row of zeros and ones that, applied to
    the steps [t[c+1] - t[c]] of any integer trajectory [t] of the
    segments, gives [t[j] - t[i]]: the system that [rcc] solves equates
    the drift between two segments with the shift measured for them. *)
Theorem design_matrix_telescopes segments max_shift (shifts : list (F * F))
    (t : list Z) :
  1 ≤ len segments →
  Forall2 (λ p s, pair_shift segments max_shift p = Ok s)
    (pairs (len segments)) shifts →
  len t = len segments →
  ∃ (rij A : matrix F) (flag : Z),
    rcc_system segments max_shift = Ok (rij, A, flag)
    ∧ ∀ (k : nat) i j, pairs (len segments) !! k = Some (i, j) →
        ∃ bits ti tj,
          A !! k = Some (of_bit <$> bits)
          ∧ t !! Z.to_nat i = Some ti ∧ t !! Z.to_nat j = Some tj
          ∧ dotZ bits (increments t) = tj - ti.
Proof.
  intros HN Hs Hlen. eexists _, _, _. split; [by apply rcc_system_Ok |].
  intros k i j Hk.
  assert (0 ≤ i ∧ i < j < len segments) as Hij.
  { apply list_elem_of_lookup_2 in Hk. unfold pairs in Hk.
    apply elem_of_pairs_from in Hk; lia. }
  destruct (lookup_lt_is_Some_2 t (Z.to_nat i)) as [ti Hti];
    [unfold len in *; lia |].
  destruct (lookup_lt_is_Some_2 t (Z.to_nat j)) as [tj Htj];
    [unfold len in *; lia |].
  exists (design_row (len segments) i j), ti, tj.
  split; [|split; [done | split; [done |]]].
  - unfold design_matrix. by rewrite list_lookup_fmap, Hk.
  - apply design_row_telescopes; try done; lia.
Qed.
End DesignMatrixMeaning.

(** * Properties of [get_movie_groups] *)

Lemma list_remove_Done (x : str) (l l' : list str) :
  list_remove x l = Done l' → l ≡ₚ x :: l'.
Proof.
  revert l'. induction l as [|y l IH]; intros l'; simpl; [done |].
  destruct (decide (x = y)) as [->|Hne]; [by intros [= ->] |].
  destruct (list_remove x l) as [l''|e]; [|done].
  cbv [mbind outcome_bind]. intros [= <-].
  rewrite (IH l'' eq_refl). apply Permutation_swap.
Qed.

Lemma list_remove_Fail (x : str) (l : list str) (e : io_exn) :
  list_remove x l = Fail e → e = RemoveValueError ∧ x ∉ l.
Proof.
  induction l as [|y l IH]; simpl.
  - intros [= <-]. split; [done | apply not_elem_of_nil].
  - destruct (decide (x = y)) as [->|Hne]; [done |].
    destruct (list_remove x l) as [l''|e'] eqn:E; [done |].
    cbv [mbind outcome_bind]. intros [= <-].
    destruct (IH eq_refl) as [-> Hnot]. split; [done |].
    by apply not_elem_of_cons.
Qed.

Lemma remove_all_Done (group l l' : list str) :
  remove_all group l = Done l' → l ≡ₚ group ++ l'.
Proof.
  revert l. induction group as [|x group IH]; intros l; simpl.
  - by intros [= ->].
  - destruct (list_remove x l) as [l1|e] eqn:E; [|done].
    cbv [mbind outcome_bind]. intros Hrest.
    rewrite (list_remove_Done _ _ _ E), (IH _ Hrest). done.
Qed.

Lemma remove_all_Fail (group l : list str) (e : io_exn) :
  remove_all group l = Fail e → e = RemoveValueError.
Proof.
  revert l. induction group as [|x group IH]; intros l; simpl; [done |].
  destruct (list_remove x l) as [l1|e'] eqn:E; cbv [mbind outcome_bind].
  - apply IH.
  - intros [= <-]. by destruct (list_remove_Fail _ _ _ E).
Qed.

(** A text that is no element of the list makes the removals raise. *)
Lemma remove_all_missing (g : str) (group l : list str) :
  g ∈ group → g ∉ l → remove_all group l = Fail RemoveValueError.
Proof.
  revert l. induction group as [|x group IH]; intros l Hin Hnot; [by inversion Hin |].
  simpl. destruct (list_remove x l) as [l1|e] eqn:E; cbv [mbind outcome_bind].
  - pose proof (list_remove_Done _ _ _ E) as Hperm.
    apply elem_of_cons in Hin as [->|Hin].
    + exfalso. apply Hnot. rewrite Hperm. apply list_elem_of_here.
    + apply IH; [done |]. intros Hg. apply Hnot. rewrite Hperm.
      by apply list_elem_of_further.
  - by destruct (list_remove_Fail _ _ _ E) as [-> _].
Qed.

Section MovieGroupsProps.
Context {RE : Re}.

Lemma movie_groups_loop_hangs (path : str) (paths : list str)
    (groups : list (list str)) (fuel : nat) :
  endswith path ome_tif = false →
  movie_groups_loop fuel (path :: paths) groups = None.
Proof.
  intros Hend. revert groups.
  induction fuel as [|fuel IH]; intros groups; [done |].
  cbn [movie_groups_loop movie_groups_step]. rewrite Hend. apply IH.
Qed.

(** X5.  A first path that does not end in [.ome.tif] is never removed
    from the list: the [while] loop of [get_movie_groups] does not end,
    whatever the fuel. *)
Theorem get_movie_groups_hangs (path : str) (paths : list str) :
  endswith path ome_tif = false →
  ∀ fuel, get_movie_groups fuel (path :: paths) = None.
Proof. intros Hend fuel. by apply movie_groups_loop_hangs. Qed.

Lemma movie_groups_loop_ends (n : nat) :
  ∀ (paths : list str) (groups : list (list str)),
    (length paths ≤ n)%nat →
    Forall (λ p, endswith p ome_tif = true) paths →
    ∃ r, ∀ fuel, (n ≤ fuel)%nat → movie_groups_loop fuel paths groups = Some r.
Proof.
  induction n as [|n IH]; intros paths groups Hlen Hall.
  - destruct paths; [|simpl in Hlen; lia]. exists (Done groups). by intros [|fuel] _.
  - destruct paths as [|path paths]; [exists (Done groups); by intros [|fuel] _ |].
    assert (endswith path ome_tif = true) as Hend by by inversion Hall.
    destruct (remove_all (movie_group path (path :: paths)) (path :: paths))
      as [paths'|e] eqn:E.
    + pose proof (remove_all_Done _ _ _ E) as Hperm.
      assert (length paths' ≤ n)%nat as Hlen'.
      { apply Permutation_length in Hperm. rewrite length_app in Hperm.
        simpl in Hperm, Hlen. lia. }
      assert (Forall (λ p, endswith p ome_tif = true) paths') as Hall'.
      { rewrite Hperm in Hall. by apply Forall_app in Hall as [_ ?]. }
      destruct (IH paths' (groups ++ [movie_group path (path :: paths)]) Hlen' Hall')
        as [r Hr].
      exists r. intros [|fuel] Hfuel; [lia |].
      cbn [movie_groups_loop movie_groups_step]. rewrite Hend, E.
      cbv [mbind outcome_bind]. apply Hr. lia.
    + exists (Fail e). intros [|fuel] Hfuel; [lia |].
      cbn [movie_groups_loop movie_groups_step]. by rewrite Hend, E.
Qed.

(** X6.  When every path ends in [.ome.tif] the loop of
    [get_movie_groups] ends after at most [len(paths)] passes, with the
    groups or with an exception. *)
Theorem get_movie_groups_ends (paths : list str) :
  Forall (λ p, endswith p ome_tif = true) paths →
  ∃ r, ∀ fuel, (length paths ≤ fuel)%nat → get_movie_groups fuel paths = Some r.
Proof. intros Hall. by apply movie_groups_loop_ends. Qed.

Lemma movie_groups_loop_partition (fuel : nat) :
  ∀ (paths : list str) (groups0 groups : list (list str)),
    movie_groups_loop fuel paths groups0 = Some (Done groups) →
    ∃ new, groups = groups0 ++ new
      ∧ concat new ≡ₚ paths
      ∧ Forall (λ g, ∃ p rest, g = p :: rest ∧ endswith p ome_tif = true) new.
Proof.
  induction fuel as [|fuel IH]; intros paths groups0 groups.
  - destruct paths; [|done]. intros [= <-]. exists []. by rewrite app_nil_r.
  - destruct paths as [|path paths].
    { intros [= <-]. exists []. by rewrite app_nil_r. }
    cbn [movie_groups_loop movie_groups_step].
    destruct (endswith path ome_tif) eqn:Hend.
    + destruct (remove_all (movie_group path (path :: paths)) (path :: paths))
        as [paths'|e] eqn:E; cbv [mbind outcome_bind]; [|done].
      intros Hloop. destruct (IH _ _ _ Hloop) as (new & -> & Hperm & Hall).
      exists (movie_group path (path :: paths) :: new).
      split; [by rewrite <- app_assoc |]. split.
      * cbn [concat]. rewrite Hperm. symmetry. by apply remove_all_Done.
      * constructor; [|done]. by eexists _, _.
    + intros Hloop. destruct (IH _ _ _ Hloop) as (new & -> & Hperm & Hall).
      by exists new.
Qed.

(** X7.  The groups that [get_movie_groups] returns hold every path
    exactly once (up to the order), and each group starts with a path that
    ends in [.ome.tif]. *)
Theorem get_movie_groups_partition (fuel : nat) (paths : list str)
    (groups : list (list str)) :
  get_movie_groups fuel paths = Some (Done groups) →
  concat groups ≡ₚ paths
  ∧ Forall (λ g, ∃ p rest, g = p :: rest ∧ endswith p ome_tif = true) groups.
Proof.
  intros Hg. destruct (movie_groups_loop_partition _ _ _ _ Hg) as (new & -> & ? & ?).
  done.
Qed.

(** X8.  [re.match] matches at the start of a path: when the matched text
    of some path is none of the paths (the pattern matched a proper prefix
    of a longer name), [paths.remove] raises its [ValueError] in the first
    pass of [get_movie_groups]. *)
Theorem get_movie_groups_prefix_match (path q g : str) (paths : list str) (fuel : nat) :
  endswith path ome_tif = true →
  q ∈ path :: paths →
  re_match (slice 0 (-8) path ++ lit "_([0-9]).ome.tif"%string) q = Some g →
  g ∉ path :: paths →
  get_movie_groups (S fuel) (path :: paths) = Some (Fail RemoveValueError).
Proof.
  intros Hend Hq Hm Hg. unfold get_movie_groups.
  cbn [movie_groups_loop movie_groups_step]. rewrite Hend.
  rewrite (remove_all_missing g); [done | | done].
  unfold movie_group. apply list_elem_of_further, list_elem_of_omap.
  exists (Some g). split; [|done]. apply list_elem_of_fmap. by exists q.
Qed.
End MovieGroupsProps.

(** * Properties of the localization files *)

Lemma rfind_fold_bound (c : ascii) (s : str) (found i : Z) :
  -1 ≤ found < i →
  let r := fold_left (λ acc x, (if decide (x = c) then acc.2 else acc.1, acc.2 + 1))
             s (found, i) in
  -1 ≤ r.1 < r.2 ∧ r.2 = i + len s.
Proof.
  revert found i. induction s as [|x s IH]; intros found i Hf; simpl.
  - unfold len. simpl. lia.
  - destruct (decide (x = c)).
    + specialize (IH i (i + 1) ltac:(lia)). simpl in IH. unfold len in *.
      simpl. lia.
    + specialize (IH found (i + 1) ltac:(lia)). simpl in IH. unfold len in *.
      simpl. lia.
Qed.

Lemma rfind_bound (c : ascii) (s : str) : -1 ≤ rfind c s < len s.
Proof.
  unfold rfind. pose proof (rfind_fold_bound c s (-1) 0 ltac:(lia)) as H.
  simpl in H. lia.
Qed.

Lemma slice_split {T : Type} (d : Z) (p : list T) :
  0 ≤ d ≤ len p → slice 0 d p ++ slice d (len p) p = p.
Proof.
  intros Hd. unfold slice.
  rewrite !slice_bound_nonneg by lia.
  rewrite Z.sub_0_r. change (Z.to_nat 0) with 0%nat. rewrite drop_0.
  rewrite (take_ge (drop _ _)) by (rewrite length_drop; unfold len; lia).
  apply take_drop.
Qed.

Lemma skip_leading_dots_join (p : str) (extsep : ascii) (dotIndex : Z)
    (idx : list Z) (r : str * str) :
  0 ≤ dotIndex ≤ len p →
  skip_leading_dots p extsep dotIndex idx = Some r → r.1 ++ r.2 = p.
Proof.
  intros Hd. induction idx as [|i idx IH]; simpl; [done |].
  destruct (decide (slice i (i + 1) p = [extsep])); [done |].
  intros [= <-]. by apply slice_split.
Qed.

Lemma splitext_generic_join (p : str) (sep : ascii) (altsep : option ascii)
    (extsep : ascii) :
  (splitext_generic p sep altsep extsep).1 ++ (splitext_generic p sep altsep extsep).2
  = p.
Proof.
  unfold splitext_generic.
  set (sepIndex := match altsep with
                   | Some a => Z.max (rfind sep p) (rfind a p)
                   | None => rfind sep p
                   end).
  assert (-1 ≤ sepIndex) as Hsep.
  { subst sepIndex. pose proof (rfind_bound sep p).
    destruct altsep as [a|]; [pose proof (rfind_bound a p) |]; lia. }
  pose proof (rfind_bound extsep p) as Hdot.
  destruct (sepIndex <? rfind extsep p) eqn:E; [|apply app_nil_r].
  destruct (skip_leading_dots p extsep (rfind extsep p)
              (range (sepIndex + 1) (rfind extsep p))) as [r|] eqn:Er;
    [|apply app_nil_r].
  apply Z.ltb_lt in E. eapply skip_leading_dots_join; [|exact Er]. lia.
Qed.

Section LocsFilesProps.
Context {OS : OsPath} {FI : Files} {CO : Codecs}.

Lemma splitext_join (p : str) : (splitext p).1 ++ (splitext p).2 = p.
Proof. apply splitext_generic_join. Qed.

Lemma info_path_other (path : str) :
  (splitext path).2 ≠ lit ".yaml"%string →
  path ≠ (splitext path).1 ++ lit ".yaml"%string.
Proof.
  intros Hext Heq. apply Hext.
  rewrite <- (splitext_join path) in Heq at 1. by apply app_inv_head in Heq.
Qed.

Lemma save_locs_files (path : str) (locs : locs_t) (info : list pyval)
    (fs : filesystem) :
  save_locs path locs info fs
  = fs_write ((splitext path).1 ++ lit ".yaml"%string) (yaml_dump_all info)
      (fs_write path (h5_write locs) fs).
Proof. unfold save_locs, save_info. by destruct (splitext path). Qed.

Lemma load_info_reads (path : str) (fs : filesystem) :
  load_info path fs
  = (content ← fs_read ((splitext path).1 ++ lit ".yaml"%string) fs;
     yaml_load_all content).
Proof. unfold load_info. by destruct (splitext path). Qed.

Lemma fs_read_write_eq (path : str) (content : bytes) (fs : filesystem) :
  fs_read path (fs_write path content fs) = Done content.
Proof. unfold fs_read, fs_write. by rewrite decide_True. Qed.

Lemma fs_read_write_ne (path q : str) (content : bytes) (fs : filesystem) :
  q ≠ path → fs_read q (fs_write path content fs) = fs_read q fs.
Proof. intros Hne. unfold fs_read, fs_write. by rewrite decide_False. Qed.

(** X9.  What [save_locs] writes, [load_locs] reads back from the same
    path, and [load_info] the metadata, when h5py and yaml read back what
    they write and the extension of the path is not [.yaml]; no file but
    the two is touched. *)
Theorem save_load_locs (path : str) (locs : locs_t) (info : list pyval)
    (fs : filesystem) :
  h5_read (h5_write locs) = Done locs →
  yaml_load_all (yaml_dump_all info) = Done info →
  (splitext path).2 ≠ lit ".yaml"%string →
  load_locs path (save_locs path locs info fs) = Done (locs, info)
  ∧ load_info path (save_locs path locs info fs) = Done info
  ∧ ∀ q, q ≠ path → q ≠ (splitext path).1 ++ lit ".yaml"%string →
         save_locs path locs info fs q = fs q.
Proof.
  intros Hh5 Hyaml Hext.
  pose proof (info_path_other path Hext) as Hne.
  assert (load_info path (save_locs path locs info fs) = Done info) as Hinfo.
  { rewrite load_info_reads, save_locs_files, fs_read_write_eq.
    cbv [mbind outcome_bind]. exact Hyaml. }
  split; [|split; [done |]].
  - unfold load_locs. rewrite Hinfo.
    rewrite save_locs_files, fs_read_write_ne, fs_read_write_eq by done.
    cbv [mbind outcome_bind]. by rewrite Hh5.
  - intros q Hq1 Hq2. rewrite save_locs_files. unfold fs_write.
    by rewrite !decide_False.
Qed.

(** X10.  With a path whose extension is [.yaml] the metadata is written
    over the localizations: after [save_locs] the file holds the YAML
    text, and [load_locs] hands that text to h5py. *)
Theorem save_locs_overwrites (path : str) (locs : locs_t) (info : list pyval)
    (fs : filesystem) :
  (splitext path).2 = lit ".yaml"%string →
  save_locs path locs info fs path = Some (yaml_dump_all info)
  ∧ load_locs path (save_locs path locs info fs)
    = (locs' ← h5_read (yaml_dump_all info);
       info' ← yaml_load_all (yaml_dump_all info);
       Done (locs', info')).
Proof.
  intros Hext.
  assert ((splitext path).1 ++ lit ".yaml"%string = path) as Heq
    by (rewrite <- Hext; apply splitext_join).
  assert (save_locs path locs info fs path = Some (yaml_dump_all info)) as Hfile.
  { rewrite save_locs_files, Heq. unfold fs_write. by rewrite decide_True. }
  split; [done |].
  unfold load_locs. rewrite load_info_reads, Heq.
  unfold fs_read. by rewrite Hfile.
Qed.
End LocsFilesProps.

(** * Properties of the movie files *)

(** ** Dictionaries *)

Lemma getitem_setitem_eq (d : dict) (key : str) (value : pyval) :
  getitem (setitem d key value) key = Done value.
Proof.
  induction d as [|[k v] d IH]; simpl.
  - by rewrite decide_True.
  - destruct (decide (k = key)) as [->|Hne]; simpl.
    + by rewrite decide_True.
    + by rewrite decide_False.
Qed.

Lemma getitem_setitem_ne (d : dict) (key key' : str) (value : pyval) :
  key ≠ key' → getitem (setitem d key value) key' = getitem d key'.
Proof.
  intros Hne. induction d as [|[k v] d IH]; simpl.
  - rewrite decide_False by done.
    (* the two errors name the same key *) done.
  - destruct (decide (k = key)) as [->|Hk]; simpl.
    + by rewrite !decide_False.
    + destruct (decide (k = key')); [done | exact IH].
Qed.

Lemma setitem_setitem (d : dict) (key : str) (v w : pyval) :
  setitem (setitem d key v) key w = setitem d key w.
Proof.
  induction d as [|[k x] d IH]; simpl.
  - by rewrite decide_True.
  - destruct (decide (k = key)) as [->|Hk]; simpl.
    + by rewrite decide_True.
    + rewrite decide_False by done. by rewrite IH.
Qed.

Lemma pop_Done (d : dict) (key : str) (value : pyval) :
  getitem d key = Done value →
  ∃ d', pop d key = Done (value, d')
        ∧ ∀ key', key' ≠ key → getitem d' key' = getitem d key'.
Proof.
  induction d as [|[k v] d IH]; simpl; [done |].
  destruct (decide (k = key)) as [->|Hk].
  - intros [= ->]. exists d. split; [done |].
    intros key' Hne. by rewrite decide_False.
  - intros Hget. destruct (IH Hget) as (d' & -> & Hd').
    exists ((k, v) :: d'). split; [done |].
    intros key' Hne. simpl. destruct (decide (k = key')); [done | by apply Hd'].
Qed.

Lemma pop_Fail (d : dict) (key : str) (e : io_exn) :
  pop d key = Fail e → getitem d key = Fail e.
Proof.
  induction d as [|[k v] d IH]; simpl; [by intros [= <-] |].
  destruct (decide (k = key)); [done |].
  destruct (pop d key) as [r|e'] eqn:E; [done |].
  cbv [mbind outcome_bind]. intros [= <-]. by apply IH.
Qed.

Lemma py_eq_str_true (v : pyval) (s : str) : py_eq_str v s = true → v = PStr s.
Proof.
  destruct v; try done. simpl. intros H. apply bool_decide_eq_true in H. by subst.
Qed.

(** ** Paths with another extension *)

Lemma rfind_fold_shift (c : ascii) (t : str) :
  ∀ (found i : Z),
    fold_left (λ acc x, (if decide (x = c) then acc.2 else acc.1, acc.2 + 1))
      t (found, i)
    = (if 0 <=? rfind c t then i + rfind c t else found, i + len t).
Proof.
  unfold rfind. induction t as [|x t IH]; intros found i.
  - cbn. unfold len. cbn. f_equal. lia.
  - cbn [fold_left fst snd]. rewrite (IH _ (i + 1)), (IH _ (0 + 1)). cbn [fst].
    pose proof (rfind_bound c t) as Hb. unfold rfind in Hb.
    set (r := (fold_left _ t (-1, 0)).1) in *.
    replace (len (x :: t)) with (len t + 1) by (unfold len; cbn [length]; lia).
    f_equal; [|lia].
    destruct (0 <=? r) eqn:Er.
    + replace (0 <=? 0 + 1 + r) with true by lia. lia.
    + destruct (decide (x = c)).
      * replace (0 <=? 0) with true by done. lia.
      * replace (0 <=? -1) with false by done. done.
Qed.

Lemma rfind_app (c : ascii) (s t : str) :
  rfind c (s ++ t) = if 0 <=? rfind c t then len s + rfind c t else rfind c s.
Proof.
  unfold rfind at 1. rewrite fold_left_app.
  rewrite (rfind_fold_shift c s (-1) 0). rewrite rfind_fold_shift. cbn [fst].
  pose proof (rfind_bound c s).
  destruct (0 <=? rfind c t); [lia |].
  destruct (0 <=? rfind c s) eqn:Es; lia.
Qed.

Lemma rfind_absent (c : ascii) (t : str) : c ∉ t → rfind c t = -1.
Proof.
  induction t as [|x t IH]; intros Hc; [done |].
  change (x :: t) with ([x] ++ t). rewrite rfind_app.
  rewrite IH by (intros H; apply Hc; by right).
  cbn. unfold rfind. cbn. rewrite decide_False; [done |].
  intros ->. apply Hc. by left.
Qed.

Lemma slice_unit_app {T : Type} (i : Z) (a t : list T) :
  0 ≤ i → i + 1 ≤ len a → slice i (i + 1) (a ++ t) = slice i (i + 1) a.
Proof.
  intros Hi Hlen. unfold slice.
  assert (len (a ++ t) = len a + len t) as Happ
    by (unfold len; rewrite length_app; lia).
  pose proof (len_nonneg t).
  rewrite !slice_bound_nonneg by lia.
  replace (Z.to_nat (i + 1 - i)) with 1%nat by lia.
  rewrite drop_app_le by (unfold len in *; lia).
  rewrite take_app_le; [done |]. rewrite length_drop. unfold len in *. lia.
Qed.

Lemma skip_leading_dots_prefix (a t1 t2 : str) (extsep : ascii) (d1 d2 : Z)
    (idx : list Z) :
  Forall (λ i, 0 ≤ i ∧ i + 1 ≤ len a) idx →
  is_Some (skip_leading_dots (a ++ t1) extsep d1 idx) →
  skip_leading_dots (a ++ t2) extsep d2 idx
  = Some (slice 0 d2 (a ++ t2), slice d2 (len (a ++ t2)) (a ++ t2)).
Proof.
  induction idx as [|i idx IH]; intros Hidx Hsome; cbn in *.
  - by destruct Hsome.
  - apply Forall_cons in Hidx as [[Hi Hlen] Hidx].
    rewrite slice_unit_app in Hsome by done. rewrite slice_unit_app by done.
    destruct (decide (slice i (i + 1) a = [extsep])); [by apply IH | done].
Qed.

Lemma slice_prefix {T : Type} (a t : list T) : slice 0 (len a) (a ++ t) = a.
Proof.
  unfold slice.
  assert (len (a ++ t) = len a + len t) as Happ
    by (unfold len; rewrite length_app; lia).
  pose proof (len_nonneg t). pose proof (len_nonneg a).
  rewrite !slice_bound_nonneg by lia.
  rewrite Z.sub_0_r. change (Z.to_nat 0) with 0%nat. rewrite drop_0.
  unfold len. rewrite Nat2Z.id. by rewrite take_app_length.
Qed.

Lemma slice_suffix {T : Type} (a t : list T) :
  slice (len a) (len (a ++ t)) (a ++ t) = t.
Proof.
  unfold slice.
  assert (len (a ++ t) = len a + len t) as Happ
    by (unfold len; rewrite length_app; lia).
  pose proof (len_nonneg t). pose proof (len_nonneg a).
  rewrite !slice_bound_nonneg by lia.
  unfold len at 3. rewrite Nat2Z.id, drop_app_length.
  apply take_ge. unfold len in *. lia.
Qed.

Lemma splitext_generic_ext (p : str) (sep : ascii) (altsep : option ascii)
    (extsep : ascii) :
  (splitext_generic p sep altsep extsep).2 ≠ [] →
  let sepIndex := match altsep with
                  | Some a => Z.max (rfind sep p) (rfind a p)
                  | None => rfind sep p
                  end in
  sepIndex < rfind extsep p
  ∧ is_Some (skip_leading_dots p extsep (rfind extsep p)
               (range (sepIndex + 1) (rfind extsep p)))
  ∧ (splitext_generic p sep altsep extsep).1 = slice 0 (rfind extsep p) p.
Proof.
  intros Hext sepIndex. unfold splitext_generic in *. fold sepIndex in Hext |- *.
  destruct (sepIndex <? rfind extsep p) eqn:E; [|done].
  apply Z.ltb_lt in E. split; [done |].
  destruct (skip_leading_dots _ _ _ _) as [r|] eqn:Er; [|done].
  split; [done |]. clear Hext.
  revert Er. generalize (range (sepIndex + 1) (rfind extsep p)).
  induction l as [|i l IH]; cbn; [done |].
  destruct (decide _); [done |]. by intros [= <-].
Qed.

(** The path with another extension in the place of its own splits at the
    same index. *)
Lemma splitext_generic_replace (p t : str) (sep : ascii) (altsep : option ascii)
    (extsep : ascii) :
  (splitext_generic p sep altsep extsep).2 ≠ [] →
  rfind extsep t = 0 → sep ∉ t → (∀ a, altsep = Some a → a ∉ t) →
  splitext_generic ((splitext_generic p sep altsep extsep).1 ++ t) sep altsep extsep
  = ((splitext_generic p sep altsep extsep).1, t).
Proof.
  intros Hext Hdot Hsep Haltsep.
  pose proof (splitext_generic_join p sep altsep extsep) as Hjoin.
  destruct (splitext_generic_ext p sep altsep extsep Hext) as (Hlt & Hskip & Hbase).
  set (b := (splitext_generic p sep altsep extsep).1) in *.
  set (e := (splitext_generic p sep altsep extsep).2) in *.
  pose proof (rfind_bound extsep p) as Hdotp.
  assert (-1 ≤ match altsep with
               | Some a => Z.max (rfind sep p) (rfind a p)
               | None => rfind sep p
               end) as Hsepp.
  { pose proof (rfind_bound sep p).
    destruct altsep as [a|]; [pose proof (rfind_bound a p) |]; lia. }
  assert (len b = rfind extsep p) as Hlen.
  { rewrite Hbase, len_slice. rewrite !slice_bound_nonneg by lia. lia. }
  assert (∀ c, rfind c p < len b → c ∉ t → rfind c (b ++ t) = rfind c p) as Hsame.
  { intros c Hc Hct. rewrite rfind_app, (rfind_absent c t Hct). cbn.
    rewrite <- Hjoin at 1. rewrite rfind_app.
    destruct (0 <=? rfind c e) eqn:Ee; [|done].
    apply Z.leb_le in Ee. rewrite <- Hjoin, rfind_app in Hc.
    replace (0 <=? rfind c e) with true in Hc by lia. lia. }
  unfold splitext_generic at 1.
  assert (rfind extsep (b ++ t) = len b) as ->.
  { rewrite rfind_app, Hdot. cbn. lia. }
  assert (match altsep with
          | Some a => Z.max (rfind sep (b ++ t)) (rfind a (b ++ t))
          | None => rfind sep (b ++ t)
          end
          = match altsep with
            | Some a => Z.max (rfind sep p) (rfind a p)
            | None => rfind sep p
            end) as ->.
  { destruct altsep as [a|].
    - rewrite !Hsame; [done | lia | by apply Haltsep | lia | done].
    - rewrite Hsame; [done | lia | done]. }
  replace (_ <? len b) with true by lia.
  rewrite (skip_leading_dots_prefix b e t extsep (len b) (len b)).
  - by rewrite slice_prefix, slice_suffix.
  - apply Forall_forall. intros i Hi. apply elem_of_range in Hi. lia.
  - rewrite Hjoin, Hlen. exact Hskip.
Qed.

(** ** [load_tif] *)

Lemma attempt_bind_run {T U : Type} (m : attempt T) (k : T → attempt U) (info : dict) :
  (m ≫= k) info
  = match m info with
    | (info', Some v) => k v info'
    | (info', None) => (info', None)
    end.
Proof. reflexivity. Qed.

Section Keeps.
Context {PS : PyStr} {FI : Files} {NIO : NumPyIO} {TL : TiffLib}.
Variable P : dict → Prop.
Variable keys : list str.
Hypothesis HP : ∀ info key value, key ∈ keys → P info → P (setitem info key value).

Lemma keeps_bind {T U : Type} (m : attempt T) (k : T → attempt U) :
  (∀ info, P info → P (m info).1) →
  (∀ x info, P info → P (k x info).1) →
  ∀ info, P info → P ((m ≫= k) info).1.
Proof.
  intros Hm Hk info Hinfo. rewrite attempt_bind_run.
  specialize (Hm info Hinfo). destruct (m info) as [info' [v|]]; [|done].
  by apply Hk.
Qed.

Lemma keeps_expr {T : Type} (value : outcome T) :
  ∀ info, P info → P (try_expr value info).1.
Proof. done. Qed.

Lemma keeps_read {T : Type} (value : dict → outcome T) :
  ∀ info, P info → P (try_read value info).1.
Proof. done. Qed.

Lemma keeps_ret {T : Type} (v : T) : ∀ info, P info → P ((mret v : attempt T) info).1.
Proof. done. Qed.

Lemma keeps_assign (key : str) (value : pyval) :
  key ∈ keys → ∀ info, P info → P (try_assign key value info).1.
Proof. intros Hkey info Hinfo. by apply HP. Qed.

Lemma keeps_assign_in (outer key : str) (value : pyval) :
  outer ∈ keys → ∀ info, P info → P (try_assign_in outer key value info).1.
Proof.
  intros Hkey info Hinfo. unfold try_assign_in.
  destruct (getitem info outer) as [[]|]; try done. by apply HP.
Qed.

Ltac in_keys Hkeys :=
  apply (Hkeys _); apply (bool_decide_unpack _); vm_compute; exact I.

Ltac keeps_step :=
  first
    [ apply keeps_expr
    | apply keeps_read
    | apply keeps_ret
    | apply keeps_assign
    | apply keeps_assign_in
    | apply keeps_bind; [|intros ?] ].

Lemma andor_metadata_keeps (micromanager_metadata : pyval) :
  andor_keys ⊆ keys →
  ∀ info, P info → P (andor_metadata micromanager_metadata info).1.
Proof.
  intros Hkeys. unfold andor_metadata.
  apply keeps_bind; [apply keeps_expr |]. intros fields.
  destruct fields as [|f1 [|f2 [|f3 [|f4 [|f5 [|f6 fields]]]]]];
    try apply keeps_expr.
  repeat keeps_step; try in_keys Hkeys.
  destruct (py_eq_str _ _); repeat keeps_step.
  in_keys Hkeys.
Qed.

Lemma micromanager_info_keeps (tif : TiffFile) :
  metadata_keys ⊆ keys →
  ∀ info, P info → P (micromanager_info tif info).1.
Proof.
  intros Hkeys. unfold micromanager_info.
  repeat keeps_step; try in_keys Hkeys.
  destruct (py_eq_str _ _); [|apply keeps_ret].
  apply andor_metadata_keeps. intros k Hk. apply Hkeys.
  unfold metadata_keys. apply elem_of_app. by right.
Qed.
End Keeps.

Section LoadTif.
Context {PS : PyStr} {FI : Files} {NIO : NumPyIO} {TL : TiffLib}.

Lemma load_tif_Done (path : str) (fs : filesystem) (tif : TiffFile) (movie : ndarray)
    (name : str) (frames height width : Z) :
  tiff_open path fs = Done tif →
  asarray tif = Done movie →
  page0_dtype_name tif = Done name →
  ndarray_shape movie = [frames; height; width] →
  load_tif path fs
  = Done (movie, (micromanager_info tif (base_info tif name frames height width)).1).
Proof.
  intros Hopen Harray Hname Hshape. unfold load_tif.
  rewrite Hopen. cbv [mbind outcome_bind]. rewrite Harray, Hname, Hshape.
  reflexivity.
Qed.

Lemma load_tif_inv (path : str) (fs : filesystem) (movie : ndarray) (info : dict) :
  load_tif path fs = Done (movie, info) →
  ∃ tif name frames height width,
    tiff_open path fs = Done tif ∧ asarray tif = Done movie
    ∧ page0_dtype_name tif = Done name
    ∧ ndarray_shape movie = [frames; height; width]
    ∧ info = (micromanager_info tif (base_info tif name frames height width)).1.
Proof.
  unfold load_tif. cbv [mbind outcome_bind].
  destruct (tiff_open path fs) as [tif|] eqn:Hopen; [|done].
  destruct (asarray tif) as [movie'|] eqn:Harray; [|done].
  destruct (page0_dtype_name tif) as [name|] eqn:Hname; [|done].
  destruct (ndarray_shape movie') as [|f [|h [|w [|]]]] eqn:Hshape; try done.
  intros [= -> <-]. by exists tif, name, f, h, w.
Qed.

Lemma base_info_kept (tif : TiffFile) (name : str) (frames height width : Z)
    (key : str) (value : pyval) :
  (key, value) ∈ base_info tif name frames height width →
  getitem (micromanager_info tif (base_info tif name frames height width)).1 key
  = Done value.
Proof.
  intros Hin.
  assert ((key ∉ metadata_keys) ∧ getitem (base_info tif name frames height width) key
                                = Done value) as [Hkey Hget].
  { unfold base_info in Hin.
    repeat (apply elem_of_cons in Hin as [[= -> ->]|Hin];
            [split; [apply (bool_decide_unpack _); vm_compute; exact I | reflexivity] |]).
    by apply elem_of_nil in Hin. }
  apply (micromanager_info_keeps (λ info, getitem info key = Done value) metadata_keys);
    [|done|done].
  intros info key' value' Hkey' Hinfo. rewrite getitem_setitem_ne; [done |].
  by intros ->.
Qed.

(** X11.  Whenever the TIFF opens, its array has three axes and the data
    type of its first page has a name, [load_tif] returns, whatever the
    Micro-Manager metadata holds or lacks: the info has the six entries of
    the file itself ([Byte Order], [Data Type], [File], [Frames],
    [Height], [Width]) with the values of the file, and no key besides
    them and those that the [try] sets. *)
Theorem load_tif_base_info (path : str) (fs : filesystem) (tif : TiffFile)
    (movie : ndarray) (name : str) (frames height width : Z) :
  tiff_open path fs = Done tif →
  asarray tif = Done movie →
  page0_dtype_name tif = Done name →
  ndarray_shape movie = [frames; height; width] →
  ∃ info, load_tif path fs = Done (movie, info)
    ∧ (∀ key value, (key, value) ∈ base_info tif name frames height width →
                    getitem info key = Done value)
    ∧ (∀ key value, getitem info key = Done value →
                    key ∈ (base_info tif name frames height width).*1
                    ∨ key ∈ metadata_keys).
Proof.
  intros Hopen Harray Hname Hshape. eexists. split; [by eapply load_tif_Done |].
  split; [apply base_info_kept |].
  apply (micromanager_info_keeps
           (λ info, ∀ key value, getitem info key = Done value →
                      key ∈ (base_info tif name frames height width).*1
                      ∨ key ∈ metadata_keys) metadata_keys); [|done|].
  - intros info key' value' Hkey' Hinfo key value.
    destruct (decide (key' = key)) as [->|Hne]; [by right |].
    rewrite getitem_setitem_ne by done. apply Hinfo.
  - intros key value Hget. left.
    unfold base_info in *. simpl in Hget.
    repeat (destruct (decide _) as [<-|_] in Hget;
            [apply (bool_decide_unpack _); vm_compute; exact I |]).
    done.
Qed.

Lemma setitem_present (d : dict) (key key' : str) (value : pyval) :
  (∃ v, getitem d key = Done v) → ∃ v, getitem (setitem d key' value) key = Done v.
Proof.
  intros [v Hv]. destruct (decide (key' = key)) as [->|Hne].
  - exists value. apply getitem_setitem_eq.
  - exists v. by rewrite getitem_setitem_ne.
Qed.

(** X12.  The metadata is read in sequence and the first exception ends
    it: when the info that [load_tif] returns has the excitation
    wavelength, the last entry to be read, it has the comments, the
    computer, the directory and the camera as well. *)
Theorem load_tif_metadata_in_order (path : str) (fs : filesystem) (movie : ndarray)
    (info : dict) (wavelength : pyval) :
  load_tif path fs = Done (movie, info) →
  getitem info (lit "Excitation Wavelength"%string) = Done wavelength →
  ∀ key, key ∈ first_entries → ∃ value, getitem info key = Done value.
Proof.
  intros Hload.
  apply load_tif_inv in Hload as (tif & name & F & H & W & _ & _ & _ & _ & ->).
  set (absent := λ info : dict, ∀ v, getitem info (lit "Excitation Wavelength"%string)
                                     ≠ Done v).
  set (present := λ info : dict, ∀ key, key ∈ first_entries →
                                        ∃ value, getitem info key = Done value).
  assert (∀ info key value, key ∈ andor_keys →
            absent info ∧ present info →
            absent (setitem info key value) ∧ present (setitem info key value)) as HP.
  { intros info key value Hkey [Habsent Hpresent]. split.
    - intros v. rewrite getitem_setitem_ne; [apply Habsent |].
      intros ->. revert Hkey. apply (bool_decide_unpack _). vm_compute. exact I.
    - intros key' Hkey'. by apply setitem_present, Hpresent. }
  enough (let info := (micromanager_info tif (base_info tif name F H W)).1 in
          absent info ∨ present info) as [Habsent|Hpresent].
  { intros Hw. by destruct (Habsent wavelength). }
  { intros _. exact Hpresent. }
  unfold micromanager_info.
  cbv beta iota zeta delta [mbind mret attempt_bind attempt_ret try_expr try_read
                            try_assign fst snd].
  repeat match goal with
         | |- context [match ?x with Done _ => _ | Fail _ => _ end] =>
             destruct x eqn:?
         end;
    cbv beta iota; try (left; intros ?; vm_compute; discriminate).
  all: match goal with
       | |- context [(if ?b then andor_metadata ?mm else _) ?i] =>
           assert (absent i ∧ present i) as Hc;
             [ split;
               [ intros ?; vm_compute; discriminate
               | intros key Hkey; unfold first_entries in Hkey;
                 repeat (apply elem_of_cons in Hkey as [->|Hkey];
                         [eexists; vm_compute; reflexivity |]);
                 by apply elem_of_nil in Hkey ]
             | destruct b;
               [ pose proof (andor_metadata_keeps _ _ HP mm (λ k Hk, Hk) i Hc)
                   as [Ha Hp];
                 destruct (andor_metadata mm i) as [info1 [[]|]]
               | destruct Hc as [Ha Hp] ];
               cbv beta iota;
               first [ left; exact Ha
                     | right; unfold present; intros key Hkey;
                       apply setitem_present; apply Hp; exact Hkey ] ]
       end.
Qed.
End LoadTif.

(** ** [to_raw_combined] and [_to_raw_single] *)

Ltac key_ne := vm_compute; discriminate.

Section Conversion.
Context {OS : OsPath} {PS : PyStr} {FI : Files} {CO : Codecs} {NIO : NumPyIO}
  {TL : TiffLib}.

Lemma to_raw_combined_loop_length (path0 raw_file_name : str) (rest rest' : list str) :
  length rest = length rest' →
  ∀ info fs,
    to_raw_combined_loop path0 raw_file_name rest info fs
    = to_raw_combined_loop path0 raw_file_name rest' info fs.
Proof.
  revert rest'. induction rest as [|p rest IH]; intros [|p' rest'] Hlen info fs;
    try done.
  cbn [to_raw_combined_loop].
  destruct (load_tif path0 fs) as [[movie info_single]|]; [|done].
  destruct (getitem info_single _); [|done].
  destruct (if py_eq_str _ _ then _ else _) as [movie' info'].
  apply IH. by injection Hlen.
Qed.

(** X13.  The paths after the first are never opened by
    [to_raw_combined] (each pass of its loop loads [paths[0]]): the
    conversion depends on them through their number alone. *)
Theorem to_raw_combined_ignores_rest (path0 : str) (rest rest' : list str)
    (fs : filesystem) :
  length rest = length rest' →
  to_raw_combined (path0 :: rest) fs = to_raw_combined (path0 :: rest') fs.
Proof.
  intros Hlen. unfold to_raw_combined.
  destruct (splitext path0) as [path_base path_extension].
  destruct (load_tif path0 _) as [[movie info]|]; [|done].
  destruct (getitem info _); [|done].
  destruct (if py_eq_str _ _ then _ else _) as [movie' info'].
  by rewrite (to_raw_combined_loop_length _ _ rest rest' Hlen).
Qed.

Lemma raw_yaml_ne (path_base : str) :
  path_base ++ lit ".raw"%string ≠ path_base ++ lit ".yaml"%string.
Proof. intros H. by apply app_inv_head in H. Qed.

Lemma fs_append_eq (path : str) (content old : bytes) (fs : filesystem) :
  fs path = Some old →
  fs_append path content fs path = Some (bytes_app old content).
Proof. intros H. unfold fs_append, fs_write. by rewrite decide_True, H. Qed.

Lemma fs_append_ne (path q : str) (content : bytes) (fs : filesystem) :
  q ≠ path → fs_append path content fs q = fs q.
Proof. intros H. unfold fs_append, fs_write. by rewrite decide_False. Qed.

Section Loop.
Variables (path0 raw_file_name : str) (fs : filesystem) (movie movie' : ndarray)
  (info info' : dict) (order : pyval).
Hypothesis Hload : ∀ fs' : filesystem,
  (∀ q, q ≠ raw_file_name → fs' q = fs q) → load_tif path0 fs' = Done (movie, info).
Hypothesis Horder : getitem info (lit "Byte Order"%string) = Done order.
Hypothesis Hswap :
  (if py_eq_str order (lit ">"%string)
   then to_little_endian movie info' else (movie, info')) = (movie', info').

Lemma to_raw_combined_loop_run (rest : list str) :
  ∀ (fs1 : filesystem) (content : bytes),
    (∀ q, q ≠ raw_file_name → fs1 q = fs q) →
    fs1 raw_file_name = Some content →
    ∃ fs2, to_raw_combined_loop path0 raw_file_name rest info' fs1 = (fs2, Done info')
      ∧ fs2 raw_file_name
        = Some (Nat.iter (length rest) (λ b, bytes_app b (tofile movie')) content)
      ∧ ∀ q, q ≠ raw_file_name → fs2 q = fs q.
Proof.
  induction rest as [|p rest IH]; intros fs1 content Hfs1 Hraw.
  - by exists fs1.
  - cbn [to_raw_combined_loop]. rewrite (Hload fs1 Hfs1), Horder, Hswap.
    destruct (IH (fs_append raw_file_name (tofile movie') fs1)
                (bytes_app content (tofile movie'))) as (fs2 & Hrun & Hfs2 & Hother).
    + intros q Hq. rewrite fs_append_ne by done. by apply Hfs1.
    + by apply fs_append_eq.
    + exists fs2. split; [exact Hrun |]. split; [|exact Hother].
      rewrite Hfs2. cbn [length]. by rewrite Nat.iter_succ_r.
Qed.
End Loop.

Lemma to_little_endian_again (movie : ndarray) (info : dict) (order : pyval) :
  let swapped := (if py_eq_str order (lit ">"%string)
                  then to_little_endian movie info else (movie, info)) in
  (if py_eq_str order (lit ">"%string)
   then to_little_endian movie swapped.2 else (movie, swapped.2)) = swapped.
Proof.
  destruct (py_eq_str order _); [|done].
  unfold to_little_endian. cbn [snd]. by rewrite setitem_setitem.
Qed.

(** X14.  When the first TIFF reads as [(movie, info)], whatever the raw
    file holds by then, [to_raw_combined] of a list of [n] paths succeeds
    and writes the movie of the first path [n] times to the [.raw] file,
    byte-swapped if its byte order is [>]; the [.yaml] file holds the info
    of the first movie (its [Frames] too) with [File] the base name of the
    raw file and [Original File] the name of the TIFF; no other file is
    touched. *)
Theorem to_raw_combined_repeats_first (path0 : str) (rest : list str)
    (fs : filesystem) (movie : ndarray) (info : dict) (order original : pyval) :
  let raw_file_name := (splitext path0).1 ++ lit ".raw"%string in
  let info_file_name := (splitext path0).1 ++ lit ".yaml"%string in
  let little := if py_eq_str order (lit ">"%string) then byteswap movie else movie in
  (∀ fs' : filesystem, (∀ q, q ≠ raw_file_name → fs' q = fs q) →
                       load_tif path0 fs' = Done (movie, info)) →
  getitem info (lit "Byte Order"%string) = Done order →
  getitem info (lit "File"%string) = Done original →
  ∃ fs' info',
    to_raw_combined (path0 :: rest) fs = (fs', Done tt)
    ∧ fs' raw_file_name
      = Some (Nat.iter (length (path0 :: rest)) (λ b, bytes_app b (tofile little))
                no_bytes)
    ∧ fs' info_file_name = Some (yaml_safe_dump (PDict info'))
    ∧ (∀ q, q ≠ raw_file_name → q ≠ info_file_name → fs' q = fs q)
    ∧ getitem info' (lit "File"%string) = Done (PStr (basename raw_file_name))
    ∧ getitem info' (lit "Original File"%string) = Done original
    ∧ getitem info' (lit "Frames"%string) = getitem info (lit "Frames"%string).
Proof.
  intros raw_file_name info_file_name little Hload Horder Hfile.
  unfold to_raw_combined. subst raw_file_name info_file_name.
  destruct (splitext path0) as [path_base path_extension]. cbn [fst] in *.
  set (raw_file_name := path_base ++ lit ".raw"%string) in *.
  set (fs0 := fs_write raw_file_name no_bytes fs).
  assert (∀ q, q ≠ raw_file_name → fs0 q = fs q) as Hfs0.
  { intros q Hq. unfold fs0, fs_write. by rewrite decide_False. }
  rewrite (Hload fs0 Hfs0), Horder.
  pose proof (to_little_endian_again movie info order) as Hswap. cbv zeta in Hswap.
  destruct (if py_eq_str order (lit ">"%string)
            then to_little_endian movie info else (movie, info))
    as [movie' info1] eqn:Hswapped.
  cbn [snd] in Hswap.
  assert (movie' = little ∧ ∀ key, key ≠ lit "Byte Order"%string →
                                   getitem info1 key = getitem info key)
    as [-> Hinfo1].
  { subst little. destruct (py_eq_str order _); injection Hswapped as <- <-;
      (split; [done |]); [|done].
    intros key Hkey. by rewrite getitem_setitem_ne. }
  destruct (to_raw_combined_loop_run path0 raw_file_name fs movie little info info1
              order Hload Horder Hswap rest
              (fs_append raw_file_name (tofile little) fs0)
              (bytes_app no_bytes (tofile little)))
    as (fs2 & -> & Hfs2 & Hother).
  { intros q Hq. rewrite fs_append_ne by done. by apply Hfs0. }
  { apply fs_append_eq. unfold fs0, fs_write. by rewrite decide_True. }
  unfold save_raw_info.
  destruct (pop_Done (setitem info1 (lit "Generated by"%string)
                        (PStr (lit "Picasso ToRaw"%string)))
              (lit "File"%string) original) as (d' & -> & Hd').
  { rewrite getitem_setitem_ne by key_ne. by rewrite Hinfo1. }
  eexists _, _. split; [reflexivity |].
  pose proof (raw_yaml_ne path_base) as Hne.
  split; [|split; [|split; [|split; [|split]]]].
  - unfold fs_write at 1. rewrite decide_False by done.
    rewrite Hfs2. cbn [length]. by rewrite Nat.iter_succ_r.
  - unfold fs_write. by rewrite decide_True.
  - intros q Hq1 Hq2. unfold fs_write at 1. rewrite decide_False by done.
    by apply Hother.
  - apply getitem_setitem_eq.
  - rewrite getitem_setitem_ne by key_ne. apply getitem_setitem_eq.
  - rewrite !getitem_setitem_ne by key_ne. rewrite Hd' by key_ne.
    rewrite getitem_setitem_ne by key_ne. apply Hinfo1; key_ne.
Qed.





End Conversion.

(** ** [load_raw] *)

Section RoundTrip.
Context {OS : OsPath} {PS : PyStr} {FI : Files} {CO : Codecs} {NIO : NumPyIO}
  {TL : TiffLib}.

Lemma splitext_replace (path t : str) :
  (splitext path).2 ≠ [] →
  rfind "."%char t = 0 → sep ∉ t → (∀ a, altsep = Some a → a ∉ t) →
  splitext ((splitext path).1 ++ t) = ((splitext path).1, t).
Proof. apply splitext_generic_replace. Qed.

(** X18.  The info that [load_raw] returns says little-endian, whatever the
    file said, and agrees with the first document of the [.yaml] file on
    every other key. *)
Theorem load_raw_little_endian (path : str) (memory_map : bool) (fs : filesystem)
    (movie : ndarray) (info : pyval) :
  load_raw path memory_map fs = Done (movie, info) →
  subscript info (lit "Byte Order"%string) = Done (PStr (lit "<"%string))
  ∧ ∃ info0 docs,
      load_info path fs = Done (info0 :: docs)
      ∧ ∀ key, key ≠ lit "Byte Order"%string →
               subscript info key = subscript info0 key.
Proof.
  unfold load_raw. cbv [mbind outcome_bind].
  destruct (load_info path fs) as [[|info0 docs]|]; try done.
  destruct (subscript info0 (lit "Data Type"%string)); [|done].
  destruct (np_dtype _); [|done].
  destruct (subscript info0 (lit "Frames"%string)); [|done].
  destruct (subscript info0 (lit "Height"%string)); [|done].
  destruct (subscript info0 (lit "Width"%string)); [|done].
  destruct (if memory_map then _ else _); [|done].
  destruct (subscript info0 (lit "Byte Order"%string)) as [order|] eqn:Horder;
    [|done].
  destruct (py_eq_str order _) eqn:Heq; cbn [negb].
  - intros [= _ <-]. apply py_eq_str_true in Heq. subst order.
    split; [done |]. by exists info0, docs.
  - destruct info0 as [| | | | |d]; try done.
    cbn [to_little_endian]. intros [= _ <-]. split.
    + cbn. apply getitem_setitem_eq.
    + exists (PDict d), docs. split; [done |].
      intros key Hkey. cbn. by rewrite getitem_setitem_ne.
Qed.

Lemma getitem_little (movie : ndarray) (info : dict) (order : pyval) (b : bool)
    (key : str) :
  key ≠ lit "Byte Order"%string →
  getitem (if b then to_little_endian movie info else (movie, info)).2 key
  = getitem info key.
Proof.
  intros Hkey. destruct b; [|done]. cbn [to_little_endian snd].
  by rewrite getitem_setitem_ne.
Qed.

(** X17.  What [_to_raw_single] writes, [load_raw] reads back from the
    [.raw] file: the array that numpy builds from the little-endian bytes
    of the movie, without another byte swap, and an info with [Byte Order]
    [<], [Original File] the name of the TIFF and [File] the base name of
    the raw file.  The libraries are taken to read back what they write,
    and the separators of the platform not to occur in [.raw]. *)
Theorem to_raw_single_load_raw (path : str) (fs : filesystem) (tif : TiffFile)
    (movie loaded : ndarray) (name : str) (frames height width : Z)
    (memory_map : bool) (type : dtype) :
  let raw_file_name := (splitext path).1 ++ lit ".raw"%string in
  let little := if negb (bool_decide (byteorder tif = lit "<"%string))
                then byteswap movie else movie in
  let content := bytes_app no_bytes (tofile little) in
  let shape := (PInt frames, PInt height, PInt width) in
  (splitext path).2 ≠ [] →
  lower (splitext path).2 ∈ [lit ".tif"%string; lit ".tiff"%string] →
  sep ∉ lit ".raw"%string → (∀ a, altsep = Some a → a ∉ lit ".raw"%string) →
  tiff_open path fs = Done tif →
  asarray tif = Done movie →
  page0_dtype_name tif = Done name →
  ndarray_shape movie = [frames; height; width] →
  (∀ v, yaml_load_all (yaml_safe_dump v) = Done [v]) →
  np_dtype (PStr name) = Done type →
  (if memory_map then memmap content type shape
   else m ← fromfile content type; reshape m shape) = Done loaded →
  ∃ fs' info,
    _to_raw_single path fs = (fs', Done tt)
    ∧ load_raw raw_file_name memory_map fs' = Done (loaded, PDict info)
    ∧ getitem info (lit "Byte Order"%string) = Done (PStr (lit "<"%string))
    ∧ getitem info (lit "Original File"%string) = Done (PStr (filename tif))
    ∧ getitem info (lit "File"%string) = Done (PStr (basename raw_file_name)).
Proof.
  intros raw_file_name little content shape Hext Hlower Hsep Haltsep
    Hopen Harray Hname Hshape Hyaml Htype Hloaded.
  pose proof (load_tif_Done path fs tif movie name frames height width
                Hopen Harray Hname Hshape) as Hload.
  set (info0 := (micromanager_info tif (base_info tif name frames height width)).1)
    in *.
  assert (∀ key value, (key, value) ∈ base_info tif name frames height width →
                       getitem info0 key = Done value) as Hbase
    by apply base_info_kept.
  assert (getitem info0 (lit "Byte Order"%string) = Done (PStr (byteorder tif)))
    as Horder
    by (apply Hbase; unfold base_info;
        repeat first [apply list_elem_of_here | apply list_elem_of_further]).
  assert (getitem info0 (lit "File"%string) = Done (PStr (filename tif))) as Hfile
    by (apply Hbase; unfold base_info;
        repeat first [apply list_elem_of_here | apply list_elem_of_further]).
  assert (getitem info0 (lit "Data Type"%string) = Done (PStr name)) as Hdata
    by (apply Hbase; unfold base_info;
        repeat first [apply list_elem_of_here | apply list_elem_of_further]).
  assert (getitem info0 (lit "Frames"%string) = Done (PInt frames)) as Hframes
    by (apply Hbase; unfold base_info;
        repeat first [apply list_elem_of_here | apply list_elem_of_further]).
  assert (getitem info0 (lit "Height"%string) = Done (PInt height)) as Hheight
    by (apply Hbase; unfold base_info;
        repeat first [apply list_elem_of_here | apply list_elem_of_further]).
  assert (getitem info0 (lit "Width"%string) = Done (PInt width)) as Hwidth
    by (apply Hbase; unfold base_info;
        repeat first [apply list_elem_of_here | apply list_elem_of_further]).
  pose proof (splitext_replace path (lit ".raw"%string) Hext eq_refl Hsep Haltsep)
    as Hsplit.
  unfold _to_raw_single, load_raw, load_info. fold raw_file_name in Hsplit |- *.
  subst raw_file_name. rewrite Hsplit.
  destruct (splitext path) as [path_base path_extension]. cbn [fst snd] in *.
  set (raw_file_name := path_base ++ lit ".raw"%string) in *.
  rewrite bool_decide_eq_true_2 by done.
  rewrite Hload, Horder.
  change (py_eq_str (PStr (byteorder tif)) (lit "<"%string))
    with (bool_decide (byteorder tif = lit "<"%string)).
  set (swap := negb (bool_decide (byteorder tif = lit "<"%string))) in *.
  assert ((if swap then to_little_endian movie info0 else (movie, info0)).1 = little)
    as Hlittle by (subst little; by destruct swap).
  assert (getitem (if swap then to_little_endian movie info0 else (movie, info0)).2
            (lit "Byte Order"%string) = Done (PStr (lit "<"%string))) as Horder'.
  { subst swap. case_bool_decide as Hb; cbn [negb snd].
    - by rewrite Horder, Hb.
    - cbn [to_little_endian snd]. apply getitem_setitem_eq. }
  pose proof (λ key, getitem_little movie info0 (PStr (byteorder tif)) swap key)
    as Hkeys.
  destruct (if swap then to_little_endian movie info0 else (movie, info0))
    as [movie' info1].
  cbn [fst snd] in *. subst movie'.
  unfold save_raw_info.
  destruct (pop_Done (setitem info1 (lit "Generated by"%string)
                        (PStr (lit "Picasso ToRaw"%string)))
              (lit "File"%string) (PStr (filename tif))) as (d' & -> & Hd').
  { rewrite getitem_setitem_ne by key_ne. rewrite Hkeys by key_ne. exact Hfile. }
  pose proof (raw_yaml_ne path_base) as Hne.
  eexists _, (setitem (setitem d' (lit "Original File"%string) (PStr (filename tif)))
                (lit "File"%string) (PStr (basename raw_file_name))).
  split; [reflexivity |].
  assert (∀ key, key ∉ [lit "Byte Order"%string; lit "Generated by"%string;
                        lit "Original File"%string; lit "File"%string] →
            getitem (setitem (setitem d' (lit "Original File"%string)
                                (PStr (filename tif)))
                       (lit "File"%string) (PStr (basename raw_file_name))) key
            = getitem info0 key) as Hrest.
  { intros key Hkey.
    rewrite !getitem_setitem_ne, Hd', getitem_setitem_ne, Hkeys; [done |..];
      intros Heq; apply Hkey; subst key; apply (bool_decide_unpack _);
      vm_compute; exact I. }
  split; [|split; [|split]].
  - rewrite fs_read_write_eq. cbv [mbind outcome_bind]. rewrite Hyaml.
    cbn [subscript].
    rewrite (Hrest (lit "Data Type"%string)), Hdata, Htype
      by (apply (bool_decide_unpack _); vm_compute; exact I).
    rewrite (Hrest (lit "Frames"%string)), Hframes
      by (apply (bool_decide_unpack _); vm_compute; exact I).
    rewrite (Hrest (lit "Height"%string)), Hheight
      by (apply (bool_decide_unpack _); vm_compute; exact I).
    rewrite (Hrest (lit "Width"%string)), Hwidth
      by (apply (bool_decide_unpack _); vm_compute; exact I).
    rewrite fs_read_write_ne by done.
    unfold fs_read. rewrite (fs_append_eq _ _ no_bytes)
      by (unfold fs_write; by rewrite decide_True).
    fold content. fold shape.
    assert (getitem (setitem (setitem d' (lit "Original File"%string)
                                (PStr (filename tif)))
                       (lit "File"%string) (PStr (basename raw_file_name)))
              (lit "Byte Order"%string) = Done (PStr (lit "<"%string))) as ->.
    { rewrite !getitem_setitem_ne, Hd', getitem_setitem_ne by key_ne.
      exact Horder'. }
    destruct memory_map.
    + by rewrite Hloaded.
    + cbv [mbind outcome_bind] in Hloaded.
      destruct (fromfile content type) as [m|]; [|done]. by rewrite Hloaded.
  - rewrite !getitem_setitem_ne, Hd', getitem_setitem_ne by key_ne.
    exact Horder'.
  - rewrite getitem_setitem_ne by key_ne. apply getitem_setitem_eq.
  - apply getitem_setitem_eq.
Qed.
End RoundTrip.

(** ** [to_raw] *)

Section ToRaw.
Context {OS : OsPath} {PS : PyStr} {FI : Files} {CO : Codecs} {NIO : NumPyIO}
  {TL : TiffLib} {GL : Glob} {RE : Re}.

(** X19.  [to_raw] does not return when the first path that [glob] finds
    does not end in [.ome.tif], backslashes replaced: the loop of
    [get_movie_groups] does not end. *)
Theorem to_raw_hangs (path p : str) (ps : list str) (fs : filesystem) :
  glob path fs = p :: ps →
  endswith (replace_char "\"%char "/"%char p) ome_tif = false →
  ∀ fuel, to_raw fuel path fs = None.
Proof.
  intros Hglob Hend fuel. unfold to_raw, get_movie_groups.
  rewrite Hglob, fmap_cons. by rewrite movie_groups_loop_hangs.
Qed.
End ToRaw.

(** * Concrete runs of the further properties *)

Import ReStandin.
Import IoStandin.

(** X1, witness: the 8x8 surface with [roi = 7] (empty window) and with
    [roi = 5] (window of side 6). *)
Lemma search_window_empty_iff_witness :
  get_image_shift (spot 8 8 0 0) (ones 8 8) 5 (Some 7) = Raise EmptyArgmax
  ∧ ∃ y x, brightest (roi_crop surface_center 8 8 (Some 5)).2 = Ok (y, x).
Proof.
  split.
  - destruct (search_window_empty_iff (spot 8 8 0 0) (ones 8 8) 5 7 surface_center
                8 8 xcorr_center eq_refl rect_surface_center)
      as (_ & Hraise & _); [lia | lia |].
    apply Hraise. by vm_compute.
  - destruct (search_window_empty_iff (spot 8 8 0 0) (ones 8 8) 5 5 surface_center
                8 8 xcorr_center eq_refl rect_surface_center)
      as (_ & _ & Hfound & _); [lia | lia |].
    destruct Hfound as (y & x & Hb & _); [by vm_compute |]. by exists y, x.
Defined.

(** X2, witness: two 8x8 segments followed by a 3x3 one; the pair (0, 2) is
    the first that raises. *)
Lemma rcc_first_error_witness :
  rcc_system [spot 8 8 0 0; spot 8 8 0 0; ones 3 3] None = Raise BroadcastError
  ∧ rcc [spot 8 8 0 0; spot 8 8 0 0; ones 3 3] None = Raise BroadcastError.
Proof.
  apply (rcc_first_error (NP := QNumPy) [spot 8 8 0 0; spot 8 8 0 0; ones 3 3] None
           [(0, 1)] [(1, 2)] (0, 2) [((0 # 2)%Q, (0 # 2)%Q)] BroadcastError).
  - by vm_compute.
  - constructor; [by vm_compute | constructor].
  - by vm_compute.
Defined.

(** X3, witness: two 8x8 segments and [max_shift = 7]. *)
Lemma rcc_max_shift_empty_window_witness :
  rcc [spot 8 8 0 0; ones 8 8] (Some 7) = Raise EmptyArgmax.
Proof.
  apply (rcc_max_shift_empty_window (NP := QNumPy) [spot 8 8 0 0; ones 8 8] 7
           (spot 8 8 0 0) (ones 8 8) surface_center 8 8 eq_refl eq_refl
           xcorr_center eq_refl rect_surface_center); [lia | lia | by vm_compute].
Defined.

(** X4, witness: the pair (0, 2) of three segments, on the trajectory
    5, 7, 4. *)
Lemma design_matrix_telescopes_witness :
  ∃ (rij A : matrix Q) (flag : Z),
    rcc_system three_segments None = Ok (rij, A, flag)
    ∧ ∃ bits, A !! 1%nat = Some (of_bit <$> bits)
              ∧ dotZ bits (increments [5; 7; 4]) = 4 - 5.
Proof.
  destruct (design_matrix_telescopes (NP := QNumPy) three_segments None
              [((0 # 2)%Q, (0 # 2)%Q); ((0 # 2)%Q, (0 # 2)%Q); ((0 # 2)%Q, (0 # 2)%Q)]
              [5; 7; 4])
    as (rij & A & flag & Hsys & Hrows).
  - vm_compute. discriminate.
  - repeat (constructor; [by vm_compute |]). constructor.
  - reflexivity.
  - exists rij, A, flag. split; [exact Hsys |].
    destruct (Hrows 1%nat 0 2 eq_refl) as (bits & ti & tj & HA & Hti & Htj & Hdot).
    exists bits. split; [exact HA |].
    injection Hti as <-. injection Htj as <-. exact Hdot.
Defined.

(** X5, witness: a plain [.tif] file. *)
Lemma get_movie_groups_hangs_witness :
  get_movie_groups 1000 [lit "m.tif"%string; lit "n.ome.tif"%string] = None.
Proof.
  apply (get_movie_groups_hangs (lit "m.tif"%string) [lit "n.ome.tif"%string]).
  by vm_compute.
Defined.

(** X6, witness: a movie in two files and a movie in one. *)
Lemma get_movie_groups_ends_witness :
  ∃ r, ∀ fuel, (3 ≤ fuel)%nat →
    get_movie_groups fuel
      [lit "m.ome.tif"%string; lit "m_1.ome.tif"%string; lit "n.ome.tif"%string]
    = Some r.
Proof.
  apply (get_movie_groups_ends
           [lit "m.ome.tif"%string; lit "m_1.ome.tif"%string; lit "n.ome.tif"%string]).
  repeat constructor.
Defined.

(** X7, witness: the same three paths, in two groups. *)
Lemma get_movie_groups_partition_witness :
  concat [[lit "m.ome.tif"%string; lit "m_1.ome.tif"%string]; [lit "n.ome.tif"%string]]
  ≡ₚ [lit "m.ome.tif"%string; lit "m_1.ome.tif"%string; lit "n.ome.tif"%string]
  ∧ Forall (λ g, ∃ p rest, g = p :: rest ∧ endswith p ome_tif = true)
      [[lit "m.ome.tif"%string; lit "m_1.ome.tif"%string]; [lit "n.ome.tif"%string]].
Proof.
  apply (get_movie_groups_partition 3
           [lit "m.ome.tif"%string; lit "m_1.ome.tif"%string; lit "n.ome.tif"%string]).
  by vm_compute.
Defined.

(** X8, witness: a backup [m_1.ome.tif.bak] beside [m.ome.tif]. *)
Lemma get_movie_groups_prefix_match_witness :
  get_movie_groups 1 [lit "m.ome.tif"%string; lit "m_1.ome.tif.bak"%string]
  = Some (Fail RemoveValueError).
Proof.
  apply (get_movie_groups_prefix_match (lit "m.ome.tif"%string)
           (lit "m_1.ome.tif.bak"%string) (lit "m_1.ome.tif"%string)
           [lit "m_1.ome.tif.bak"%string] 0).
  - by vm_compute.
  - apply list_elem_of_further, list_elem_of_here.
  - by vm_compute.
  - apply (bool_decide_unpack _). by vm_compute.
Defined.

(** X9, witness: localizations saved to [data/locs.hdf5] of an empty file
    system. *)
Lemma save_load_locs_witness :
  load_locs (lit "data/locs.hdf5"%string)
    (save_locs (lit "data/locs.hdf5"%string) some_locs [big_endian_info] no_file)
  = Done (some_locs, [big_endian_info])
  ∧ load_info (lit "data/locs.hdf5"%string)
      (save_locs (lit "data/locs.hdf5"%string) some_locs [big_endian_info] no_file)
    = Done [big_endian_info]
  ∧ ∀ q, q ≠ lit "data/locs.hdf5"%string →
         q ≠ (splitext (lit "data/locs.hdf5"%string)).1 ++ lit ".yaml"%string →
         save_locs (lit "data/locs.hdf5"%string) some_locs [big_endian_info] no_file q
         = no_file q.
Proof.
  apply (save_load_locs (lit "data/locs.hdf5"%string) some_locs [big_endian_info]
           no_file).
  - reflexivity.
  - reflexivity.
  - vm_compute. discriminate.
Defined.

(** X10, witness: localizations saved to [data/locs.yaml]. *)
Lemma save_locs_overwrites_witness :
  save_locs (lit "data/locs.yaml"%string) some_locs [big_endian_info] no_file
    (lit "data/locs.yaml"%string)
  = Some (yaml_dump_all [big_endian_info])
  ∧ load_locs (lit "data/locs.yaml"%string)
      (save_locs (lit "data/locs.yaml"%string) some_locs [big_endian_info] no_file)
    = Fail (ReaderError 1).
Proof.
  destruct (save_locs_overwrites (lit "data/locs.yaml"%string) some_locs
              [big_endian_info] no_file) as [Hfile Hload]; [by vm_compute |].
  split; [exact Hfile |]. rewrite Hload. reflexivity.
Defined.

Lemma one_movie_load (fs' : filesystem) :
  (∀ q, q ≠ (splitext (lit "data/m.ome.tif"%string)).1 ++ lit ".raw"%string →
        fs' q = one_movie q) →
  load_tif (lit "data/m.ome.tif"%string) fs' = Done (movie_array, movie_info).
Proof.
  intros Hfs. unfold load_tif. cbn [tiff_open ValueTiff]. unfold fs_read.
  rewrite Hfs by (vm_compute; discriminate). reflexivity.
Qed.

(** X11, witness: the movie of the stand-in. *)
Lemma load_tif_base_info_witness :
  ∃ info, load_tif (lit "data/m.ome.tif"%string) one_movie = Done (movie_array, info)
    ∧ (∀ key value,
         (key, value) ∈ base_info movie_tiff (lit "uint16"%string) 2 1 2 →
         getitem info key = Done value)
    ∧ (∀ key value, getitem info key = Done value →
         key ∈ (base_info movie_tiff (lit "uint16"%string) 2 1 2).*1
         ∨ key ∈ metadata_keys).
Proof.
  apply (load_tif_base_info (lit "data/m.ome.tif"%string) one_movie movie_tiff
           movie_array (lit "uint16"%string) 2 1 2); reflexivity.
Defined.

(** X12, witness: the movie of the stand-in, with filter label [2-Cy3 561]. *)
Lemma load_tif_metadata_in_order_witness :
  getitem movie_info (lit "Excitation Wavelength"%string) = Done (PInt 561)
  ∧ ∀ key, key ∈ first_entries → ∃ value, getitem movie_info key = Done value.
Proof.
  split; [reflexivity |].
  apply (load_tif_metadata_in_order (lit "data/m.ome.tif"%string) one_movie
           movie_array movie_info (PInt 561)); reflexivity.
Defined.

(** X13, witness: two lists with the same first path. *)
Lemma to_raw_combined_ignores_rest_witness :
  to_raw_combined [lit "data/m.ome.tif"%string; lit "data/m_1.ome.tif"%string] one_movie
  = to_raw_combined [lit "data/m.ome.tif"%string; lit "data/m_2.ome.tif"%string]
      one_movie.
Proof.
  apply (to_raw_combined_ignores_rest (lit "data/m.ome.tif"%string)
           [lit "data/m_1.ome.tif"%string] [lit "data/m_2.ome.tif"%string] one_movie).
  reflexivity.
Defined.

(** X14, witness: a list of two paths; the raw file holds the words of the
    first movie, byte-swapped, twice. *)
Lemma to_raw_combined_repeats_first_witness :
  ∃ fs' info',
    to_raw_combined [lit "data/m.ome.tif"%string; lit "data/m_1.ome.tif"%string]
      one_movie = (fs', Done tt)
    ∧ fs' (lit "data/m.ome.raw"%string)
      = Some (PInt <$> [256; 512; 768; 513; 256; 512; 768; 513])
    ∧ fs' (lit "data/m.ome.yaml"%string) = Some (yaml_safe_dump (PDict info'))
    ∧ getitem info' (lit "Frames"%string) = Done (PInt 2).
Proof.
  destruct (to_raw_combined_repeats_first (lit "data/m.ome.tif"%string)
              [lit "data/m_1.ome.tif"%string] one_movie movie_array movie_info
              (PStr (lit ">"%string)) (PStr (lit "m.ome.tif"%string))
              one_movie_load eq_refl eq_refl)
    as (fs' & info' & Hrun & Hraw & Hyaml & _ & _ & _ & Hframes).
  exists fs', info'. split; [exact Hrun |]. split; [exact Hraw |].
  split; [exact Hyaml |]. exact Hframes.
Defined.



(** X17, witness: the movie of the stand-in, converted and read back
    without a memory map. *)
Lemma to_raw_single_load_raw_witness :
  ∃ fs' info,
    _to_raw_single (lit "data/m.ome.tif"%string) one_movie = (fs', Done tt)
    ∧ load_raw (lit "data/m.ome.raw"%string) false fs'
      = Done (little_array,
              PDict info)
    ∧ getitem info (lit "Byte Order"%string) = Done (PStr (lit "<"%string))
    ∧ getitem info (lit "Original File"%string) = Done (PStr (lit "m.ome.tif"%string))
    ∧ getitem info (lit "File"%string) = Done (PStr (lit "m.ome.raw"%string)).
Proof.
  destruct (to_raw_single_load_raw (lit "data/m.ome.tif"%string) one_movie movie_tiff
              movie_array little_array (lit "uint16"%string) 2 1 2 false tt)
    as (fs' & info & Hrun & Hload & Horder & Horiginal & Hfile).
  12: { exists fs', info. split; [exact Hrun |]. split; [exact Hload |].
        split; [exact Horder |]. split; [exact Horiginal | exact Hfile]. }
  - vm_compute. discriminate.
  - apply (bool_decide_unpack _). by vm_compute.
  - apply (bool_decide_unpack _). by vm_compute.
  - intros a Ha. discriminate Ha.
  - reflexivity.
  - reflexivity.
  - reflexivity.
  - reflexivity.
  - intros v. reflexivity.
  - reflexivity.
  - reflexivity.
Defined.

(** X18, witness: the big-endian raw movie of the stand-in. *)
Lemma load_raw_little_endian_witness :
  load_raw (lit "data/b.raw"%string) true big_endian_raw
  = Done (big_endian_loaded,
          little_endian_info)
  ∧ ∃ info0 docs,
      load_info (lit "data/b.raw"%string) big_endian_raw = Done (info0 :: docs)
      ∧ subscript info0 (lit "Byte Order"%string) = Done (PStr (lit ">"%string)).
Proof.
  assert (load_raw (lit "data/b.raw"%string) true big_endian_raw
          = Done (big_endian_loaded, little_endian_info)) as Hrun by reflexivity.
  split; [exact Hrun |].
  destruct (load_raw_little_endian (lit "data/b.raw"%string) true big_endian_raw
              big_endian_loaded
              little_endian_info Hrun)
    as (_ & info0 & docs & Hinfo & _).
  exists info0, docs. split; [exact Hinfo |].
  vm_compute in Hinfo. by injection Hinfo as <- _.
Defined.

(** X19, witness: a directory with one plain [.tif] file. *)
Lemma to_raw_hangs_witness :
  to_raw 1000 (lit "data/m.tif"%string) one_plain_tif = None.
Proof.
  apply (to_raw_hangs (lit "data/m.tif"%string) (lit "data/m.tif"%string) []
           one_plain_tif); reflexivity.
Defined.
